(** * The turtle navigator control law

    A shallow embedding of [navigator.cpp] (package [navigator_implicit] of
    the ROS test workspace) and the properties of its control loop.

    C++ [double] is IEEE 754 binary64, embedded as Rocq's primitive [float]:
    [+], [-], [*], [<] and [std::sqrt] are the correctly rounded binary64
    operations, evaluated in binary64 (no extended precision, no fused
    multiply-add).  [std::atan2] belongs to the C library and is a parameter
    of the embedding. *)

From Stdlib Require Import ZArith NArith Lia Bool List Floats.
Import ListNotations.
Set Warnings "-inexact-float".
Open Scope float_scope.

(** * Part I: the program *)

(** ** Numbers *)

Definition double := float.
Bind Scope float_scope with double.

(** [M_PI] of <cmath>: the binary64 number nearest to pi. *)
Definition M_PI : double := 0x1.921fb54442d18p+1.

Module std.

(** [std::clamp(v, lo, hi)]: [lo] if [v < lo], else [hi] if [hi < v],
    else [v]. *)
Definition clamp (v lo hi : double) : double :=
  if v <? lo then lo else if hi <? v then hi else v.

Definition sqrt (v : double) : double := PrimFloat.sqrt v.

End std.

(** ** Messages *)

(** geometry_msgs/msg/Point *)
Module Point.
Record t := make { x : double; y : double; z : double }.
End Point.

(** turtlesim/msg/Pose.  On the wire its fields are binary32 numbers; every
    binary32 number is a binary64 number, and [pose_callback] stores the
    fields in [double] cells. *)
Module Pose.
Record t := make { x : double; y : double; theta : double;
                   linear_velocity : double; angular_velocity : double }.
End Pose.

(** geometry_msgs/msg/Vector3 *)
Module Vector3.
Record t := make { x : double; y : double; z : double }.
Definition zero : t := make 0 0 0.
End Vector3.

(** geometry_msgs/msg/Twist; [default] is [geometry_msgs::msg::Twist()]. *)
Module Twist.
Record t := make { linear : Vector3.t; angular : Vector3.t }.
Definition default : t := make Vector3.zero Vector3.zero.
Definition set_linear_x (v : double) (m : t) : t :=
  make (Vector3.make v (Vector3.y (linear m)) (Vector3.z (linear m))) (angular m).
Definition set_angular_z (v : double) (m : t) : t :=
  make (linear m) (Vector3.make (Vector3.x (angular m)) (Vector3.y (angular m)) v).
End Twist.

(** ** The node *)

(** The data members of [class TurtleNavigator] (lines 82-85).  The
    subscriptions, the publisher and the timer are handles of the
    middleware; what arrives through them is the [event] type below. *)
Record TurtleNavigator := {
  x_goal_ : double;  y_goal_ : double;
  x_current_ : double;  y_current_ : double;  theta_current_ : double;
  kp_ : double;  ki_ : double;  kd_ : double;
  prev_error_ : double;  integral_ : double
}.

(** The constructor (lines 13-14).  Its initialiser list names the goal, the
    gains and the two memory cells of the controller.  [x_current_],
    [y_current_] and [theta_current_] are not in it: they keep whatever the
    storage of the object held, which is what the three arguments stand
    for. *)
Definition TurtleNavigator_ctor (x_current_0 y_current_0 theta_current_0 : double)
  : TurtleNavigator :=
  {| x_goal_ := 4.0;  y_goal_ := 5.0;
     x_current_ := x_current_0;  y_current_ := y_current_0;
     theta_current_ := theta_current_0;
     kp_ := 1.0;  ki_ := 0.0;  kd_ := 0.05;
     prev_error_ := 0.0;  integral_ := 0.0 |}.

(** [goal_callback] (lines 30-35) *)
Definition goal_callback (self : TurtleNavigator) (msg : Point.t) : TurtleNavigator :=
  {| x_goal_ := Point.x msg;  y_goal_ := Point.y msg;
     x_current_ := x_current_ self;  y_current_ := y_current_ self;
     theta_current_ := theta_current_ self;
     kp_ := kp_ self;  ki_ := ki_ self;  kd_ := kd_ self;
     prev_error_ := prev_error_ self;  integral_ := integral_ self |}.

(** [pose_callback] (lines 37-42) *)
Definition pose_callback (self : TurtleNavigator) (msg : Pose.t) : TurtleNavigator :=
  {| x_goal_ := x_goal_ self;  y_goal_ := y_goal_ self;
     x_current_ := Pose.x msg;  y_current_ := Pose.y msg;
     theta_current_ := Pose.theta msg;
     kp_ := kp_ self;  ki_ := ki_ self;  kd_ := kd_ self;
     prev_error_ := prev_error_ self;  integral_ := integral_ self |}.

(** The two assignments of lines 60-61. *)
Definition set_state (self : TurtleNavigator) (prev_error integral : double)
  : TurtleNavigator :=
  {| x_goal_ := x_goal_ self;  y_goal_ := y_goal_ self;
     x_current_ := x_current_ self;  y_current_ := y_current_ self;
     theta_current_ := theta_current_ self;
     kp_ := kp_ self;  ki_ := ki_ self;  kd_ := kd_ self;
     prev_error_ := prev_error;  integral_ := integral |}.

(** ** Loops *)

(** [while (cond) body;] on a state [S].  [fuel] bounds the number of times
    the body runs; [None] is a loop still running when the fuel is spent. *)
Fixpoint while {S : Type} (cond : S -> bool) (body : S -> S)
         (fuel : nat) (s : S) : option S :=
  if cond s then
    match fuel with
    | O => None
    | Datatypes.S fuel' => while cond body fuel' (body s)
    end
  else Some s.

(** Lines 55-56: the two normalisation loops, one after the other, each with
    its own [fuel].  [angle_error > M_PI] is [M_PI < angle_error]. *)
Definition normalize_angle (fuel : nat) (angle_error : double) : option double :=
  match while (fun a => M_PI <? a) (fun a => a - 2 * M_PI) fuel angle_error with
  | None => None
  | Some angle_error =>
      while (fun a => a <? - M_PI) (fun a => a + 2 * M_PI) fuel angle_error
  end.

(** ** The control loop *)

(** Lines 47-49. *)
Definition distance_error (self : TurtleNavigator) : double :=
  let error_x := x_goal_ self - x_current_ self in
  let error_y := y_goal_ self - y_current_ self in
  std.sqrt (error_x * error_x + error_y * error_y).

(** Line 59, on the members as they are when the line runs. *)
Definition control_signal (self : TurtleNavigator) : double :=
  kp_ self * distance_error self + ki_ self * integral_ self
  + kd_ self * (distance_error self - prev_error_ self).

Section ControlLoop.

(** [std::atan2(y, x)] *)
Variable atan2 : double -> double -> double.

(** Line 51 (with lines 47-48): the direction of the goal. *)
Definition angle_to_goal (self : TurtleNavigator) : double :=
  let error_x := x_goal_ self - x_current_ self in
  let error_y := y_goal_ self - y_current_ self in
  atan2 error_y error_x.

(** Lines 47-52: the heading error before normalisation. *)
Definition raw_angle_error (self : TurtleNavigator) : double :=
  let error_x := x_goal_ self - x_current_ self in
  let error_y := y_goal_ self - y_current_ self in
  let angle_to_goal := atan2 error_y error_x in
  angle_to_goal - theta_current_ self.

(** [control_loop] (lines 44-75): the node after the call and the message
    handed to [publisher_->publish], or [None] when a normalisation loop
    has not come to an end within [fuel] rounds (then lines 58-74 are never
    reached: no member is written and nothing is published). *)
Definition control_loop (fuel : nat) (self : TurtleNavigator)
  : option (TurtleNavigator * Twist.t) :=
  let error_x := x_goal_ self - x_current_ self in
  let error_y := y_goal_ self - y_current_ self in
  let distance_error := std.sqrt (error_x * error_x + error_y * error_y) in
  let angle_to_goal := atan2 error_y error_x in
  let angle_error := angle_to_goal - theta_current_ self in
  match normalize_angle fuel angle_error with
  | None => None
  | Some angle_error =>
      let control_signal :=
        kp_ self * distance_error + ki_ self * integral_ self
        + kd_ self * (distance_error - prev_error_ self) in
      let integral := integral_ self + distance_error in
      let prev_error := distance_error in
      let self := set_state self prev_error integral in
      let max_linear_speed := 2.0 in
      let max_angular_speed := 2.0 in
      let control_signal :=
        std.clamp control_signal (- max_linear_speed) max_linear_speed in
      let msg := Twist.default in
      let msg := Twist.set_linear_x control_signal msg in
      let msg := Twist.set_angular_z (4.0 * angle_error) msg in
      let msg :=
        Twist.set_angular_z
          (std.clamp (Vector3.z (Twist.angular msg))
                     (- max_angular_speed) max_angular_speed) msg in
      Some (self, msg)
  end.

(** ** The executor *)

(** What [rclcpp::spin] hands to the node: a message on [coordinates], a
    message on [turtle1/pose], or an expiry of the 100 ms timer. *)
Inductive event :=
| Coordinates (msg : Point.t)
| TurtlePose (msg : Pose.t)
| Timer.

(** One callback; the second component lists what it published. *)
Definition dispatch (fuel : nat) (self : TurtleNavigator) (ev : event)
  : option (TurtleNavigator * list Twist.t) :=
  match ev with
  | Coordinates msg => Some (goal_callback self msg, [])
  | TurtlePose msg => Some (pose_callback self msg, [])
  | Timer =>
      match control_loop fuel self with
      | Some (self', msg) => Some (self', [msg])
      | None => None
      end
  end.

(** The callbacks run one at a time and to completion, in the order of the
    events; the messages published on [turtle1/cmd_vel] are collected in
    that order. *)
Fixpoint spin (fuel : nat) (events : list event) (self : TurtleNavigator)
  : option (TurtleNavigator * list Twist.t) :=
  match events with
  | [] => Some (self, [])
  | ev :: events' =>
      match dispatch fuel self ev with
      | None => None
      | Some (self', out) =>
          match spin fuel events' self' with
          | None => None
          | Some (self'', out') => Some (self'', out ++ out')
          end
      end
  end.

(** One control cycle, keeping the node only. *)
Definition cycle (fuel : nat) (self : option TurtleNavigator) : option TurtleNavigator :=
  match self with
  | Some self =>
      match control_loop fuel self with
      | Some (self', _) => Some self'
      | None => None
      end
  | None => None
  end.

(** [n] consecutive expiries of the timer with no message in between. *)
Definition cycles (fuel : nat) (n : N) (self : TurtleNavigator) : option TurtleNavigator :=
  N.iter n (cycle fuel) (Some self).

(** [main] (lines 88-94): the node is constructed and handed to
    [rclcpp::spin], which runs its callbacks until the process is shut
    down; [events] is what arrives until then, and the three numbers are
    what the storage of the pose members holds when the constructor runs.
    The result is what the process has published on [turtle1/cmd_vel], or
    [None] when a callback does not return. *)
Definition main (fuel : nat) (x_current_0 y_current_0 theta_current_0 : double)
    (events : list event) : option (list Twist.t) :=
  match spin fuel events
             (TurtleNavigator_ctor x_current_0 y_current_0 theta_current_0) with
  | Some (_, out) => Some out
  | None => None
  end.

End ControlLoop.

(** * Part II: vocabulary of the statements *)

(** The members that hold the goal, the pose and the gains. *)
Definition same_configuration (a b : TurtleNavigator) : Prop :=
  x_goal_ a = x_goal_ b /\ y_goal_ a = y_goal_ b
  /\ x_current_ a = x_current_ b /\ y_current_ a = y_current_ b
  /\ theta_current_ a = theta_current_ b
  /\ kp_ a = kp_ b /\ ki_ a = ki_ b /\ kd_ a = kd_ b.

(** The gains are the ones of the constructor (no member function writes
    them). *)
Definition gains_as_constructed (self : TurtleNavigator) : Prop :=
  kp_ self = 1.0 /\ ki_ self = 0.0 /\ kd_ self = 0.05.

(** [lo <= v <= hi], both comparisons being the ones of binary64 (false on
    NaN). *)
Definition within (lo hi v : double) : bool := (lo <=? v) && (v <=? hi).

(** The half-open interval of the specification. *)
Definition in_half_open_turn (r : double) : bool := (- M_PI <? r) && (r <=? M_PI).

(** What [std::atan2] has to satisfy where a statement needs it.  On the
    positive x axis, [atan2(+0, x)] is [+0] (ISO C, Annex F.10.1.4). *)
Definition atan2_positive_x_axis (atan2 : double -> double -> double) : Prop :=
  forall x, (0 <? x) = true -> atan2 0 x = 0.

(** Unless an argument is NaN, the result is a number within
    [-M_PI, M_PI]. *)
Definition atan2_in_range (atan2 : double -> double -> double) : Prop :=
  forall y x,
    is_nan y = false -> is_nan x = false -> within (- M_PI) M_PI (atan2 y x) = true.

(** Values of [std::atan2] at the points where the closed examples below
    evaluate it: [+0] on the positive x axis and at the origin for a
    numerator [+0], and the binary64 number nearest to arctan(5/4) at
    (5, 4).  Elsewhere the table has no entry. *)
Definition atan2_table (y x : double) : double :=
  if Leibniz.eqb y 0 && ((0 <? x) || Leibniz.eqb x 0) then 0
  else if (y =? 5) && (x =? 4) then 0x1.cac7c57846f9ep-1
  else nan.

(** A node whose goal and position are finite numbers. *)
Definition finite_position (self : TurtleNavigator) : Prop :=
  is_finite (x_goal_ self) = true /\ is_finite (y_goal_ self) = true
  /\ is_finite (x_current_ self) = true /\ is_finite (y_current_ self) = true.

(** ** Binary64 numbers as integers

    Every finite binary64 number is an integer multiple of [2^-1074]; its
    value is that integer.  The infinities are given values beyond every
    finite number, so that the order of the non-NaN numbers is the order of
    their values. *)
Definition SFval (x : spec_float) : Z :=
  match x with
  | S754_finite s m e => cond_Zopp s (Zpos m * 2 ^ (e + 1074))
  | S754_infinity s => cond_Zopp s (2 ^ 2100)
  | _ => 0
  end%Z.

(** Zero or finite; NaN; and "not NaN, with sign bit [s]". *)
Definition SFfinite (x : spec_float) : bool :=
  match x with S754_zero _ | S754_finite _ _ _ => true | _ => false end.

Definition SFnan (x : spec_float) : bool :=
  match x with S754_nan => true | _ => false end.

Definition SFsigned (s : bool) (r : spec_float) : Prop :=
  match r with
  | S754_zero s' | S754_infinity s' | S754_finite s' _ _ => s' = s
  | S754_nan => False
  end.

(** [V], in units of [2^-1074], is a binary64 number: at most 53
    significant bits, and below the overflow threshold. *)
Definition representable (V : Z) : Prop :=
  exists p j, (0 <= j /\ Z.abs V = p * 2 ^ j /\ 0 <= p < 2 ^ 53 /\ Z.abs V < 2 ^ 2098)%Z.

(** The value of a [double], in units of [2^-1074]. *)
Definition fval (x : double) : Z := SFval (Prim2SF x).

(** The significand of [M_PI]: [M_PI = Mpi * 2^-51]. *)
Definition Mpi : Z := 7074237752028440.

(** ** Sample inputs *)

(** A node whose pose has been received: the turtle at (3, 5), heading 0,
    one unit short of the constructor's goal (4, 5). *)
Definition node_near_goal : TurtleNavigator :=
  pose_callback (TurtleNavigator_ctor 0 0 0) (Pose.make 3 5 0 0 0).

(** The node of the end-to-end scenario: pose (0, 0, 0). *)
Definition node_at_origin : TurtleNavigator :=
  pose_callback (TurtleNavigator_ctor 0 0 0) (Pose.make 0 0 0 0 0).

(** The turtle on the constructor's goal (4, 5), heading 1 rad. *)
Definition node_on_goal : TurtleNavigator :=
  pose_callback (TurtleNavigator_ctor 0 0 0) (Pose.make 4 5 1 0 0).

(** The turtle at (3, 5), one unit short of the constructor's goal (4, 5),
    reporting the heading [2^60]; all three are binary32 numbers. *)
Definition node_far_heading : TurtleNavigator :=
  pose_callback (TurtleNavigator_ctor 0 0 0) (Pose.make 3 5 0x1p60 0 0).

(** A goal far away, then the pose, then two expiries of the timer.  The
    goal is a message of two binary64 coordinates; [2^700] is one. *)
Definition far_goal_run : list event :=
  [ Coordinates (Point.make 0x1p700 0 0);
    TurtlePose (Pose.make 0 0 0 0 0);
    Timer; Timer ].

(** [start + d + ... + d], with [n] additions of binary64. *)
Definition repeated_sum (d : double) (n : N) (start : double) : double :=
  N.iter n (fun i => i + d) start.

(** ** Runs of the node *)

(** The number of expiries of the timer in a run. *)
Fixpoint timers (events : list event) : nat :=
  match events with
  | [] => O
  | Timer :: events' => S (timers events')
  | _ :: events' => timers events'
  end.

(** The last message on [coordinates] in a run, and the last one on
    [turtle1/pose]. *)
Fixpoint last_goal (events : list event) : option Point.t :=
  match events with
  | [] => None
  | ev :: events' =>
      match last_goal events', ev with
      | Some msg, _ => Some msg
      | None, Coordinates msg => Some msg
      | None, _ => None
      end
  end.

Fixpoint last_pose (events : list event) : option Pose.t :=
  match events with
  | [] => None
  | ev :: events' =>
      match last_pose events', ev with
      | Some msg, _ => Some msg
      | None, TurtlePose msg => Some msg
      | None, _ => None
      end
  end.

(** A command that asks for motion along the heading and for rotation
    about the vertical axis only. *)
Definition planar (msg : Twist.t) : Prop :=
  Vector3.y (Twist.linear msg) = 0 /\ Vector3.z (Twist.linear msg) = 0
  /\ Vector3.x (Twist.angular msg) = 0 /\ Vector3.y (Twist.angular msg) = 0.

(** Two nodes that differ in the pose members at most. *)
Definition same_but_pose (a b : TurtleNavigator) : Prop :=
  x_goal_ a = x_goal_ b /\ y_goal_ a = y_goal_ b
  /\ kp_ a = kp_ b /\ ki_ a = ki_ b /\ kd_ a = kd_ b
  /\ prev_error_ a = prev_error_ b /\ integral_ a = integral_ b.

(** An event with the fields that no callback reads set to zero: [z] of a
    point, and the two velocities of a pose. *)
Definition read_fields (ev : event) : event :=
  match ev with
  | Coordinates msg => Coordinates (Point.make (Point.x msg) (Point.y msg) 0)
  | TurtlePose msg =>
      TurtlePose (Pose.make (Pose.x msg) (Pose.y msg) (Pose.theta msg) 0 0)
  | Timer => Timer
  end.

(** ** Signs and NaN *)

(** Not NaN, and with the sign bit clear: [+0], a positive number or
    [+infinity]. *)
Definition nonnegative (x : double) : Prop := SFsigned false (Prim2SF x).

(** One of the four coordinates that [distance_error] reads is NaN. *)
Definition nan_coordinate (self : TurtleNavigator) : bool :=
  is_nan (x_goal_ self) || is_nan (y_goal_ self)
  || is_nan (x_current_ self) || is_nan (y_current_ self).

(** The linear speed of a command is NaN. *)
Definition linear_nan (msg : Twist.t) : Prop :=
  is_nan (Vector3.x (Twist.linear msg)) = true.

(** ** Rounding to nearest *)

(** The record [mrs] is the integer [M] shifted right by [n] places: its
    significand is the quotient, and its round and sticky bits place the
    remainder with respect to half of [2^n]. *)
Definition shifted (M n : Z) (mrs : shr_record) : Prop :=
  (0 <= shr_m mrs
   /\ exists rem,
        M = shr_m mrs * 2 ^ n + rem /\ 0 <= rem < 2 ^ n
        /\ match shr_r mrs, shr_s mrs with
           | false, false => rem = 0
           | false, true => 0 < 2 * rem < 2 ^ n
           | true, false => 2 * rem = 2 ^ n
           | true, true => 2 ^ n < 2 * rem
           end)%Z.

(** The number [r] is the integer [V] (a value in units of [2^-1074])
    rounded to nearest.  Either [r] is finite, within half a unit in the
    last place of [V] (for [V] below [2^b], that unit is [2^(b-53)] or less)
    and on the grid of that unit; or [V] lies within half a unit of the
    overflow threshold or beyond, and [r] is the infinity of its sign. *)
Definition rounded (V : Z) (r : spec_float) : Prop :=
  (SFfinite r = true
   /\ (forall b, 53 <= b -> Z.abs V < 2 ^ b -> 2 * Z.abs (SFval r - V) <= 2 ^ (b - 53))
   /\ (forall b, 53 <= b -> 2 ^ (b - 1) <= Z.abs V -> exists k, SFval r = k * 2 ^ (b - 53)))%Z
  \/ (r = S754_infinity (V <? 0)%Z /\ 2 ^ 2098 - 2 ^ 2044 <= Z.abs V)%Z.

(** ** More sample inputs *)

(** Two goals and a pose. *)
Definition sample_messages : list event :=
  [ Coordinates (Point.make 9 9 9);
    TurtlePose (Pose.make 0 0 0 0 0);
    Coordinates (Point.make 4 5 1) ].

(** The same, then an expiry of the timer, a pose one unit short of the
    goal, and another expiry. *)
Definition sample_run : list event :=
  sample_messages ++ [ Timer; TurtlePose (Pose.make 3 5 0 1 1); Timer ].

(** One unit short of the goal, with something in the memory of the
    controller. *)
Definition node_with_memory : TurtleNavigator := set_state node_near_goal 1 3.

(** One unit short of the goal, with NaN in the integral. *)
Definition node_poisoned : TurtleNavigator := set_state node_near_goal 0 nan.

(** A goal whose first coordinate is NaN. *)
Definition node_nan_goal : TurtleNavigator :=
  goal_callback node_near_goal (Point.make nan 5 0).

(** One unit short of the goal, heading a quarter of a radian off it. *)
Definition node_small_heading : TurtleNavigator :=
  pose_callback (TurtleNavigator_ctor 0 0 0) (Pose.make 3 5 0.25 0 0).

(** ** Calls that return *)

(** The call of [control_loop] on [self] returns [r]: the model gives [r]
    for every amount of fuel from some amount on. *)
Definition returns (atan2 : double -> double -> double) (self : TurtleNavigator)
    (r : TurtleNavigator * Twist.t) : Prop :=
  exists n, forall fuel, (n <= fuel)%nat -> control_loop atan2 fuel self = Some r.

(** Entered with [a], the two loops of lines 55-56 leave with [r]. *)
Definition normalizes (a r : double) : Prop :=
  exists n, forall fuel, (n <= fuel)%nat -> normalize_angle fuel a = Some r.

(** ** Runs with messages in between *)

(** The distance errors that the calls of [control_loop] in a run compute
    (lines 47-49), in the order of the calls. *)
Fixpoint observed_errors (atan2 : double -> double -> double) (fuel : nat)
    (events : list event) (self : TurtleNavigator) : list double :=
  match events with
  | [] => []
  | ev :: events' =>
      match dispatch atan2 fuel self ev with
      | None => []
      | Some (self', _) =>
          match ev with Timer => [distance_error self] | _ => [] end
          ++ observed_errors atan2 fuel events' self'
      end
  end.

(** ** Sample inputs on the goal *)

(** [atan2_table] with one more entry of Annex F.10.1.4: [atan2(+0, -0)] is
    pi. *)
Definition atan2_signed_zero (y x : double) : double :=
  if Leibniz.eqb y 0 && Leibniz.eqb x (- 0) then M_PI else atan2_table y x.

(** The turtle at (0, 5) with heading 0, on the goal (0, 5); and the same
    with the goal (-0, 5), which compares equal to it. *)
Definition node_on_zero_goal : TurtleNavigator :=
  pose_callback (goal_callback (TurtleNavigator_ctor 0 0 0) (Point.make 0 5 0))
                (Pose.make 0 5 0 0 0).

Definition node_on_negative_zero_goal : TurtleNavigator :=
  pose_callback (goal_callback (TurtleNavigator_ctor 0 0 0) (Point.make (- 0) 5 0))
                (Pose.make 0 5 0 0 0).

(** The goal and the turtle at (+infinity, 5). *)
Definition node_on_infinite_goal : TurtleNavigator :=
  pose_callback (goal_callback (TurtleNavigator_ctor 0 0 0) (Point.make infinity 5 0))
                (Pose.make infinity 5 0 0 0).

(** The turtle on the constructor's goal (4, 5), reporting the heading
    [2^60]. *)
Definition node_on_goal_far_heading : TurtleNavigator :=
  pose_callback (TurtleNavigator_ctor 0 0 0) (Pose.make 4 5 0x1p60 0 0).

(** Three expiries of the timer, with a pose and a goal in between that
    keep the turtle one unit short of the goal. *)
Definition sample_cycles : list event :=
  [ Timer; TurtlePose (Pose.make 3 5 0 1 1); Timer;
    Coordinates (Point.make 4 5 7); Timer ].

(** * Part III: binary64 arithmetic

    Facts about the binary64 operations, derived from their specification
    [SpecFloat]: the order of the non-NaN numbers is the order of their
    values; a sum or difference whose exact value is a binary64 number is
    computed exactly; in general it is computed within one unit in the last
    place. *)

Module Binary64.

Local Open Scope Z_scope.

(** ** Significands

    [digits2_pos m] is the number of binary digits of [m]; a valid
    significand has at most 53 of them, and exactly 53 unless the exponent
    is the least one. *)

Lemma digits2_pos_log2 m : Zpos (digits2_pos m) = Z.log2 (Zpos m) + 1.
Proof.
  induction m as [m IH|m IH|]; cbn [digits2_pos]; try reflexivity.
  - rewrite Pos2Z.inj_succ, IH.
    change (Z.pos m~1) with (2 * Z.pos m + 1).
    rewrite Z.log2_succ_double by lia. lia.
  - rewrite Pos2Z.inj_succ, IH.
    change (Z.pos m~0) with (2 * Z.pos m).
    rewrite Z.log2_double by lia. lia.
Qed.

Lemma digits_bounds m : 2 ^ (Zpos (digits2_pos m) - 1) <= Zpos m < 2 ^ Zpos (digits2_pos m).
Proof.
  rewrite digits2_pos_log2.
  replace (Z.log2 (Z.pos m) + 1 - 1) with (Z.log2 (Zpos m)) by lia.
  replace (Z.log2 (Z.pos m) + 1) with (Z.succ (Z.log2 (Zpos m))) by lia.
  apply Z.log2_spec. lia.
Qed.

Lemma bounded_inv m e :
  bounded prec emax m e = true ->
  -1074 <= e <= 971 /\ Zpos m < 2 ^ 53 /\ (e = -1074 \/ 2 ^ 52 <= Zpos m).
Proof.
  unfold bounded, canonical_mantissa, fexp, SpecFloat.emin, prec, emax.
  intros H. apply andb_prop in H. destruct H as [H1 H2].
  apply Z.eqb_eq in H1. apply Z.leb_le in H2.
  pose proof (digits_bounds m) as [Hlo Hhi].
  set (d := Zpos (digits2_pos m)) in *.
  assert (Hd : 0 < d) by (unfold d; lia).
  assert (d <= 53) by lia.
  split; [lia|]. split.
  - eapply Z.lt_le_trans; [exact Hhi|]. apply Z.pow_le_mono_r; lia.
  - destruct (Z.eq_dec e (-1074)) as [|Hne]; [now left|right].
    assert (d = 53) by lia. replace 52 with (d - 1) by lia. exact Hlo.
Qed.

(** ** The order of the numbers is the order of their values *)

Lemma mant_exp_lt m1 m2 E1 E2 :
  0 <= E1 < E2 -> 0 < m1 < 2 ^ 53 -> 2 ^ 52 <= m2 ->
  m1 * 2 ^ E1 < m2 * 2 ^ E2.
Proof.
  intros HE Hm1 Hm2.
  assert (H1 : 0 < 2 ^ E1) by (apply Z.pow_pos_nonneg; lia).
  assert (H2 : 2 ^ E2 = 2 ^ (E2 - E1 - 1) * 2 * 2 ^ E1).
  { replace (2 ^ (E2 - E1 - 1) * 2) with (2 ^ (Z.succ (E2 - E1 - 1)))
      by (rewrite Z.pow_succ_r by lia; lia).
    rewrite <- Z.pow_add_r by lia. f_equal. lia. }
  assert (H3 : 0 < 2 ^ (E2 - E1 - 1)) by (apply Z.pow_pos_nonneg; lia).
  rewrite H2. change (2 ^ 53) with (2 ^ 52 * 2) in Hm1.
  assert (2 ^ 52 = 4503599627370496) by reflexivity.
  nia.
Qed.

Lemma finite_val_bound m e :
  bounded prec emax m e = true -> 0 < Zpos m * 2 ^ (e + 1074) < 2 ^ 2098.
Proof.
  intros H. apply bounded_inv in H. destruct H as (He & Hm & _).
  assert (H1 : 0 < 2 ^ (e + 1074)) by (apply Z.pow_pos_nonneg; lia).
  assert (H2 : 2 ^ (e + 1074) <= 2 ^ 2045) by (apply Z.pow_le_mono_r; lia).
  change (2 ^ 2098) with (2 ^ 53 * 2 ^ 2045). nia.
Qed.

Lemma mant_exp_compare mx ex my ey :
  bounded prec emax mx ex = true -> bounded prec emax my ey = true ->
  (Z.pos mx * 2 ^ (ex + 1074) ?= Z.pos my * 2 ^ (ey + 1074))
  = match ex ?= ey with
    | Lt => Lt | Gt => Gt | Eq => Pos.compare_cont Eq mx my
    end.
Proof.
  intros Vx Vy. apply bounded_inv in Vx, Vy.
  destruct Vx as (Hex & Hmx & Hnx), Vy as (Hey & Hmy & Hny).
  assert (Hpx : 0 < 2 ^ (ex + 1074)) by (apply Z.pow_pos_nonneg; lia).
  assert (Hpy : 0 < 2 ^ (ey + 1074)) by (apply Z.pow_pos_nonneg; lia).
  destruct (Z.compare_spec ex ey) as [->|Hlt|Hgt].
  - change (Pos.compare_cont Eq mx my) with (Pos.compare mx my).
    destruct (Pos.compare_spec mx my) as [->|Hm|Hm].
    + apply Z.compare_refl.
    + apply Z.compare_lt_iff. nia.
    + apply Z.compare_gt_iff. nia.
  - apply Z.compare_lt_iff. apply mant_exp_lt; lia.
  - apply Z.compare_gt_iff. apply mant_exp_lt; lia.
Qed.

(** [SFcompare], the comparison behind [<?], [<=?] and [=?], compares the
    values. *)
Lemma SFcompare_val x y :
  valid_binary x = true -> valid_binary y = true ->
  SFnan x = false -> SFnan y = false ->
  SFcompare x y = Some (SFval x ?= SFval y).
Proof.
  assert (Hbig : 2 ^ 2098 < 2 ^ 2100) by (apply Z.pow_lt_mono_r; lia).
  assert (Hpos : 0 < 2 ^ 2100) by (apply Z.pow_pos_nonneg; lia).
  destruct x as [sx|sx| |sx mx ex], y as [sy|sy| |sy my ey]; try discriminate;
    cbn [valid_binary SFval]; intros Vx Vy _ _;
    try (pose proof (finite_val_bound _ _ Vx));
    try (pose proof (finite_val_bound _ _ Vy));
    try (destruct sx); try (destruct sy);
    cbn [SFcompare cond_Zopp]; f_equal; symmetry;
    try first [ apply Z.compare_refl
              | apply Z.compare_lt_iff; lia
              | apply Z.compare_gt_iff; lia ].
  - rewrite Z.compare_opp,
      (Z.compare_antisym (Z.pos mx * 2 ^ (ex + 1074)) (Z.pos my * 2 ^ (ey + 1074))),
      (mant_exp_compare mx ex my ey Vx Vy).
    destruct (ex ?= ey); reflexivity.
  - apply mant_exp_compare; assumption.
Qed.

(** ** Rounding a value that is a binary64 number

    [binary_round] leaves such a value as it is: it only moves the
    significand to its canonical place. *)

Lemma iter_pos_eq {A} (f : A -> A) n : forall x, iter_pos f n x = Pos.iter f x n.
Proof.
  induction n as [n IH|n IH|]; intros x; cbn [iter_pos Pos.iter].
  - rewrite !IH. rewrite <- !Pos.iter_swap. reflexivity.
  - rewrite !IH. reflexivity.
  - reflexivity.
Qed.

Lemma shr_1_double m :
  0 <= m -> shr_1 (Build_shr_record (2 * m) false false) = Build_shr_record m false false.
Proof. destruct m as [|p|p]; [reflexivity|reflexivity|lia]. Qed.

Lemma iter_shr_1_exact n : forall m,
  0 <= m ->
  iter_pos shr_1 n (Build_shr_record (m * 2 ^ Zpos n) false false)
  = Build_shr_record m false false.
Proof.
  induction n as [|n IH] using Pos.peano_ind; intros m Hm.
  - rewrite iter_pos_eq. cbn [Pos.iter].
    replace (m * 2 ^ 1) with (2 * m) by lia. now apply shr_1_double.
  - rewrite iter_pos_eq, Pos.iter_succ, <- iter_pos_eq.
    rewrite Pos2Z.inj_succ, Z.pow_succ_r by lia.
    replace (m * (2 * 2 ^ Z.pos n)) with ((2 * m) * 2 ^ Z.pos n) by lia.
    rewrite IH by lia. now apply shr_1_double.
Qed.

Lemma shr_fexp_noshift m e :
  fexp prec emax (Zdigits2 m + e) <= e ->
  shr_fexp prec emax m e loc_Exact = (Build_shr_record m false false, e).
Proof.
  intros H. unfold shr_fexp, shr. cbn [shr_record_of_loc].
  destruct (fexp prec emax (Zdigits2 m + e) - e) eqn:E; try reflexivity. lia.
Qed.

Lemma shr_fexp_shift p n e :
  0 < n ->
  fexp prec emax (Zdigits2 (Zpos p * 2 ^ n) + e) = e + n ->
  shr_fexp prec emax (Zpos p * 2 ^ n) e loc_Exact = (Build_shr_record (Zpos p) false false, e + n).
Proof.
  intros Hn H. unfold shr_fexp, shr. cbn [shr_record_of_loc].
  rewrite H. replace (e + n - e) with n by lia.
  destruct n as [|q|q]; try lia.
  rewrite iter_shr_1_exact by lia. reflexivity.
Qed.

Lemma Zdigits2_log2 m : 0 < m -> Zdigits2 m = Z.log2 m + 1.
Proof. destruct m; try lia. intros _. apply digits2_pos_log2. Qed.

Lemma binary_round_aux_noshift sx m e :
  fexp prec emax (Zpos (digits2_pos m) + e) <= e ->
  binary_round_aux prec emax sx (Zpos m) e loc_Exact
  = if e <=? emax - prec then S754_finite sx m e else S754_infinity sx.
Proof.
  intros H. unfold binary_round_aux.
  rewrite shr_fexp_noshift by exact H.
  cbn [shr_m loc_of_shr_record round_nearest_even].
  rewrite shr_fexp_noshift by exact H.
  reflexivity.
Qed.

Lemma binary_round_aux_shift sx p n e :
  0 < n ->
  fexp prec emax (Zdigits2 (Zpos p * 2 ^ n) + e) = e + n ->
  binary_round_aux prec emax sx (Zpos p * 2 ^ n) e loc_Exact
  = if e + n <=? emax - prec then S754_finite sx p (e + n) else S754_infinity sx.
Proof.
  intros Hn H. unfold binary_round_aux.
  rewrite shr_fexp_shift by assumption.
  cbn [shr_m loc_of_shr_record round_nearest_even].
  rewrite shr_fexp_noshift.
  - reflexivity.
  - assert (Hp : 0 < 2 ^ n) by (apply Z.pow_pos_nonneg; lia).
    rewrite Zdigits2_log2 in H by nia.
    rewrite Z.log2_mul_pow2 in H by lia.
    cbn [Zdigits2]. rewrite digits2_pos_log2.
    replace (Z.log2 (Z.pos p) + 1 + (e + n)) with (n + Z.log2 (Z.pos p) + 1 + e) by lia.
    lia.
Qed.

Lemma iter_xO_pow2 m d : Zpos (Pos.iter xO m d) = Zpos m * 2 ^ Zpos d.
Proof.
  induction d as [|d IH] using Pos.peano_ind.
  - cbn [Pos.iter]. lia.
  - rewrite Pos.iter_succ, Pos2Z.inj_succ, Z.pow_succ_r by lia.
    rewrite Pos2Z.inj_xO, IH. lia.
Qed.

Lemma shl_align_le m e e' :
  e' <= e ->
  exists m', shl_align m e e' = (m', e') /\ Zpos m' = Zpos m * 2 ^ (e - e').
Proof.
  intros H. unfold shl_align.
  destruct (e' - e) as [|d|d] eqn:E; try lia.
  - assert (e' = e) by lia. subst e'. exists m. split; [reflexivity|].
    rewrite Z.sub_diag. lia.
  - eexists. split; [reflexivity|]. rewrite iter_xO_pow2. f_equal. f_equal. lia.
Qed.

Lemma shl_align_gt m e e' : e <= e' -> shl_align m e e' = (m, e).
Proof.
  intros H. unfold shl_align. destruct (e' - e) eqn:E; try reflexivity. lia.
Qed.

(** The significand [m] at exponent [e] stands for a binary64 number:
    [binary_round] returns it, in canonical form. *)
Lemma binary_round_exact sx m e :
  -1074 <= e ->
  representable (Zpos m * 2 ^ (e + 1074)) ->
  exists m' t,
    binary_round prec emax sx m e = S754_finite sx m' t
    /\ bounded prec emax m' t = true
    /\ Zpos m' * 2 ^ (t + 1074) = Zpos m * 2 ^ (e + 1074).
Proof.
  intros He (p & j & Hj & Hpj & Hp & Hov).
  assert (HE : 0 < 2 ^ (e + 1074)) by (apply Z.pow_pos_nonneg; lia).
  rewrite Z.abs_eq in Hpj, Hov by lia.
  assert (Hp0 : 0 < p) by nia.
  pose proof (digits2_pos_log2 m) as Hd.
  set (d := Zpos (digits2_pos m)) in *.
  assert (Hlog : Z.log2 (Zpos m * 2 ^ (e + 1074)) = e + 1074 + Z.log2 (Zpos m))
    by (apply Z.log2_mul_pow2; lia).
  assert (Hdov : d + e <= 1024).
  { assert (Z.log2 (Z.pos m * 2 ^ (e + 1074)) < 2098)
      by (apply Z.log2_lt_pow2; [nia|exact Hov]). lia. }
  unfold binary_round.
  fold d. set (t := fexp prec emax (d + e)).
  assert (Ht : t = Z.max (d + e - 53) (-1074)) by reflexivity.
  destruct (Z_le_gt_dec t e) as [Hle|Hgt].
  - destruct (shl_align_le m e t Hle) as (m' & -> & Hm').
    assert (Hdm' : Zpos (digits2_pos m') = d + (e - t)).
    { rewrite digits2_pos_log2, Hm', Z.log2_mul_pow2 by lia. lia. }
    rewrite binary_round_aux_noshift.
    2:{ rewrite Hdm'. replace (d + (e - t) + t) with (d + e) by lia. fold t. lia. }
    exists m', t.
    assert (Hb : (t <=? emax - prec) = true) by (apply Z.leb_le; unfold emax, prec; lia).
    rewrite Hb. split; [reflexivity|]. split.
    + unfold bounded, canonical_mantissa. rewrite Hb, Hdm'.
      replace (d + (e - t) + t) with (d + e) by lia. fold t. rewrite Z.eqb_refl. reflexivity.
    + rewrite Hm'. rewrite <- Z.mul_assoc, <- Z.pow_add_r by lia. do 2 f_equal. lia.
  - rewrite shl_align_gt by lia.
    set (n := t - e). assert (Hn : 0 < n) by (unfold n; lia).
    assert (Hdn : d = n + 53) by (unfold n; lia).
    (* the low [n] bits of [m] are zero *)
    assert (Hjn : n + (e + 1074) <= j).
    { assert (H1 : Z.log2 (p * 2 ^ j) = j + Z.log2 p) by (apply Z.log2_mul_pow2; lia).
      assert (H2 : Z.log2 p < 53) by (apply Z.log2_lt_pow2; lia).
      rewrite <- Hpj, Hlog in H1. lia. }
    set (q := p * 2 ^ (j - n - (e + 1074))).
    assert (Hq : Zpos m = q * 2 ^ n).
    { apply (Z.mul_cancel_r _ _ (2 ^ (e + 1074))); [lia|].
      rewrite Hpj. unfold q. rewrite <- !Z.mul_assoc, <- !Z.pow_add_r by lia.
      do 2 f_equal. lia. }
    assert (Hq0 : 0 < q).
    { unfold q. apply Z.mul_pos_pos; [lia|apply Z.pow_pos_nonneg; lia]. }
    destruct q as [|q|q]; try lia.
    rewrite Hq.
    assert (Hdq : Zpos (digits2_pos q) = 53).
    { rewrite digits2_pos_log2.
      assert (Z.log2 (Zpos m) = n + Z.log2 (Zpos q))
        by (rewrite Hq; apply Z.log2_mul_pow2; lia). lia. }
    rewrite binary_round_aux_shift; try assumption.
    2:{ rewrite <- Hq. cbn [Zdigits2]. fold d. fold t. unfold n. lia. }
    replace (e + n) with t by (unfold n; lia).
    assert (Hb : (t <=? emax - prec) = true) by (apply Z.leb_le; unfold emax, prec; lia).
    rewrite Hb. exists q, t. split; [reflexivity|]. split.
    + unfold bounded, canonical_mantissa. rewrite Hb, Hdq.
      unfold fexp, SpecFloat.emin, prec, emax.
      replace (Z.max (53 + t - 53) (3 - 1024 - 53) =? t) with true; [reflexivity|].
      symmetry. apply Z.eqb_eq. lia.
    + rewrite <- Hq. replace (t + 1074) with (n + (e + 1074)) by (unfold n; lia).
      rewrite Hq, Z.pow_add_r by lia. lia.
Qed.

(** ** The sign of a rounded value

    The result of rounding is never NaN, and carries the sign it was
    given. *)

Lemma shr_1_nonneg mrs : 0 <= shr_m mrs -> 0 <= shr_m (shr_1 mrs).
Proof.
  destruct mrs as [m r s]. cbn [shr_m]. intros H.
  destruct m as [|[p|p|]|p]; cbn [shr_1 shr_m]; lia.
Qed.

Lemma shr_fexp_nonneg m e l :
  0 <= m -> 0 <= shr_m (fst (shr_fexp prec emax m e l)).
Proof.
  intros H. unfold shr_fexp, shr.
  assert (H0 : 0 <= shr_m (shr_record_of_loc m l)) by (destruct l as [|[]]; exact H).
  destruct (fexp prec emax (Zdigits2 m + e) - e) as [|n|n]; cbn [fst]; try exact H0.
  rewrite iter_pos_eq.
  apply (Pos.iter_invariant n _ shr_1 (fun r => 0 <= shr_m r)); [|exact H0].
  intros x. apply shr_1_nonneg.
Qed.

Lemma round_nearest_even_nonneg m l : 0 <= m -> 0 <= round_nearest_even m l.
Proof.
  intros H. destruct l as [|[]]; cbn [round_nearest_even]; try lia.
  destruct (Z.even m); lia.
Qed.

Lemma binary_round_aux_signed sx m e l :
  0 <= m -> SFsigned sx (binary_round_aux prec emax sx m e l).
Proof.
  intros H. unfold binary_round_aux.
  pose proof (shr_fexp_nonneg m e l H) as H1.
  destruct (shr_fexp prec emax m e l) as [mrs' e']. cbn [fst] in H1.
  pose proof (shr_fexp_nonneg _ e' loc_Exact
                (round_nearest_even_nonneg _ (loc_of_shr_record mrs') H1)) as H2.
  destruct (shr_fexp prec emax _ e' loc_Exact) as [mrs'' e'']. cbn [fst] in H2.
  destruct (shr_m mrs'') as [|p|p]; try lia.
  - reflexivity.
  - destruct (e'' <=? emax - prec); reflexivity.
Qed.

Lemma binary_round_signed sx m e : SFsigned sx (binary_round prec emax sx m e).
Proof.
  unfold binary_round. destruct (shl_align _ _ _) as [mz ez].
  apply binary_round_aux_signed. lia.
Qed.

Lemma binary_normalize_cases z e :
  match z with
  | Z0 => binary_normalize prec emax z e false = S754_zero false
  | Zpos _ => SFsigned false (binary_normalize prec emax z e false)
  | Zneg _ => SFsigned true (binary_normalize prec emax z e false)
  end.
Proof. destruct z; cbn [binary_normalize]; [reflexivity| |]; apply binary_round_signed. Qed.

Lemma binary_normalize_exact z e :
  -1074 <= e ->
  representable (z * 2 ^ (e + 1074)) ->
  SFfinite (binary_normalize prec emax z e false) = true
  /\ valid_binary (binary_normalize prec emax z e false) = true
  /\ SFval (binary_normalize prec emax z e false) = z * 2 ^ (e + 1074).
Proof.
  intros He Hr. destruct z as [|m|m]; cbn [binary_normalize].
  - repeat split.
  - destruct (binary_round_exact false m e He Hr) as (m' & t & -> & Hb & Hv).
    cbn [SFfinite valid_binary SFval cond_Zopp]. auto.
  - assert (Hr' : representable (Zpos m * 2 ^ (e + 1074))).
    { destruct Hr as (p & j & Hj & Hpj & Hp & Hov). exists p, j.
      assert (0 < 2 ^ (e + 1074)) by (apply Z.pow_pos_nonneg; lia).
      rewrite Z.abs_neq in Hpj, Hov by nia. rewrite Z.abs_eq by nia.
      repeat split; try lia. }
    destruct (binary_round_exact true m e He Hr') as (m' & t & -> & Hb & Hv).
    cbn [SFfinite valid_binary SFval cond_Zopp]. repeat split; try assumption.
    rewrite Hv. lia.
Qed.

(** ** Sums and differences of finite numbers

    [SFadd] and [SFsub] round the exact sum or difference of the values. *)

Lemma cond_Zopp_mul s a b : cond_Zopp s a * b = cond_Zopp s (a * b).
Proof. destruct s; cbn [cond_Zopp]; lia. Qed.

Lemma aligned_val m e ez :
  -1074 <= ez <= e ->
  Zpos (fst (shl_align m e ez)) * 2 ^ (ez + 1074) = Zpos m * 2 ^ (e + 1074).
Proof.
  intros H. destruct (shl_align_le m e ez) as (m' & -> & Hm'); [lia|].
  cbn [fst]. rewrite Hm', <- Z.mul_assoc, <- Z.pow_add_r by lia. do 2 f_equal. lia.
Qed.

Lemma SFadd_finite sx mx ex sy my ey :
  bounded prec emax mx ex = true -> bounded prec emax my ey = true ->
  exists z,
    SFadd prec emax (S754_finite sx mx ex) (S754_finite sy my ey)
    = binary_normalize prec emax z (Z.min ex ey) false
    /\ z * 2 ^ (Z.min ex ey + 1074)
       = SFval (S754_finite sx mx ex) + SFval (S754_finite sy my ey).
Proof.
  intros Vx Vy. apply bounded_inv in Vx, Vy.
  eexists. split; [reflexivity|].
  cbn [SFval]. rewrite Z.mul_add_distr_r, !cond_Zopp_mul, !aligned_val by lia.
  reflexivity.
Qed.

Lemma SFsub_finite sx mx ex sy my ey :
  bounded prec emax mx ex = true -> bounded prec emax my ey = true ->
  exists z,
    SFsub prec emax (S754_finite sx mx ex) (S754_finite sy my ey)
    = binary_normalize prec emax z (Z.min ex ey) false
    /\ z * 2 ^ (Z.min ex ey + 1074)
       = SFval (S754_finite sx mx ex) - SFval (S754_finite sy my ey).
Proof.
  intros Vx Vy. apply bounded_inv in Vx, Vy.
  eexists. split; [reflexivity|].
  cbn [SFval]. rewrite Z.mul_sub_distr_r, !cond_Zopp_mul, !aligned_val by lia.
  reflexivity.
Qed.

Lemma min_exp_ge mx ex my ey :
  bounded prec emax mx ex = true -> bounded prec emax my ey = true ->
  -1074 <= Z.min ex ey.
Proof. intros Vx Vy. apply bounded_inv in Vx, Vy. lia. Qed.

(** A sum that is a binary64 number is computed exactly. *)
Lemma SFadd_exact x y :
  valid_binary x = true -> valid_binary y = true ->
  SFfinite x = true -> SFfinite y = true ->
  representable (SFval x + SFval y) ->
  SFfinite (SFadd prec emax x y) = true
  /\ valid_binary (SFadd prec emax x y) = true
  /\ SFval (SFadd prec emax x y) = SFval x + SFval y.
Proof.
  destruct x as [sx| | |sx mx ex], y as [sy| | |sy my ey]; try discriminate;
    intros Vx Vy _ _ Hr.
  - destruct sx, sy; repeat split.
  - cbn [SFadd]. repeat split; assumption.
  - cbn [SFadd]. repeat split; try assumption. cbn [SFval]. lia.
  - cbn [valid_binary] in Vx, Vy.
    destruct (SFadd_finite sx mx ex sy my ey Vx Vy) as (z & -> & Hz).
    rewrite <- Hz in *. apply binary_normalize_exact; [|exact Hr].
    eapply min_exp_ge; eassumption.
Qed.

(** So is a difference. *)
Lemma SFsub_exact x y :
  valid_binary x = true -> valid_binary y = true ->
  SFfinite x = true -> SFfinite y = true ->
  representable (SFval x - SFval y) ->
  SFfinite (SFsub prec emax x y) = true
  /\ valid_binary (SFsub prec emax x y) = true
  /\ SFval (SFsub prec emax x y) = SFval x - SFval y.
Proof.
  destruct x as [sx| | |sx mx ex], y as [sy| | |sy my ey]; try discriminate;
    intros Vx Vy _ _ Hr.
  - destruct sx, sy; repeat split.
  - cbn [SFsub]. repeat split; try assumption.
    cbn [SFval]. destruct sy; cbn [negb cond_Zopp]; lia.
  - cbn [SFsub]. repeat split; try assumption. cbn [SFval]. lia.
  - cbn [valid_binary] in Vx, Vy.
    destruct (SFsub_finite sx mx ex sy my ey Vx Vy) as (z & -> & Hz).
    rewrite <- Hz in *. apply binary_normalize_exact; [|exact Hr].
    eapply min_exp_ge; eassumption.
Qed.

Lemma binary_normalize_neg z e :
  -1074 <= e -> z * 2 ^ (e + 1074) < 0 ->
  SFsigned true (binary_normalize prec emax z e false).
Proof.
  intros He Hz. assert (0 < 2 ^ (e + 1074)) by (apply Z.pow_pos_nonneg; lia).
  pose proof (binary_normalize_cases z e) as H1.
  destruct z as [|p|p]; [rewrite Z.mul_0_l in Hz; lia| |exact H1].
  pose proof (Z.mul_pos_pos (Zpos p) (2 ^ (e + 1074))). lia.
Qed.

(** A sum whose exact value is negative comes out with the sign bit set. *)
Lemma SFadd_neg x y :
  valid_binary x = true -> valid_binary y = true ->
  SFfinite x = true -> SFfinite y = true ->
  SFval x + SFval y < 0 ->
  SFsigned true (SFadd prec emax x y).
Proof.
  destruct x as [sx| | |sx mx ex], y as [sy| | |sy my ey]; try discriminate;
    intros Vx Vy _ _ Hr.
  - cbn [SFadd SFsigned]. cbn [SFval] in Hr. destruct sy; [reflexivity|].
    cbn [cond_Zopp] in Hr. apply bounded_inv in Vy.
    assert (0 < 2 ^ (ey + 1074)) by (apply Z.pow_pos_nonneg; lia). nia.
  - cbn [SFadd SFsigned]. cbn [SFval] in Hr. destruct sx; [reflexivity|].
    cbn [cond_Zopp] in Hr. apply bounded_inv in Vx.
    assert (0 < 2 ^ (ex + 1074)) by (apply Z.pow_pos_nonneg; lia). nia.
  - cbn [valid_binary] in Vx, Vy.
    destruct (SFadd_finite sx mx ex sy my ey Vx Vy) as (z & -> & Hz).
    rewrite <- Hz in Hr. apply binary_normalize_neg; [|exact Hr].
    eapply min_exp_ge; eassumption.
Qed.

Lemma SFsigned_not_nan s r : SFsigned s r -> SFnan r = false.
Proof. destruct r; cbn; tauto. Qed.

Lemma binary_normalize_not_nan z e szero :
  SFnan (binary_normalize prec emax z e szero) = false.
Proof.
  destruct z; cbn [binary_normalize]; [reflexivity| |];
    eapply SFsigned_not_nan, binary_round_signed.
Qed.

Lemma SFsub_not_nan x y :
  SFnan x = false -> SFfinite y = true -> SFnan (SFsub prec emax x y) = false.
Proof.
  destruct x as [sx|sx| |sx mx ex], y as [sy| | |sy my ey]; try discriminate;
    intros _ _; try reflexivity.
  - destruct sx, sy; reflexivity.
  - cbn [SFsub]. apply binary_normalize_not_nan.
Qed.

Lemma SFadd_not_nan x y :
  SFnan x = false -> SFfinite y = true -> SFnan (SFadd prec emax x y) = false.
Proof.
  destruct x as [sx|sx| |sx mx ex], y as [sy| | |sy my ey]; try discriminate;
    intros _ _; try reflexivity.
  - destruct sx, sy; reflexivity.
  - cbn [SFadd]. apply binary_normalize_not_nan.
Qed.

(** ** Comparison *)

Lemma SFcompare_antisym x y :
  SFcompare y x = option_map CompOpp (SFcompare x y).
Proof.
  destruct x as [sx|sx| |sx mx ex], y as [sy|sy| |sy my ey]; cbn [SFcompare option_map];
    try reflexivity;
    try (destruct sx; reflexivity); try (destruct sy; reflexivity);
    try (destruct sx, sy; reflexivity).
  f_equal. change (Pos.compare_cont Eq mx my) with (Pos.compare mx my).
    change (Pos.compare_cont Eq my mx) with (Pos.compare my mx).
    rewrite (Z.compare_antisym ex ey), (Pos.compare_antisym mx my).
    destruct sx, sy; try reflexivity; destruct (ex ?= ey); cbn [CompOpp]; try reflexivity.
Qed.

Lemma SFcompare_refl x : SFnan x = false -> SFcompare x x = Some Eq.
Proof.
  destruct x as [s|s| |s m e]; try discriminate; intros _; cbn [SFcompare].
  - reflexivity.
  - destruct s; reflexivity.
  - change (Pos.compare_cont Eq m m) with (Pos.compare m m).
    rewrite Z.compare_refl, Pos.compare_refl. destruct s; reflexivity.
Qed.

Lemma SFcompare_nan x y :
  SFcompare x y = None <-> SFnan x = true \/ SFnan y = true.
Proof.
  destruct x as [sx|sx| |sx mx ex], y as [sy|sy| |sy my ey]; cbn [SFcompare SFnan];
    split; intros H; try discriminate; try tauto; try (destruct H; discriminate).
  all: destruct sx; discriminate.
Qed.

(** ** The primitive operations

    The same facts for [float], through the specification of its
    operations ([FloatAxioms]). *)

Local Open Scope float_scope.

Lemma is_nan_spec x : is_nan x = SFnan (Prim2SF x).
Proof.
  unfold is_nan. rewrite eqb_spec. unfold SFeqb.
  destruct (SFnan (Prim2SF x)) eqn:E.
  - destruct (Prim2SF x); try discriminate. reflexivity.
  - rewrite SFcompare_refl by exact E. reflexivity.
Qed.

Lemma is_finite_spec x : is_finite x = SFfinite (Prim2SF x).
Proof.
  unfold is_finite. rewrite is_nan_spec. unfold is_infinity.
  rewrite eqb_spec, abs_spec. change (Prim2SF infinity) with (S754_infinity false).
  destruct (Prim2SF x) as [s|s| |s m e]; reflexivity.
Qed.

Lemma finite_not_nan x : is_finite x = true -> is_nan x = false.
Proof.
  rewrite is_finite_spec, is_nan_spec. destruct (Prim2SF x); cbn; congruence.
Qed.

Lemma compare_fval x y :
  is_nan x = false -> is_nan y = false ->
  SFcompare (Prim2SF x) (Prim2SF y) = Some (fval x ?= fval y)%Z.
Proof.
  rewrite !is_nan_spec. intros Hx Hy.
  apply SFcompare_val; auto using Prim2SF_valid.
Qed.

Lemma ltb_fval x y :
  is_nan x = false -> is_nan y = false -> (x <? y) = (fval x <? fval y)%Z.
Proof.
  intros Hx Hy. rewrite ltb_spec. unfold SFltb. rewrite compare_fval by assumption.
  unfold Z.ltb. reflexivity.
Qed.

Lemma leb_fval x y :
  is_nan x = false -> is_nan y = false -> (x <=? y) = (fval x <=? fval y)%Z.
Proof.
  intros Hx Hy. rewrite leb_spec. unfold SFleb. rewrite compare_fval by assumption.
  unfold Z.leb. destruct (fval x ?= fval y)%Z; reflexivity.
Qed.

Lemma add_exact x y :
  is_finite x = true -> is_finite y = true ->
  representable (fval x + fval y) ->
  is_finite (x + y) = true /\ fval (x + y) = (fval x + fval y)%Z.
Proof.
  rewrite !is_finite_spec. unfold fval. rewrite add_spec. intros Hx Hy Hr.
  destruct (SFadd_exact (Prim2SF x) (Prim2SF y)) as (H1 & _ & H2);
    auto using Prim2SF_valid.
Qed.

Lemma sub_exact x y :
  is_finite x = true -> is_finite y = true ->
  representable (fval x - fval y) ->
  is_finite (x - y) = true /\ fval (x - y) = (fval x - fval y)%Z.
Proof.
  rewrite !is_finite_spec. unfold fval. rewrite sub_spec. intros Hx Hy Hr.
  destruct (SFsub_exact (Prim2SF x) (Prim2SF y)) as (H1 & _ & H2);
    auto using Prim2SF_valid.
Qed.

Lemma ltb_false_leb x y :
  is_nan x = false -> is_nan y = false -> (x <? y) = false -> (y <=? x) = true.
Proof.
  rewrite !is_nan_spec, ltb_spec, leb_spec. unfold SFltb, SFleb.
  intros Hx Hy. rewrite (SFcompare_antisym (Prim2SF x) (Prim2SF y)).
  destruct (SFcompare (Prim2SF x) (Prim2SF y)) as [[]|] eqn:E; cbn; try congruence.
  apply SFcompare_nan in E. destruct E; congruence.
Qed.

Lemma leb_not_nan x y : (x <=? y) = true -> is_nan x = false /\ is_nan y = false.
Proof.
  rewrite !is_nan_spec, leb_spec. unfold SFleb.
  destruct (Prim2SF x), (Prim2SF y); cbn; intros H; try discriminate; auto.
Qed.

Lemma ltb_not_nan x y : (x <? y) = true -> is_nan x = false /\ is_nan y = false.
Proof.
  rewrite !is_nan_spec, ltb_spec. unfold SFltb.
  destruct (Prim2SF x), (Prim2SF y); cbn; intros H; try discriminate; auto.
Qed.

Lemma sub_not_nan x y :
  is_nan x = false -> is_finite y = true -> is_nan (x - y) = false.
Proof.
  rewrite !is_nan_spec, is_finite_spec, sub_spec. apply SFsub_not_nan.
Qed.

Lemma add_not_nan x y :
  is_nan x = false -> is_finite y = true -> is_nan (x + y) = false.
Proof.
  rewrite !is_nan_spec, is_finite_spec, add_spec. apply SFadd_not_nan.
Qed.

Lemma between_finite lo a hi :
  is_finite lo = true -> is_finite hi = true ->
  (lo <=? a) = true -> (a <=? hi) = true -> is_finite a = true.
Proof.
  rewrite !is_finite_spec, !leb_spec. unfold SFleb.
  destruct (Prim2SF lo) as [?|?| |? ? ?], (Prim2SF hi) as [?|?| |? ? ?];
    try discriminate; intros _ _;
    destruct (Prim2SF a) as [?|[]| |? ? ?]; cbn; congruence.
Qed.

(** A finite number of magnitude [2^(52+j)] or more, in units of
    [2^-1074], is a multiple of [2^j]. *)
Lemma grid x j :
  (0 <= j)%Z -> is_finite x = true -> (2 ^ (52 + j) <= Z.abs (fval x))%Z ->
  exists k, fval x = (k * 2 ^ j)%Z.
Proof.
  rewrite is_finite_spec. unfold fval. intros Hj Hx.
  pose proof (Prim2SF_valid x) as Hv.
  destruct (Prim2SF x) as [s| | |s m e]; try discriminate; cbn [SFval].
  - intros _. exists 0%Z. reflexivity.
  - cbn [valid_binary] in Hv. apply bounded_inv in Hv. destruct Hv as (He & Hm & _).
    intros H.
    assert (HE : (0 < 2 ^ (e + 1074))%Z) by (apply Z.pow_pos_nonneg; lia).
    assert (Habs : Z.abs (cond_Zopp s (Z.pos m * 2 ^ (e + 1074))) = (Z.pos m * 2 ^ (e + 1074))%Z)
      by (destruct s; cbn [cond_Zopp]; lia).
    rewrite Habs in H.
    assert (Hje : (j <= e + 1074)%Z).
    { destruct (Z_le_gt_dec j (e + 1074)) as [|Hgt]; [assumption|exfalso].
      assert ((2 ^ (e + 1074) <= 2 ^ (j - 1))%Z) by (apply Z.pow_le_mono_r; lia).
      assert ((2 ^ (52 + j) = 2 ^ 53 * 2 ^ (j - 1))%Z)
        by (rewrite <- Z.pow_add_r by lia; f_equal; lia).
      nia. }
    exists (cond_Zopp s (Z.pos m * 2 ^ (e + 1074 - j))).
    rewrite cond_Zopp_mul, <- Z.mul_assoc, <- Z.pow_add_r by lia.
    do 3 f_equal. lia.
Qed.

Local Open Scope Z_scope.

(** ** Rounding in general

    The result is within one unit in the last place of the exact value:
    the relative error is at most [2^-52]. *)

Lemma shr_1_half mrs : 0 <= shr_m mrs -> shr_m (shr_1 mrs) = shr_m mrs / 2.
Proof.
  destruct mrs as [m r s]. cbn [shr_m]. intros H. rewrite <- Z.div2_div.
  destruct m as [|[p|p|]|p]; try reflexivity. lia.
Qed.

Lemma iter_shr_1_div n mrs :
  0 <= shr_m mrs -> shr_m (iter_pos shr_1 n mrs) = shr_m mrs / 2 ^ Zpos n.
Proof.
  intros H. rewrite iter_pos_eq.
  induction n as [|n IH] using Pos.peano_ind.
  - cbn [Pos.iter]. rewrite shr_1_half by exact H. reflexivity.
  - rewrite Pos.iter_succ, shr_1_half, IH.
    + rewrite Pos2Z.inj_succ, Z.pow_succ_r by lia.
      rewrite Z.div_div by (try apply Z.pow_pos_nonneg; lia).
      f_equal. lia.
    + apply (Pos.iter_invariant n _ shr_1 (fun r => 0 <= shr_m r)); [|exact H].
      intros x. apply shr_1_nonneg.
Qed.

Lemma round_nearest_even_cases m l :
  round_nearest_even m l = m \/ round_nearest_even m l = m + 1.
Proof.
  destruct l as [|[]]; cbn [round_nearest_even]; auto.
  destruct (Z.even m); auto.
Qed.

Lemma digits_unique m d : 2 ^ (d - 1) <= Zpos m < 2 ^ d -> Zpos (digits2_pos m) = d.
Proof.
  intros H. rewrite digits2_pos_log2.
  assert (0 < d).
  { destruct (Z_lt_le_dec 0 d); [assumption|].
    rewrite (Z.pow_neg_r 2 (d - 1)) in H by lia.
    assert (2 ^ d <= 2 ^ 0) by (apply Z.pow_le_mono_r; lia). change (2 ^ 0) with 1 in *. lia. }
  rewrite (Z.log2_unique (Zpos m) (d - 1)); [lia|lia|].
  replace (Z.succ (d - 1)) with d by lia. exact H.
Qed.

(** A significand of more than 53 digits: the digits beyond the 53rd are
    shifted out, and the rest is kept or incremented. *)
Lemma binary_round_aux_inexact sx m e :
  -1074 <= e ->
  53 < Zpos (digits2_pos m) ->
  Zpos (digits2_pos m) + e <= 1023 ->
  exists m' t,
    binary_round_aux prec emax sx (Zpos m) e loc_Exact = S754_finite sx m' t
    /\ bounded prec emax m' t = true
    /\ Z.abs (Zpos m' * 2 ^ (t + 1074) - Zpos m * 2 ^ (e + 1074))
       <= 2 ^ (Zpos (digits2_pos m) - 53 + e + 1074).
Proof.
  intros He Hd Hov.
  pose proof (digits_bounds m) as Hm.
  set (d := Zpos (digits2_pos m)) in *.
  set (n := d - 53). assert (Hn : 0 < n) by (unfold n; lia).
  assert (Hfexp : fexp prec emax (d + e) = e + n)
    by (unfold fexp, SpecFloat.emin, prec, emax, n; lia).
  unfold binary_round_aux.
  unfold shr_fexp at 1. cbn [Zdigits2]. fold d. rewrite Hfexp.
  replace (e + n - e) with n by lia.
  destruct n as [|np|np] eqn:En; try lia. rewrite <- En in *.
  unfold shr at 1. cbn [shr_record_of_loc]. rewrite En.
  set (mrs := iter_pos shr_1 np _).
  assert (Hq : shr_m mrs = Zpos m / 2 ^ n).
  { unfold mrs. rewrite iter_shr_1_div by (cbn; lia). rewrite En. reflexivity. }
  set (q := shr_m mrs) in *.
  assert (Hpn : 0 < 2 ^ n) by (apply Z.pow_pos_nonneg; lia).
  assert (Hsplit : 2 ^ (d - 1) = 2 ^ 52 * 2 ^ n /\ 2 ^ d = 2 ^ 53 * 2 ^ n).
  { split; rewrite <- Z.pow_add_r by lia; f_equal; lia. }
  destruct Hsplit as [Hs1 Hs2]. rewrite Hs1, Hs2 in Hm.
  assert (Hqb : 2 ^ 52 <= q < 2 ^ 53).
  { rewrite Hq. split.
    - apply Z.div_le_lower_bound; lia.
    - apply Z.div_lt_upper_bound; lia. }
  assert (Hqm : q * 2 ^ n <= Zpos m < (q + 1) * 2 ^ n).
  { rewrite Hq. pose proof (Z.mul_div_le (Zpos m) (2 ^ n) Hpn).
    pose proof (Z.mul_succ_div_gt (Zpos m) (2 ^ n) Hpn). lia. }
  set (q' := round_nearest_even q (loc_of_shr_record mrs)).
  assert (Hq' : q' = q \/ q' = q + 1) by apply round_nearest_even_cases.
  assert (HE : 0 < 2 ^ (e + 1074)) by (apply Z.pow_pos_nonneg; lia).
  assert (Hpow : 2 ^ (e + Z.pos np + 1074) = 2 ^ n * 2 ^ (e + 1074)).
  { rewrite <- En, <- Z.pow_add_r by lia. f_equal. lia. }
  assert (Hgoal : 2 ^ (Z.pos np + e + 1074) = 2 ^ n * 2 ^ (e + 1074)).
  { rewrite <- Hpow. f_equal. lia. }
  rewrite Hgoal.
  destruct (Z_lt_ge_dec q' (2 ^ 53)) as [Hlt|Hge].
  - (* no carry *)
    assert (Hq'pos : 0 < q') by lia.
    destruct q' as [|p'|p'] eqn:Ep'; try lia.
    assert (Hdp : Zpos (digits2_pos p') = 53) by (apply digits_unique; lia).
    rewrite shr_fexp_noshift.
    2:{ cbn [Zdigits2]. rewrite Hdp. unfold fexp, SpecFloat.emin, prec, emax. lia. }
    cbn [shr_m].
    assert (Hb : (e + Zpos np <=? emax - prec) = true)
      by (apply Z.leb_le; unfold emax, prec; lia).
    rewrite Hb. exists p', (e + Zpos np). split; [reflexivity|]. split.
    + unfold bounded, canonical_mantissa. rewrite Hb, Hdp.
      unfold fexp, SpecFloat.emin, prec, emax.
      replace (Z.max (53 + (e + Z.pos np) - 53) (3 - 1024 - 53) =? e + Z.pos np) with true;
        [reflexivity|]. symmetry. apply Z.eqb_eq. lia.
    + rewrite Hpow. rewrite Z.mul_assoc, <- Z.mul_sub_distr_r.
      rewrite Z.abs_mul, (Z.abs_eq (2 ^ (e + 1074))) by lia.
      apply Z.mul_le_mono_nonneg_r; [lia|]. nia.
  - (* the carry reaches a new binade *)
    assert (Hq2 : q' = 2 ^ 53) by lia.
    rewrite Hq2. change (2 ^ 53) with (Zpos 4503599627370496 * 2 ^ 1).
    rewrite shr_fexp_shift; [|lia|].
    2:{ change (Zdigits2 (Z.pos 4503599627370496 * 2 ^ 1)) with 54.
        unfold fexp, SpecFloat.emin, prec, emax. lia. }
    cbn [shr_m].
    assert (Hb : (e + Zpos np + 1 <=? emax - prec) = true)
      by (apply Z.leb_le; unfold emax, prec; lia).
    rewrite Hb. exists 4503599627370496%positive, (e + Zpos np + 1). split; [reflexivity|]. split.
    + unfold bounded, canonical_mantissa. rewrite Hb.
      change (Zpos (digits2_pos 4503599627370496)) with 53.
      unfold fexp, SpecFloat.emin, prec, emax.
      replace (Z.max (53 + (e + Z.pos np + 1) - 53) (3 - 1024 - 53) =? e + Z.pos np + 1) with true;
        [reflexivity|]. symmetry. apply Z.eqb_eq. lia.
    + replace (e + Z.pos np + 1 + 1074) with (Z.succ (e + Z.pos np + 1074)) by lia.
      rewrite Z.pow_succ_r, Hpow by lia.
      replace (Z.pos 4503599627370496 * (2 * (2 ^ n * 2 ^ (e + 1074))) - Z.pos m * 2 ^ (e + 1074))
        with ((2 ^ 53 * 2 ^ n - Zpos m) * 2 ^ (e + 1074)).
      2:{ change (2 ^ 53) with (Zpos 4503599627370496 * 2). ring. }
      rewrite Z.abs_mul, (Z.abs_eq (2 ^ (e + 1074))) by lia.
      apply Z.mul_le_mono_nonneg_r; [lia|]. nia.
Qed.

Lemma binary_round_error sx m e :
  -1074 <= e ->
  Zpos m * 2 ^ (e + 1074) < 2 ^ 2097 ->
  exists m' t,
    binary_round prec emax sx m e = S754_finite sx m' t
    /\ bounded prec emax m' t = true
    /\ 2 ^ 52 * Z.abs (Zpos m' * 2 ^ (t + 1074) - Zpos m * 2 ^ (e + 1074))
       <= Zpos m * 2 ^ (e + 1074).
Proof.
  intros He Hov.
  assert (HE : 0 < 2 ^ (e + 1074)) by (apply Z.pow_pos_nonneg; lia).
  pose proof (digits_bounds m) as Hm.
  destruct (Z_le_gt_dec (Zpos (digits2_pos m)) 53) as [Hd|Hd].
  - destruct (binary_round_exact sx m e He) as (m' & t & H1 & H2 & H3).
    { exists (Zpos m), (e + 1074). rewrite Z.abs_eq by lia.
      repeat split; try lia.
      eapply Z.lt_le_trans; [apply Hm|]. apply Z.pow_le_mono_r; lia. }
    exists m', t. rewrite H3, Z.sub_diag. cbn [Z.abs]. repeat split; try assumption. lia.
  - set (d := Zpos (digits2_pos m)) in *.
    assert (Hlow : 2 ^ (d - 1 + (e + 1074)) <= Zpos m * 2 ^ (e + 1074)).
    { rewrite Z.pow_add_r by lia. apply Z.mul_le_mono_nonneg_r; lia. }
    assert (Hde : d + e <= 1023).
    { destruct (Z_le_gt_dec (d + e) 1023); [assumption|exfalso].
      assert (2 ^ 2097 <= 2 ^ (d - 1 + (e + 1074))) by (apply Z.pow_le_mono_r; lia). lia. }
    unfold binary_round. fold d.
    rewrite shl_align_gt by (unfold fexp, SpecFloat.emin, prec, emax; lia).
    destruct (binary_round_aux_inexact sx m e He (Z.gt_lt _ _ Hd) Hde)
      as (m' & t & H1 & H2 & H3).
    exists m', t. repeat split; try assumption.
    fold d in H3.
    assert (2 ^ (d - 1 + (e + 1074)) = 2 ^ 52 * 2 ^ (d - 53 + e + 1074))
      by (rewrite <- Z.pow_add_r by lia; f_equal; lia).
    assert (0 < 2 ^ 52) by reflexivity. nia.
Qed.

Lemma binary_normalize_error z e :
  -1074 <= e ->
  Z.abs (z * 2 ^ (e + 1074)) < 2 ^ 2097 ->
  SFfinite (binary_normalize prec emax z e false) = true
  /\ valid_binary (binary_normalize prec emax z e false) = true
  /\ 2 ^ 52 * Z.abs (SFval (binary_normalize prec emax z e false) - z * 2 ^ (e + 1074))
     <= Z.abs (z * 2 ^ (e + 1074)).
Proof.
  intros He Hov.
  assert (HE : 0 < 2 ^ (e + 1074)) by (apply Z.pow_pos_nonneg; lia).
  destruct z as [|m|m]; cbn [binary_normalize].
  - cbn. repeat split; lia.
  - assert (Hp : 0 <= Zpos m * 2 ^ (e + 1074)) by (apply Z.mul_nonneg_nonneg; lia).
    rewrite (Z.abs_eq (Zpos m * 2 ^ (e + 1074))) in Hov |- * by exact Hp.
    destruct (binary_round_error false m e He Hov) as (m' & t & -> & H2 & H3).
    cbn [SFfinite valid_binary SFval cond_Zopp]. auto.
  - assert (Habs : Z.abs (Z.neg m * 2 ^ (e + 1074)) = Zpos m * 2 ^ (e + 1074)).
    { change (Z.neg m) with (- Zpos m).
      rewrite Z.mul_opp_l, Z.abs_opp, Z.abs_eq by (apply Z.mul_nonneg_nonneg; lia).
      reflexivity. }
    rewrite Habs in *.
    destruct (binary_round_error true m e He Hov) as (m' & t & -> & H2 & H3).
    cbn [SFfinite valid_binary SFval cond_Zopp]. repeat split; try assumption.
    replace (- (Z.pos m' * 2 ^ (t + 1074)) - Z.neg m * 2 ^ (e + 1074))
      with (- (Z.pos m' * 2 ^ (t + 1074) - Z.pos m * 2 ^ (e + 1074)))
      by (change (Z.neg m) with (- Zpos m); ring).
    rewrite Z.abs_opp. exact H3.
Qed.

Lemma SFadd_error x y :
  valid_binary x = true -> valid_binary y = true ->
  SFfinite x = true -> SFfinite y = true ->
  Z.abs (SFval x + SFval y) < 2 ^ 2097 ->
  SFfinite (SFadd prec emax x y) = true
  /\ valid_binary (SFadd prec emax x y) = true
  /\ 2 ^ 52 * Z.abs (SFval (SFadd prec emax x y) - (SFval x + SFval y))
     <= Z.abs (SFval x + SFval y).
Proof.
  destruct x as [sx| | |sx mx ex], y as [sy| | |sy my ey]; try discriminate;
    intros Vx Vy _ _ Hr.
  - destruct sx, sy; cbn; repeat split; lia.
  - cbn [SFadd]. repeat split; try assumption.
    replace (SFval (S754_zero sx)) with 0 by reflexivity. rewrite Z.add_0_l, Z.sub_diag.
    cbn [Z.abs]. lia.
  - cbn [SFadd]. repeat split; try assumption.
    replace (SFval (S754_zero sy)) with 0 by reflexivity. rewrite Z.add_0_r, Z.sub_diag.
    cbn [Z.abs]. lia.
  - cbn [valid_binary] in Vx, Vy.
    destruct (SFadd_finite sx mx ex sy my ey Vx Vy) as (z & -> & Hz).
    rewrite <- Hz in *. apply binary_normalize_error; [|exact Hr].
    eapply min_exp_ge; eassumption.
Qed.

Lemma add_error (x y : float) :
  is_finite x = true -> is_finite y = true ->
  Z.abs (fval x + fval y) < 2 ^ 2097 ->
  is_finite (x + y)%float = true
  /\ 2 ^ 52 * Z.abs (fval (x + y)%float - (fval x + fval y)) <= Z.abs (fval x + fval y).
Proof.
  rewrite !is_finite_spec. unfold fval. rewrite add_spec. intros Hx Hy Hr.
  destruct (SFadd_error (Prim2SF x) (Prim2SF y)) as (H1 & _ & H2);
    auto using Prim2SF_valid.
Qed.

Lemma SFsub_error x y :
  valid_binary x = true -> valid_binary y = true ->
  SFfinite x = true -> SFfinite y = true ->
  Z.abs (SFval x - SFval y) < 2 ^ 2097 ->
  SFfinite (SFsub prec emax x y) = true
  /\ valid_binary (SFsub prec emax x y) = true
  /\ 2 ^ 52 * Z.abs (SFval (SFsub prec emax x y) - (SFval x - SFval y))
     <= Z.abs (SFval x - SFval y).
Proof.
  destruct x as [sx| | |sx mx ex], y as [sy| | |sy my ey]; try discriminate;
    intros Vx Vy _ _ Hr.
  - destruct sx, sy; cbn; repeat split; lia.
  - cbn [SFsub]. split; [reflexivity|]. split; [exact Vy|].
    replace (SFval (S754_finite (negb sy) my ey)) with (- SFval (S754_finite sy my ey))
      by (cbn [SFval]; destruct sy; cbn [negb cond_Zopp]; lia).
    replace (SFval (S754_zero sx)) with 0 by reflexivity. lia.
  - cbn [SFsub]. repeat split; try assumption.
    replace (SFval (S754_zero sy)) with 0 by reflexivity. lia.
  - cbn [valid_binary] in Vx, Vy.
    destruct (SFsub_finite sx mx ex sy my ey Vx Vy) as (z & -> & Hz).
    rewrite <- Hz in *. apply binary_normalize_error; [|exact Hr].
    eapply min_exp_ge; eassumption.
Qed.

Lemma sub_error (x y : float) :
  is_finite x = true -> is_finite y = true ->
  Z.abs (fval x - fval y) < 2 ^ 2097 ->
  is_finite (x - y)%float = true
  /\ 2 ^ 52 * Z.abs (fval (x - y)%float - (fval x - fval y)) <= Z.abs (fval x - fval y).
Proof.
  rewrite !is_finite_spec. unfold fval. rewrite sub_spec. intros Hx Hy Hr.
  destruct (SFsub_error (Prim2SF x) (Prim2SF y)) as (H1 & _ & H2);
    auto using Prim2SF_valid.
Qed.

(** ** Special cases *)

(** [x - x] is [+0]. *)
Lemma SFsub_diag x :
  valid_binary x = true -> SFfinite x = true -> SFsub prec emax x x = S754_zero false.
Proof.
  destruct x as [s| | |s m e]; try discriminate; intros V _.
  - destruct s; reflexivity.
  - cbn [valid_binary] in V.
    destruct (SFsub_finite s m e s m e V V) as (z & -> & Hz).
    rewrite Z.sub_diag in Hz. apply bounded_inv in V.
    assert (0 < 2 ^ (Z.min e e + 1074)) by (apply Z.pow_pos_nonneg; lia).
    assert (z = 0) by nia. subst z. reflexivity.
Qed.

Lemma sub_diag (x : float) : is_finite x = true -> (x - x)%float = 0%float.
Proof.
  rewrite is_finite_spec. intros H. apply Prim2SF_inj. rewrite sub_spec.
  apply SFsub_diag; auto using Prim2SF_valid.
Qed.

(** The numbers that compare equal to zero. *)
Lemma eqb_zero_cases (x : float) :
  (x =? 0)%float = true -> x = 0%float \/ x = (-0)%float.
Proof.
  rewrite eqb_spec. change (Prim2SF 0) with (S754_zero false).
  intros H. rewrite <- (SF2Prim_Prim2SF x).
  destruct (Prim2SF x) as [[]|[]| |[] m e]; try discriminate; cbn [SF2Prim]; auto.
Qed.

(** A finite number other than zero is determined by its value. *)
Lemma SFval_inj x y :
  valid_binary x = true -> valid_binary y = true ->
  SFfinite x = true -> SFfinite y = true ->
  SFval x = SFval y -> SFval x <> 0 -> x = y.
Proof.
  destruct x as [sx| | |sx mx ex], y as [sy| | |sy my ey]; try discriminate;
    cbn [SFval valid_binary]; intros Vx Vy _ _ Heq Hne; try congruence.
  pose proof (finite_val_bound _ _ Vx) as Bx. pose proof (finite_val_bound _ _ Vy) as By.
    assert (Hs : sx = sy) by (destruct sx, sy; cbn [cond_Zopp] in Heq; try reflexivity; lia).
    subst sy.
    assert (Hm : Z.pos mx * 2 ^ (ex + 1074) = Z.pos my * 2 ^ (ey + 1074))
      by (destruct sx; cbn [cond_Zopp] in Heq; lia).
    apply Z.compare_eq_iff in Hm. rewrite (mant_exp_compare _ _ _ _ Vx Vy) in Hm.
    destruct (Z.compare_spec ex ey) as [->|?|?]; try discriminate.
    change (Pos.compare_cont Eq mx my) with (Pos.compare mx my) in Hm.
    apply Pos.compare_eq in Hm. now subst.
Qed.

Lemma fval_inj (x y : float) :
  is_finite x = true -> is_finite y = true ->
  fval x = fval y -> fval x <> 0 -> x = y.
Proof.
  rewrite !is_finite_spec. intros Hx Hy Heq Hne. apply Prim2SF_inj.
  apply SFval_inj; auto using Prim2SF_valid.
Qed.

(** Multiplying a normal number by 4 is exact, short of overflow. *)
Lemma mul_4_exact (v : float) :
  is_finite v = true ->
  2 ^ 52 <= Z.abs (fval v) < 2 ^ 2096 ->
  is_finite (4 * v)%float = true /\ fval (4 * v)%float = 4 * fval v.
Proof.
  rewrite !is_finite_spec. unfold fval. rewrite mul_spec.
  change (Prim2SF 4) with (S754_finite false 4503599627370496 (-50)).
  pose proof (Prim2SF_valid v) as V.
  destruct (Prim2SF v) as [s| | |s m e]; try discriminate; intros _.
  - cbn [SFval Z.abs]. lia.
  - cbn [valid_binary] in V. pose proof (finite_val_bound _ _ V) as B.
    apply bounded_inv in V. destruct V as (He & Hm & Hn).
    cbn [SFval]. intros Hv.
    assert (Habs : Z.abs (cond_Zopp s (Z.pos m * 2 ^ (e + 1074))) = Z.pos m * 2 ^ (e + 1074))
      by (destruct s; cbn [cond_Zopp]; lia).
    rewrite Habs in Hv.
    assert (HE : 0 < 2 ^ (e + 1074)) by (apply Z.pow_pos_nonneg; lia).
    assert (Hm52 : 2 ^ 52 <= Zpos m).
    { destruct Hn as [->|]; [|assumption]. change (2 ^ (-1074 + 1074)) with 1 in Hv. lia. }
    assert (He2 : e + 2 <= 971).
    { destruct (Z_le_gt_dec (e + 2) 971); [assumption|exfalso].
      assert (2 ^ 2044 <= 2 ^ (e + 1074)) by (apply Z.pow_le_mono_r; lia).
      change (2 ^ 2096) with (2 ^ 52 * 2 ^ 2044) in Hv. nia. }
    unfold SF64mul, SFmul. cbn [xorb].
    replace (Z.pos (4503599627370496 * m)) with (Zpos m * 2 ^ 52)
      by (rewrite Pos2Z.inj_mul; change (2 ^ 52) with 4503599627370496; lia).
    assert (Hlog : Z.log2 (Zpos m) = 52)
      by (apply Z.log2_unique; [lia|]; change (2 ^ Z.succ 52) with (2 ^ 53); lia).
    rewrite binary_round_aux_shift.
    2: lia.
    2:{ rewrite Zdigits2_log2, Z.log2_mul_pow2, Hlog by lia.
        unfold fexp, SpecFloat.emin, prec, emax. lia. }
    replace (-50 + e + 52) with (e + 2) by lia.
    assert (Hb : (e + 2 <=? emax - prec) = true) by (apply Z.leb_le; unfold emax, prec; lia).
    rewrite Hb. cbn [SFfinite SFval]. split; [reflexivity|].
    replace (e + 2 + 1074) with (2 + (e + 1074)) by lia.
    rewrite Z.pow_add_r by lia. change (2 ^ 2) with 4.
    destruct s; cbn [cond_Zopp]; lia.
Qed.

Local Open Scope float_scope.

(** NaN compares false with everything, and propagates. *)
Lemma leb_refl x : is_nan x = false -> (x <=? x) = true.
Proof. intros H. rewrite leb_fval by assumption. apply Z.leb_refl. Qed.

Lemma ltb_nan_l x y : is_nan x = true -> (x <? y) = false.
Proof.
  rewrite is_nan_spec, ltb_spec. destruct (Prim2SF x); try discriminate. reflexivity.
Qed.

Lemma ltb_nan_r x y : is_nan y = true -> (x <? y) = false.
Proof.
  rewrite is_nan_spec, ltb_spec. unfold SFltb.
  destruct (Prim2SF y); try discriminate. destruct (Prim2SF x); reflexivity.
Qed.

Lemma mul_nan_r x y : is_nan y = true -> is_nan (x * y) = true.
Proof.
  rewrite !is_nan_spec, mul_spec.
  destruct (Prim2SF y); try discriminate. destruct (Prim2SF x); reflexivity.
Qed.

Lemma mul_finite_not_nan x y :
  is_finite x = true -> is_finite y = true -> is_nan (x * y) = false.
Proof.
  rewrite !is_finite_spec, is_nan_spec, mul_spec.
  destruct (Prim2SF x) as [sx| | |sx mx ex], (Prim2SF y) as [sy| | |sy my ey];
    try discriminate; intros _ _; try reflexivity.
  unfold SF64mul, SFmul.
  eapply SFsigned_not_nan, binary_round_aux_signed. lia.
Qed.

(** Subtracting [+0] changes nothing, not even the sign of a zero. *)
Lemma sub_zero_r x : x - 0 = x.
Proof.
  apply Prim2SF_inj. rewrite sub_spec. change (Prim2SF 0) with (S754_zero false).
  destruct (Prim2SF x) as [[]|[]| |s m e]; reflexivity.
Qed.

End Binary64.

Import Binary64.

(** * Part IV: the loops *)

(** ** The constant [M_PI] *)

Lemma Prim2SF_M_PI : Prim2SF M_PI = S754_finite false 7074237752028440 (-51).
Proof. reflexivity. Qed.

Lemma fval_M_PI : fval M_PI = (Mpi * 2 ^ 1023)%Z.
Proof. reflexivity. Qed.

Lemma fval_neg_M_PI : fval (- M_PI) = (- Mpi * 2 ^ 1023)%Z.
Proof. reflexivity. Qed.

Lemma fval_2M_PI : fval (2 * M_PI) = (2 * Mpi * 2 ^ 1023)%Z.
Proof. reflexivity. Qed.

Lemma fval_3M_PI : fval (3 * M_PI) = (3 * Mpi * 2 ^ 1023)%Z.
Proof. reflexivity. Qed.

Lemma fval_neg_3M_PI : fval (-3 * M_PI) = (-3 * Mpi * 2 ^ 1023)%Z.
Proof. reflexivity. Qed.

(** Multiples of [2^-51] with a significand of at most 53 bits are binary64
    numbers. *)
Lemma representable_grid k :
  (Z.abs k < 2 ^ 53)%Z -> representable (k * 2 ^ 1023).
Proof.
  intros Hk. exists (Z.abs k), 1023%Z.
  rewrite Z.abs_mul, (Z.abs_eq (2 ^ 1023)) by (apply Z.pow_nonneg; lia).
  repeat split; lia.
Qed.

(** A finite number beyond [M_PI] in magnitude is a multiple of [2^-51]. *)
Lemma grid_beyond_pi a :
  is_finite a = true -> (Mpi * 2 ^ 1023 <= Z.abs (fval a))%Z ->
  exists k, fval a = (k * 2 ^ 1023)%Z.
Proof.
  intros Ha H. apply grid; [lia|assumption|].
  eapply Z.le_trans; [|exact H].
  change (2 ^ (52 + 1023))%Z with (2 ^ 52 * 2 ^ 1023)%Z.
  apply Z.mul_le_mono_nonneg_r; [apply Z.pow_nonneg; lia|]. unfold Mpi.
  change (2 ^ 52)%Z with 4503599627370496%Z. lia.
Qed.

(** Adding a multiple of [2^-51] to a number beyond [M_PI], with a result
    within [M_PI], is exact. *)
Lemma step_exact a (c : Z) :
  is_finite a = true ->
  (Mpi * 2 ^ 1023 <= Z.abs (fval a))%Z ->
  (Z.abs (fval a + c * 2 ^ 1023) <= Mpi * 2 ^ 1023)%Z ->
  representable (fval a + c * 2 ^ 1023).
Proof.
  intros Ha Hbig Hsmall.
  destruct (grid_beyond_pi a Ha Hbig) as (k & Hk).
  rewrite Hk in *. rewrite <- Z.mul_add_distr_r in *.
  apply representable_grid.
  assert (HU : (0 < 2 ^ 1023)%Z) by (apply Z.pow_pos_nonneg; lia).
  rewrite Z.abs_mul, (Z.abs_eq (2 ^ 1023)) in Hsmall by lia.
  apply Z.mul_le_mono_pos_r in Hsmall; [|exact HU].
  eapply Z.le_lt_trans; [exact Hsmall|]. unfold Mpi.
  change (2 ^ 53)%Z with 9007199254740992%Z. lia.
Qed.

(** ** Loops with fuel *)

Section While.
Context {S : Type} (cond : S -> bool) (body : S -> S).

Lemma while_done fuel s : cond s = false -> while cond body fuel s = Some s.
Proof. intros H. destruct fuel; cbn [while]; rewrite H; reflexivity. Qed.

Lemma while_step fuel s :
  cond s = true ->
  while cond body (Datatypes.S fuel) s = while cond body fuel (body s).
Proof. intros H. cbn [while]. rewrite H. reflexivity. Qed.

Lemma while_inv (I : S -> Prop) :
  (forall s, I s -> cond s = true -> I (body s)) ->
  forall fuel s r, I s -> while cond body fuel s = Some r -> I r /\ cond r = false.
Proof.
  intros Hstep fuel. induction fuel as [|fuel IH]; intros s r Hs; cbn [while];
    destruct (cond s) eqn:Hc; try discriminate.
  - intros [= <-]. auto.
  - apply IH. now apply Hstep.
  - intros [= <-]. auto.
Qed.

Lemma while_fuel_mono fuel : forall s r k,
  while cond body fuel s = Some r -> while cond body (fuel + k) s = Some r.
Proof.
  induction fuel as [|fuel IH]; intros s r k; cbn [while Nat.add];
    destruct (cond s) eqn:Hc; try discriminate.
  - intros [= <-]. now apply while_done.
  - apply IH.
  - auto.
Qed.

Lemma while_stuck s :
  cond s = true -> body s = s -> forall fuel, while cond body fuel s = None.
Proof.
  intros Hc Hb fuel. induction fuel as [|fuel IH]; cbn [while]; rewrite Hc.
  - reflexivity.
  - rewrite Hb. exact IH.
Qed.
End While.

(** ** Normalisation *)

Lemma signed_neg_le_M_PI x : SFsigned true (Prim2SF x) -> (x <=? M_PI) = true.
Proof.
  rewrite leb_spec, Prim2SF_M_PI. destruct (Prim2SF x) as [s|s| |s m e]; cbn [SFsigned];
    intros H; try contradiction; subst; reflexivity.
Qed.

Lemma finite_2M_PI : is_finite (2 * M_PI) = true.
Proof. reflexivity. Qed.

Lemma lt_neg_pi_cases a :
  (a <? - M_PI) = true ->
  Prim2SF a = S754_infinity true
  \/ (is_finite a = true /\ (fval a < - Mpi * 2 ^ 1023)%Z).
Proof.
  intros H. destruct (is_finite a) eqn:Hf.
  - right. split; [reflexivity|].
    rewrite ltb_fval in H by (reflexivity || now apply finite_not_nan).
    rewrite fval_neg_M_PI in H. now apply Z.ltb_lt in H.
  - left. rewrite is_finite_spec in Hf. rewrite ltb_spec in H.
    change (Prim2SF (- M_PI)) with (S754_finite true 7074237752028440 (-51)) in H.
    destruct (Prim2SF a) as [s|[]| |s m e]; try discriminate. reflexivity.
Qed.

(** One round of the second loop never overshoots [M_PI]. *)
Lemma step_up_le a : (a <? - M_PI) = true -> (a + 2 * M_PI <=? M_PI) = true.
Proof.
  intros H. destruct (lt_neg_pi_cases a H) as [Hinf|[Hf Hlt]].
  - apply signed_neg_le_M_PI. rewrite add_spec, Hinf. reflexivity.
  - destruct (Z_lt_ge_dec (fval a + fval (2 * M_PI)) 0) as [Hneg|Hpos].
    + apply signed_neg_le_M_PI. rewrite add_spec.
      apply SFadd_neg; auto using Prim2SF_valid.
      * now rewrite <- is_finite_spec.
    + rewrite fval_2M_PI in Hpos.
      destruct (add_exact a (2 * M_PI) Hf finite_2M_PI) as [Hf' Hv].
      { rewrite fval_2M_PI. apply step_exact; try assumption; unfold Mpi in *; lia. }
      rewrite leb_fval by (reflexivity || now apply finite_not_nan).
      rewrite Hv, fval_2M_PI, fval_M_PI. apply Z.leb_le. unfold Mpi in *. lia.
Qed.

(** Whenever the two loops come to an end on a number, the result lies in
    [-M_PI, M_PI]. *)
Theorem normalize_angle_closed_range fuel a r :
  is_nan a = false ->
  normalize_angle fuel a = Some r ->
  (- M_PI <=? r) = true /\ (r <=? M_PI) = true.
Proof.
  intros Ha. unfold normalize_angle.
  destruct (while _ _ fuel a) as [a1|] eqn:E1; [|discriminate].
  apply (while_inv _ _ (fun s => is_nan s = false)) in E1; [|
    intros s Hs _; apply sub_not_nan; [exact Hs|reflexivity] | exact Ha].
  destruct E1 as [Hn1 Hc1].
  assert (H1 : (a1 <=? M_PI) = true) by (apply ltb_false_leb; [reflexivity|assumption..]).
  intros E2.
  apply (while_inv _ _ (fun s => (s <=? M_PI) = true)) in E2; [|
    intros s _ Hc; now apply step_up_le | exact H1].
  destruct E2 as [Hr Hc2]. split; [|exact Hr].
  apply ltb_false_leb; [|reflexivity|exact Hc2].
  now apply leb_not_nan in Hr.
Qed.

(** More fuel does not change a result. *)
Lemma normalize_angle_fuel_mono fuel k (a r : float) :
  normalize_angle fuel a = Some r -> normalize_angle (fuel + k) a = Some r.
Proof.
  unfold normalize_angle.
  destruct (while _ _ fuel a) as [a1|] eqn:E1; [|discriminate].
  intros E2. rewrite (while_fuel_mono _ _ _ _ _ k E1).
  now apply while_fuel_mono.
Qed.

(** Within three half-turns one round of one loop is enough, and it is exact. *)
Theorem normalize_angle_one_round a :
  (-3 * M_PI <=? a) = true -> (a <=? 3 * M_PI) = true ->
  exists r, normalize_angle 1 a = Some r
            /\ is_finite r = true
            /\ (fval r = fval a - fval (2 * M_PI)
                \/ fval r = fval a \/ fval r = fval a + fval (2 * M_PI))%Z.
Proof.
  intros Hlo Hhi.
  assert (Hf : is_finite a = true) by (eapply between_finite; [| |eassumption..]; reflexivity).
  pose proof (finite_not_nan a Hf) as Hn.
  rewrite leb_fval in Hlo, Hhi by (reflexivity || assumption).
  rewrite fval_neg_3M_PI in Hlo. rewrite fval_3M_PI in Hhi.
  apply Z.leb_le in Hlo, Hhi.
  unfold normalize_angle.
  destruct (M_PI <? a) eqn:E1.
  - (* one round of the first loop *)
    pose proof E1 as E1'. rewrite ltb_fval in E1' by (reflexivity || assumption).
    rewrite fval_M_PI in E1'. apply Z.ltb_lt in E1'.
    destruct (sub_exact a (2 * M_PI) Hf finite_2M_PI) as [Hf' Hv].
    { rewrite fval_2M_PI.
      replace (fval a - 2 * Mpi * 2 ^ 1023)%Z with (fval a + (-2 * Mpi) * 2 ^ 1023)%Z by lia.
      apply step_exact; try assumption; unfold Mpi in *; lia. }
    pose proof (finite_not_nan _ Hf') as Hn'.
    exists (a - 2 * M_PI).
    rewrite while_step by exact E1. rewrite while_done.
    2:{ rewrite ltb_fval by (reflexivity || assumption).
        rewrite Hv, fval_2M_PI, fval_M_PI. apply Z.ltb_ge. unfold Mpi in *. lia. }
    rewrite while_done.
    2:{ rewrite ltb_fval by (reflexivity || assumption).
        rewrite Hv, fval_2M_PI, fval_neg_M_PI. apply Z.ltb_ge. unfold Mpi in *. lia. }
    auto.
  - rewrite while_done by exact E1.
    destruct (a <? - M_PI) eqn:E2.
    + pose proof E2 as E2'. rewrite ltb_fval in E2' by (reflexivity || assumption).
      rewrite fval_neg_M_PI in E2'. apply Z.ltb_lt in E2'.
      destruct (add_exact a (2 * M_PI) Hf finite_2M_PI) as [Hf' Hv].
      { rewrite fval_2M_PI. apply step_exact; try assumption; unfold Mpi in *; lia. }
      pose proof (finite_not_nan _ Hf') as Hn'.
      exists (a + 2 * M_PI).
      rewrite while_step by exact E2. rewrite while_done.
      2:{ rewrite ltb_fval by (reflexivity || assumption).
          rewrite Hv, fval_2M_PI, fval_neg_M_PI. apply Z.ltb_ge. unfold Mpi in *. lia. }
      auto.
    + exists a. rewrite while_done by exact E2. auto.
Qed.

(** ** Clamping *)

Section Clamp.
Variables lo hi : double.
Hypothesis lo_le_hi : (lo <=? hi) = true.

Lemma clamp_within v : is_nan v = false -> within lo hi (std.clamp v lo hi) = true.
Proof.
  intros Hv. destruct (leb_not_nan _ _ lo_le_hi) as [Hlo Hhi].
  unfold within, std.clamp.
  destruct (v <? lo) eqn:E1; [|destruct (hi <? v) eqn:E2].
  - rewrite leb_refl, lo_le_hi by assumption. reflexivity.
  - rewrite lo_le_hi, leb_refl by assumption. reflexivity.
  - rewrite !ltb_false_leb by assumption. reflexivity.
Qed.

Lemma clamp_nan v : is_nan v = true -> std.clamp v lo hi = v.
Proof.
  intros Hv. unfold std.clamp. rewrite ltb_nan_l, ltb_nan_r by assumption. reflexivity.
Qed.

Lemma clamp_above v : (hi <? v) = true -> std.clamp v lo hi = hi.
Proof.
  intros H. destruct (leb_not_nan _ _ lo_le_hi) as [Hlo Hhi].
  destruct (ltb_not_nan _ _ H) as [_ Hv].
  unfold std.clamp. rewrite H.
  replace (v <? lo) with false; [reflexivity|].
  symmetry. rewrite ltb_fval in H |- * by assumption.
  pose proof lo_le_hi as L. rewrite leb_fval in L by assumption.
  apply Z.ltb_lt in H. apply Z.leb_le in L. apply Z.ltb_ge. lia.
Qed.

Lemma clamp_below v : (v <? lo) = true -> std.clamp v lo hi = lo.
Proof. intros H. unfold std.clamp. rewrite H. reflexivity. Qed.

End Clamp.

(** * Part V: the control loop *)

(** Close a goal [a = c] from [H : a = b], with [b] evaluating to [c]. *)
Ltac now_from H := etransitivity; [exact H | vm_compute; reflexivity].

Section ControlLoopFacts.

Variable atan2 : double -> double -> double.

(** What a call that comes to an end has done. *)
Lemma control_loop_inv fuel self self' msg :
  control_loop atan2 fuel self = Some (self', msg) ->
  exists angle_error,
    normalize_angle fuel (raw_angle_error atan2 self) = Some angle_error
    /\ self' = set_state self (distance_error self) (integral_ self + distance_error self)
    /\ msg = Twist.make (Vector3.make (std.clamp (control_signal self) (- 2) 2) 0 0)
                        (Vector3.make 0 0 (std.clamp (4 * angle_error) (- 2) 2)).
Proof.
  unfold control_loop. fold (raw_angle_error atan2 self).
  destruct (normalize_angle fuel (raw_angle_error atan2 self)) as [a|]; [|discriminate].
  intros [= <- <-]. exists a. repeat split.
Qed.

(** And conversely. *)
Lemma control_loop_eq fuel self angle_error :
  normalize_angle fuel (raw_angle_error atan2 self) = Some angle_error ->
  control_loop atan2 fuel self
  = Some (set_state self (distance_error self) (integral_ self + distance_error self),
          Twist.make (Vector3.make (std.clamp (control_signal self) (- 2) 2) 0 0)
                     (Vector3.make 0 0 (std.clamp (4 * angle_error) (- 2) 2))).
Proof.
  intros H. unfold control_loop. fold (raw_angle_error atan2 self). rewrite H. reflexivity.
Qed.

(** C9: a call that comes to an end has written [prev_error_] and
    [integral_] only: the goal, the pose and the gains are as before.  (The
    two limits are literals of the function body.) *)
Theorem C9_frame fuel self self' msg :
  control_loop atan2 fuel self = Some (self', msg) ->
  same_configuration self self'.
Proof.
  intros H. apply control_loop_inv in H. destruct H as (a & _ & -> & _).
  unfold same_configuration, set_state. cbn. repeat split.
Qed.

(** C10: the members [prev_error_] and [integral_] have no influence on
    whether a call comes to an end, nor on any component of the published
    message other than [linear.x]; in particular [angular.z] is the same
    for every content of the two members. *)
Theorem C10_angular_independent_of_state fuel self prev_error integral :
  option_map (fun r => Twist.set_linear_x 0 (snd r))
             (control_loop atan2 fuel (set_state self prev_error integral))
  = option_map (fun r => Twist.set_linear_x 0 (snd r)) (control_loop atan2 fuel self)
  /\ option_map (fun r => Twist.angular (snd r))
                (control_loop atan2 fuel (set_state self prev_error integral))
     = option_map (fun r => Twist.angular (snd r)) (control_loop atan2 fuel self).
Proof.
  unfold control_loop. cbn [set_state x_goal_ y_goal_ x_current_ y_current_ theta_current_].
  destruct (normalize_angle fuel _) as [a|]; split; reflexivity.
Qed.

End ControlLoopFacts.

(** One tick, one unit short of the goal. *)
Lemma C9_witness :
  exists self' msg,
    control_loop atan2_table 0 node_near_goal = Some (self', msg)
    /\ same_configuration node_near_goal self'
    /\ integral_ self' = 1 /\ integral_ node_near_goal = 0.
Proof.
  eexists _, _. split; [vm_compute; reflexivity|].
  split; [|split; reflexivity].
  apply (C9_frame atan2_table 0 node_near_goal _ _ eq_refl).
Defined.

(** C5: what the stores hold after the constructor.  The goal reads
    (4, 5) and each callback overwrites its store with the message; but the
    pose reads whatever the storage held before the constructor ran, not a
    fixed value, and the first command depends on it. *)
Theorem C5_stores_after_construction :
  (forall x0 y0 theta0,
      let self := TurtleNavigator_ctor x0 y0 theta0 in
      (x_goal_ self, y_goal_ self) = (4, 5)
      /\ (x_current_ self, y_current_ self, theta_current_ self) = (x0, y0, theta0))
  /\ (forall self msg,
         let self' := goal_callback self msg in
         (x_goal_ self', y_goal_ self') = (Point.x msg, Point.y msg))
  /\ (forall self msg,
         let self' := pose_callback self msg in
         (x_current_ self', y_current_ self', theta_current_ self')
         = (Pose.x msg, Pose.y msg, Pose.theta msg))
  /\ option_map (fun r => Vector3.x (Twist.linear (snd r)))
                (control_loop atan2_table 0 (TurtleNavigator_ctor 3 5 0)) = Some 1.05
  /\ option_map (fun r => Vector3.x (Twist.linear (snd r)))
                (control_loop atan2_table 0 (TurtleNavigator_ctor 4 5 0)) = Some 0.
Proof.
  repeat split; vm_compute; reflexivity.
Qed.

(** ** Normalisation *)

(** C1, as the code has it: whenever the two loops come to an end on an
    input that is not NaN, the result lies in the closed interval
    [-M_PI, M_PI]; they do come to an end, after at most one round, on every
    input within [-3 M_PI, 3 M_PI]; [5 M_PI] is normalised to [M_PI], and
    [-3 M_PI] to [-M_PI]. *)
Theorem C1_normalize_angle_closed_interval :
  (forall fuel a r,
      is_nan a = false -> normalize_angle fuel a = Some r ->
      within (- M_PI) M_PI r = true)
  /\ (forall a,
         within (-3 * M_PI) (3 * M_PI) a = true ->
         exists r, forall fuel, normalize_angle (S fuel) a = Some r)
  /\ normalize_angle 2 (5 * M_PI) = Some M_PI
  /\ normalize_angle 1 (-3 * M_PI) = Some (- M_PI).
Proof.
  split; [|split; [|split; reflexivity]].
  - intros fuel a r Ha H. unfold within.
    destruct (normalize_angle_closed_range fuel a r Ha H) as [-> ->]. reflexivity.
  - intros a H. unfold within in H. apply andb_prop in H. destruct H as [Hlo Hhi].
    destruct (normalize_angle_one_round a Hlo Hhi) as (r & Hr & _).
    exists r. intros fuel. apply (normalize_angle_fuel_mono 1 fuel a r Hr).
Qed.

(** The input [-3 M_PI] is finite and is normalised to [-M_PI], which is
    outside the half-open interval and is not [M_PI]. *)
Lemma C1_counterexample :
  is_finite (-3 * M_PI) = true
  /\ normalize_angle 1 (-3 * M_PI) = Some (- M_PI)
  /\ in_half_open_turn (- M_PI) = false
  /\ (- M_PI =? M_PI) = false.
Proof. repeat split. Qed.

(** ** Termination *)

(** The table agrees with Annex F on the positive x axis. *)
Lemma atan2_table_positive_x_axis : atan2_positive_x_axis atan2_table.
Proof.
  intros x Hx. unfold atan2_table. rewrite Hx. reflexivity.
Qed.

(** A number below [-M_PI] that adding [2 * M_PI] does not change keeps the
    second loop running. *)
Lemma normalize_angle_stuck (a : float) :
  (M_PI <? a) = false -> (a <? - M_PI) = true -> a + 2 * M_PI = a ->
  forall fuel, normalize_angle fuel a = None.
Proof.
  intros H1 H2 H3 fuel. unfold normalize_angle.
  rewrite while_done by exact H1.
  apply (while_stuck (fun a => a <? - M_PI) (fun a => a + 2 * M_PI)); assumption.
Qed.

(** C8, at a finite input: with the pose (3, 5, 2^60), the goal (4, 5) and
    the state of the constructor, no amount of fuel lets [control_loop] come
    to an end.  The heading error is [-2^60]; adding [2 * M_PI] to it gives
    [-2^60] again, so the second loop never leaves. *)
Theorem C8_control_loop_runs_forever atan2 :
  atan2_positive_x_axis atan2 ->
  forall fuel, control_loop atan2 fuel node_far_heading = None.
Proof.
  intros Hax fuel. unfold control_loop.
  change (y_goal_ node_far_heading - y_current_ node_far_heading) with 0.
  change (x_goal_ node_far_heading - x_current_ node_far_heading) with 1.
  rewrite (Hax 1 eq_refl).
  change (0 - theta_current_ node_far_heading) with (-0x1p60).
  rewrite normalize_angle_stuck; reflexivity.
Qed.

(** The failing input, with the table of [std::atan2]. *)
Lemma C8_witness :
  control_loop atan2_table 1000 node_far_heading = None
  /\ is_finite (theta_current_ node_far_heading) = true
  /\ raw_angle_error atan2_table node_far_heading = -0x1p60
  /\ -0x1p60 + 2 * M_PI = -0x1p60.
Proof.
  split; [|repeat split].
  apply (C8_control_loop_runs_forever atan2_table atan2_table_positive_x_axis 1000).
Defined.

(** ** Clamping *)

(** NaN passes both loops unchanged. *)
Lemma normalize_angle_nan fuel (a : float) :
  is_nan a = true -> normalize_angle fuel a = Some a.
Proof.
  intros H. unfold normalize_angle.
  rewrite while_done by (now apply ltb_nan_r).
  apply while_done. now apply ltb_nan_l.
Qed.

(** C4, as the code has it: in the message of a call that comes to an end,
    a component whose raw signal is not NaN lies within its limits, and it
    is the limit, with the sign of the raw signal, when the raw signal lies
    beyond it; a raw signal that is NaN is published as NaN.  The raw signal
    of [linear.x] is [control_signal]; that of [angular.z] is four times the
    normalised heading error, which is NaN exactly when the heading error
    is. *)
Theorem C4_clamped_outputs atan2 fuel self self' msg :
  control_loop atan2 fuel self = Some (self', msg) ->
  exists angle_error,
    normalize_angle fuel (raw_angle_error atan2 self) = Some angle_error
    /\ (is_nan (control_signal self) = false ->
        within (- 2) 2 (Vector3.x (Twist.linear msg)) = true)
    /\ (is_nan (control_signal self) = true ->
        is_nan (Vector3.x (Twist.linear msg)) = true)
    /\ ((2 <? control_signal self) = true -> Vector3.x (Twist.linear msg) = 2)
    /\ ((control_signal self <? - 2) = true -> Vector3.x (Twist.linear msg) = - 2)
    /\ (is_nan (raw_angle_error atan2 self) = false ->
        within (- 2) 2 (Vector3.z (Twist.angular msg)) = true)
    /\ (is_nan (raw_angle_error atan2 self) = true ->
        is_nan (Vector3.z (Twist.angular msg)) = true)
    /\ ((2 <? 4 * angle_error) = true -> Vector3.z (Twist.angular msg) = 2)
    /\ ((4 * angle_error <? - 2) = true -> Vector3.z (Twist.angular msg) = - 2).
Proof.
  intros H. apply control_loop_inv in H. destruct H as (a & Ha & _ & ->).
  exists a. split; [exact Ha|]. cbn [Twist.linear Twist.angular Vector3.x Vector3.z].
  assert (L : (- 2 <=? 2) = true) by reflexivity.
  repeat split.
  - apply clamp_within; assumption.
  - intros Hn. rewrite clamp_nan; assumption.
  - apply clamp_above; assumption.
  - apply clamp_below.
  - intros Hn. apply clamp_within; [exact L|].
    destruct (normalize_angle_closed_range fuel _ a Hn Ha) as [H1 H2].
    apply mul_finite_not_nan; [reflexivity|].
    eapply between_finite; [| |exact H1|exact H2]; reflexivity.
  - intros Hn. rewrite normalize_angle_nan in Ha by exact Hn.
    injection Ha as <-. rewrite clamp_nan; now apply mul_nan_r.
  - apply clamp_above; assumption.
  - apply clamp_below.
Qed.

(** The first tick of the end-to-end scenario: the linear signal lies
    beyond its limit. *)
Lemma C4_witness :
  exists self' msg,
    control_loop atan2_table 0 node_at_origin = Some (self', msg)
    /\ (2 <? control_signal node_at_origin) = true
    /\ Vector3.x (Twist.linear msg) = 2
    /\ within (- 2) 2 (Vector3.z (Twist.angular msg)) = true.
Proof.
  eexists _, _. split; [vm_compute; reflexivity|].
  destruct (C4_clamped_outputs atan2_table 0 node_at_origin _ _ eq_refl)
    as (a & Ha & _ & _ & H3 & _ & H5 & _).
  split; [reflexivity|]. split; [apply H3; reflexivity|apply H5; reflexivity].
Defined.

Section FarGoal.

Variable atan2 : double -> double -> double.
Hypothesis atan2_axis : atan2_positive_x_axis atan2.

(** With the goal at [(2^700, 0)], the second command carries NaN. *)
Lemma far_goal_run_publishes_nan fuel :
  spin atan2 fuel far_goal_run (TurtleNavigator_ctor 0 0 0)
  = Some (set_state
            (pose_callback
               (goal_callback (TurtleNavigator_ctor 0 0 0) (Point.make 0x1p700 0 0))
               (Pose.make 0 0 0 0 0))
            infinity infinity,
          [ Twist.make (Vector3.make 2 0 0) Vector3.zero;
            Twist.make (Vector3.make nan 0 0) Vector3.zero ]).
Proof.
  set (s1 := pose_callback
               (goal_callback (TurtleNavigator_ctor 0 0 0) (Point.make 0x1p700 0 0))
               (Pose.make 0 0 0 0 0)).
  assert (Hn : forall p i, normalize_angle fuel (raw_angle_error atan2 (set_state s1 p i)) = Some 0).
  { intros p i. unfold raw_angle_error.
    change (atan2 _ _) with (atan2 0 0x1p700). rewrite (atan2_axis 0x1p700 eq_refl).
    destruct fuel; reflexivity. }
  unfold far_goal_run. cbn [spin dispatch]. fold s1.
  change s1 with (set_state s1 0 0) at 1.
  rewrite (control_loop_eq atan2 fuel _ 0 (Hn 0 0)).
  change (set_state (set_state s1 0 0) _ _) with (set_state s1 infinity infinity).
  rewrite (control_loop_eq atan2 fuel _ 0 (Hn infinity infinity)).
  reflexivity.
Qed.

End FarGoal.

(** From the constructed node, [far_goal_run] publishes two commands; the
    first cycle leaves [integral_] infinite (the squared distance
    overflows), and the linear speed of the second command is NaN, which is
    not within the limits. *)
Lemma C4_counterexample :
  exists self m1 m2,
    spin atan2_table 0 far_goal_run (TurtleNavigator_ctor 0 0 0) = Some (self, [m1; m2])
    /\ Vector3.x (Twist.linear m1) = 2
    /\ integral_ self = infinity
    /\ is_nan (Vector3.x (Twist.linear m2)) = true
    /\ within (- 2) 2 (Vector3.x (Twist.linear m2)) = false.
Proof.
  rewrite (far_goal_run_publishes_nan atan2_table atan2_table_positive_x_axis 0).
  eexists _, _, _. split; [reflexivity|]. repeat split.
Qed.

(** ** The end-to-end scenario *)

(** C2: goal (4, 5), pose (0, 0, 0), the gains and the zero state of the
    constructor.  Whenever [std::atan2(5, 4)] lies between 0.8960 and 0.8961
    (arctan(5/4) is 0.89605...), the first call publishes [{linear.x: 2,
    angular.z: 2}] and leaves sqrt(41) in both state members; on the way the
    distance error is sqrt(41), the raw linear signal lies between 6.723 and
    6.724, the heading error is [atan2(5, 4)], unchanged by the
    normalisation, and the raw angular signal lies between 3.584 and
    3.5844. *)
Theorem C2_first_tick atan2 fuel :
  within 0.8960 0.8961 (atan2 5 4) = true ->
  control_loop atan2 fuel node_at_origin
  = Some (set_state node_at_origin (std.sqrt 41) (std.sqrt 41),
          Twist.make (Vector3.make 2 0 0) (Vector3.make 0 0 2))
  /\ distance_error node_at_origin = std.sqrt 41
  /\ within 6.723 6.724 (control_signal node_at_origin) = true
  /\ raw_angle_error atan2 node_at_origin = atan2 5 4
  /\ normalize_angle fuel (atan2 5 4) = Some (atan2 5 4)
  /\ within 3.584 3.5844 (4 * atan2 5 4) = true.
Proof.
  intros H. unfold within in H. apply andb_prop in H. destruct H as [Hlo Hhi].
  set (v := atan2 5 4) in *.
  assert (Hf : is_finite v = true) by (eapply between_finite; [| |eassumption..]; reflexivity).
  pose proof (finite_not_nan v Hf) as Hn.
  rewrite leb_fval in Hlo, Hhi by (reflexivity || assumption).
  change (fval 0.8960) with (8070450532247929 * 2 ^ 1021)%Z in Hlo.
  change (fval 0.8961) with (8071351252173403 * 2 ^ 1021)%Z in Hhi.
  apply Z.leb_le in Hlo, Hhi.
  assert (Hraw : raw_angle_error atan2 node_at_origin = v).
  { unfold raw_angle_error.
    change (y_goal_ node_at_origin - y_current_ node_at_origin) with 5.
    change (x_goal_ node_at_origin - x_current_ node_at_origin) with 4.
    fold v. apply sub_zero_r. }
  assert (Hnorm : normalize_angle fuel v = Some v).
  { unfold normalize_angle. rewrite while_done; [apply while_done|].
    - rewrite ltb_fval by (reflexivity || assumption).
      rewrite fval_neg_M_PI. apply Z.ltb_ge. unfold Mpi. lia.
    - rewrite ltb_fval by (reflexivity || assumption).
      rewrite fval_M_PI. apply Z.ltb_ge. unfold Mpi. lia. }
  destruct (mul_4_exact v Hf) as [Hf4 Hv4]; [lia|].
  pose proof (finite_not_nan _ Hf4) as Hn4.
  assert (Hrot : within 3.584 3.5844 (4 * v) = true).
  { unfold within. rewrite !leb_fval by (reflexivity || assumption). rewrite Hv4.
    change (fval 3.584) with (8070450532247929 * 2 ^ 1023)%Z.
    change (fval 3.5844) with (8071351252173403 * 2 ^ 1023)%Z.
    apply andb_true_intro. split; apply Z.leb_le; lia. }
  assert (Hclamp : std.clamp (4 * v) (- 2) 2 = 2).
  { apply clamp_above; [reflexivity|].
    rewrite ltb_fval by (reflexivity || assumption). rewrite Hv4.
    change (fval 2) with (4503599627370496 * 2 ^ 1023)%Z. apply Z.ltb_lt. lia. }
  split; [|repeat split; assumption].
  rewrite (control_loop_eq atan2 fuel node_at_origin v) by (rewrite Hraw; exact Hnorm).
  rewrite Hclamp. reflexivity.
Qed.

(** The scenario with the table of [std::atan2]. *)
Lemma C2_witness :
  control_loop atan2_table 0 node_at_origin
  = Some (set_state node_at_origin (std.sqrt 41) (std.sqrt 41),
          Twist.make (Vector3.make 2 0 0) (Vector3.make 0 0 2))
  /\ within 0.8960 0.8961 (atan2_table 5 4) = true.
Proof.
  split; [|reflexivity].
  apply (C2_first_tick atan2_table 0 eq_refl).
Defined.

(** ** Accumulation of the integral *)

(** The distance error is a function of the goal and the position. *)
Lemma distance_error_configuration a b :
  same_configuration a b -> distance_error b = distance_error a.
Proof.
  intros (H1 & H2 & H3 & H4 & _). unfold distance_error. now rewrite H1, H2, H3, H4.
Qed.

Lemma same_configuration_trans a b c :
  same_configuration a b -> same_configuration b c -> same_configuration a c.
Proof. unfold same_configuration. intuition congruence. Qed.

(** [n] cycles leave the configuration alone and add the distance error [n]
    times, in binary64, to [integral_]. *)
Lemma cycles_spec atan2 fuel n : forall self self',
  cycles atan2 fuel n self = Some self' ->
  same_configuration self self'
  /\ integral_ self' = repeated_sum (distance_error self) n (integral_ self).
Proof.
  unfold cycles, repeated_sum. induction n as [|n IH] using N.peano_ind; intros self self'.
  - cbn. intros [= <-]. unfold same_configuration. repeat split.
  - rewrite !N.iter_succ.
    destruct (N.iter n (cycle atan2 fuel) (Some self)) as [s1|] eqn:E; [|discriminate].
    destruct (IH self s1 E) as [Hc Hi].
    cbn [cycle]. destruct (control_loop atan2 fuel s1) as [[s2 m]|] eqn:E2; [|discriminate].
    intros [= <-].
    apply control_loop_inv in E2. destruct E2 as (a & _ & -> & _).
    split.
    + eapply same_configuration_trans; [exact Hc|].
      unfold same_configuration, set_state. cbn. repeat split.
    + cbn [set_state integral_].
      rewrite Hi, (distance_error_configuration _ _ Hc). reflexivity.
Qed.

(** The binary64 sum of [n] copies of a positive [d], from zero: it is
    exact up to [n * 2^-52] of its value as long as [n] is at most [2^52]
    and the sum stays clear of overflow. *)
Lemma repeated_sum_bound (d : float) :
  is_finite d = true -> (0 < fval d)%Z ->
  forall n,
    (Z.of_N n <= 2 ^ 52)%Z -> (2 * Z.of_N n * fval d < 2 ^ 2097)%Z ->
    is_finite (repeated_sum d n 0) = true
    /\ (2 ^ 52 * Z.abs (fval (repeated_sum d n 0) - Z.of_N n * fval d)
        <= Z.of_N n * Z.of_N n * fval d)%Z.
Proof.
  intros Hd HD n. unfold repeated_sum.
  apply (N.iter_ind _ (fun i => i + d) 0
           (fun n I => (Z.of_N n <= 2 ^ 52)%Z -> (2 * Z.of_N n * fval d < 2 ^ 2097)%Z ->
                       is_finite I = true
                       /\ (2 ^ 52 * Z.abs (fval I - Z.of_N n * fval d)
                           <= Z.of_N n * Z.of_N n * fval d)%Z)).
  - intros _ _. split; [reflexivity|]. change (fval 0) with 0%Z. cbn. lia.
  - clear n. intros n I IH Hn Hov. rewrite N2Z.inj_succ in *.
    set (k := Z.of_N n) in *. set (D := fval d) in *.
    assert (Hk : (0 <= k)%Z) by (unfold k; lia).
    assert (HX : (0 <= k * D)%Z) by nia.
    destruct IH as [HfI HE]; [lia|nia|].
    assert (HY : (k * k * D <= 2 ^ 52 * (k * D))%Z) by nia.
    assert (HE1 : (Z.abs (fval I - k * D) <= k * D)%Z) by lia.
    assert (Hsucc : (Z.succ k * Z.succ k * D = k * k * D + 2 * (k * D) + D)%Z) by ring.
    assert (Hov' : (2 * (k * D) + 2 * D < 2 ^ 2097)%Z) by nia.
    destruct (add_error I d HfI Hd) as [Hf' Herr]; [fold D; lia|].
    fold D in Herr. split; [exact Hf'|].
    rewrite Hsucc. replace (Z.succ k * D)%Z with (k * D + D)%Z by ring.
    generalize dependent (k * D)%Z. generalize dependent (k * k * D)%Z.
    intros Y X. intros. lia.
Qed.

(** *** Saturation of the sum *)

Lemma representable_count k :
  (0 <= k <= 2 ^ 53)%Z -> representable (k * 2 ^ 1074).
Proof.
  intros Hk. destruct (Z.eq_dec k (2 ^ 53)) as [->|Hne].
  - exists 1%Z, 1127%Z. repeat split; lia.
  - exists k, 1074%Z. rewrite Z.abs_eq by lia. repeat split; lia.
Qed.

(** Counting in binary64 is exact up to [2^53] ... *)
Lemma count_exact n :
  (Z.of_N n <= 2 ^ 53)%Z ->
  is_finite (repeated_sum 1 n 0) = true
  /\ fval (repeated_sum 1 n 0) = (Z.of_N n * 2 ^ 1074)%Z.
Proof.
  unfold repeated_sum.
  apply (N.iter_ind _ (fun i => i + 1) 0
           (fun n I => (Z.of_N n <= 2 ^ 53)%Z ->
                       is_finite I = true /\ fval I = (Z.of_N n * 2 ^ 1074)%Z)).
  - intros _. split; reflexivity.
  - clear n. intros n I IH Hn. rewrite N2Z.inj_succ in *.
    destruct IH as [Hf Hv]; [lia|].
    destruct (add_exact I 1 Hf eq_refl) as [Hf' Hv'].
    + rewrite Hv. change (fval 1) with (1 * 2 ^ 1074)%Z.
      rewrite <- Z.mul_add_distr_r. apply representable_count. lia.
    + split; [exact Hf'|]. rewrite Hv', Hv. change (fval 1) with (1 * 2 ^ 1074)%Z. lia.
Qed.

(** ... where it stops. *)
Lemma count_saturates n : repeated_sum 1 n 0x1p53 = 0x1p53.
Proof.
  unfold repeated_sum.
  apply (N.iter_invariant n _ (fun i => i + 1) (fun i => i = 0x1p53)); [|reflexivity].
  intros x ->. reflexivity.
Qed.

Lemma repeated_sum_add d p q start :
  repeated_sum d (p + q) start = repeated_sum d p (repeated_sum d q start).
Proof. apply N.iter_add. Qed.

Lemma count_to_2p53 : repeated_sum 1 (2 ^ 53) 0 = 0x1p53.
Proof.
  assert (Hn : (Z.of_N (2 ^ 53) <= 2 ^ 53)%Z) by (vm_compute; discriminate).
  destruct (count_exact (2 ^ 53) Hn) as [Hf Hv].
  apply fval_inj; [exact Hf|reflexivity| |]; rewrite Hv.
  - reflexivity.
  - vm_compute. discriminate.
Qed.

Lemma count_to_2p60 : repeated_sum 1 (2 ^ 60) 0 = 0x1p53.
Proof.
  replace (2 ^ 60)%N with ((2 ^ 60 - 2 ^ 53) + 2 ^ 53)%N by reflexivity.
  rewrite repeated_sum_add, count_to_2p53. apply count_saturates.
Qed.

Section NearGoal.

Variable atan2 : double -> double -> double.
Hypothesis atan2_axis : atan2_positive_x_axis atan2.

(** One unit short of the goal, with the heading on the goal, every cycle
    comes to an end, whatever the two state members hold. *)
Lemma control_loop_near_goal fuel prev_error integral :
  control_loop atan2 fuel (set_state node_near_goal prev_error integral)
  = Some (set_state node_near_goal 1 (integral + 1),
          Twist.make
            (Vector3.make
               (std.clamp (control_signal (set_state node_near_goal prev_error integral))
                          (- 2) 2) 0 0)
            Vector3.zero).
Proof.
  rewrite (control_loop_eq atan2 fuel _ 0).
  - reflexivity.
  - unfold raw_angle_error.
    change (atan2 _ _) with (atan2 0 1). rewrite (atan2_axis 1 eq_refl).
    destruct fuel; reflexivity.
Qed.

Lemma cycles_near_goal_any fuel n :
  exists p i, cycles atan2 fuel n node_near_goal = Some (set_state node_near_goal p i).
Proof.
  unfold cycles.
  apply (N.iter_ind _ (cycle atan2 fuel) (Some node_near_goal)
           (fun _ o => exists p i, o = Some (set_state node_near_goal p i))).
  - exists 0, 0. reflexivity.
  - intros _ o (p & i & ->). cbn [cycle]. rewrite control_loop_near_goal.
    eexists _, _. reflexivity.
Qed.

(** Counting to [2^60] by the control loop stops at [2^53]. *)
Lemma integral_saturates fuel :
  exists self',
    cycles atan2 fuel (2 ^ 60) node_near_goal = Some self'
    /\ integral_ self' = 0x1p53.
Proof.
  destruct (cycles_near_goal_any fuel (2 ^ 60)) as (p & i & H).
  eexists. split; [exact H|].
  destruct (cycles_spec atan2 fuel (2 ^ 60) node_near_goal _ H) as [_ Hi].
  rewrite Hi.
  change (distance_error node_near_goal) with 1.
  change (integral_ node_near_goal) with 0.
  exact count_to_2p60.
Qed.

End NearGoal.

(** With the distance error 1 held for [2^60] cycles from [integral_ = 0],
    [integral_] is [2^53], not [2^60]: from [2^53] on, adding 1 changes
    nothing. *)
Lemma C6_counterexample :
  exists self',
    cycles atan2_table 0 (2 ^ 60) node_near_goal = Some self'
    /\ integral_ node_near_goal = 0
    /\ distance_error node_near_goal = 1
    /\ integral_ self' = 0x1p53
    /\ 0x1p53 + 1 = 0x1p53.
Proof.
  destruct (integral_saturates atan2_table atan2_table_positive_x_axis 0) as (self' & H & Hi).
  exists self'. split; [exact H|]. split; [reflexivity|]. split; [reflexivity|].
  split; [exact Hi|reflexivity].
Qed.

(** ** Where the control loop does come to an end *)

(** With a heading within [-M_PI, M_PI], as turtlesim reports it, the raw
    heading error stays within three half-turns. *)
Lemma raw_angle_error_bounded atan2 self :
  atan2_in_range atan2 ->
  finite_position self ->
  within (- M_PI) M_PI (theta_current_ self) = true ->
  within (-3 * M_PI) (3 * M_PI) (raw_angle_error atan2 self) = true.
Proof.
  intros Hr (Hgx & Hgy & Hcx & Hcy) Ht. unfold raw_angle_error.
  set (v := atan2 _ _).
  specialize (Hr (y_goal_ self - y_current_ self) (x_goal_ self - x_current_ self)).
  fold v in Hr. set (t := theta_current_ self) in *.
  specialize (Hr (sub_not_nan _ _ (finite_not_nan _ Hgy) Hcy)
                 (sub_not_nan _ _ (finite_not_nan _ Hgx) Hcx)).
  unfold within in *. apply andb_prop in Hr, Ht.
  destruct Hr as [Hv1 Hv2], Ht as [Ht1 Ht2].
  assert (Hfv : is_finite v = true) by (eapply between_finite; [| |eassumption..]; reflexivity).
  assert (Hft : is_finite t = true) by (eapply between_finite; [| |eassumption..]; reflexivity).
  pose proof (finite_not_nan _ Hfv) as Hnv. pose proof (finite_not_nan _ Hft) as Hnt.
  rewrite leb_fval in Hv1, Hv2, Ht1, Ht2 by (reflexivity || assumption).
  rewrite fval_neg_M_PI in Hv1, Ht1. rewrite fval_M_PI in Hv2, Ht2.
  apply Z.leb_le in Hv1, Hv2, Ht1, Ht2. unfold Mpi in *.
  destruct (sub_error v t Hfv Hft) as [Hf He]; [lia|].
  pose proof (finite_not_nan _ Hf) as Hn.
  rewrite !leb_fval by (reflexivity || assumption).
  rewrite fval_neg_3M_PI, fval_3M_PI. unfold Mpi.
  apply andb_true_intro. split; apply Z.leb_le; lia.
Qed.

(** Then one round of fuel is enough for [control_loop]: on the poses that
    turtlesim reports, the control loop comes to an end and publishes. *)
Lemma control_loop_total atan2 self :
  atan2_in_range atan2 ->
  finite_position self ->
  within (- M_PI) M_PI (theta_current_ self) = true ->
  exists self' msg, forall fuel, control_loop atan2 (S fuel) self = Some (self', msg).
Proof.
  intros Hr Hp Ht. pose proof (raw_angle_error_bounded atan2 self Hr Hp Ht) as Hb.
  unfold within in Hb. apply andb_prop in Hb. destruct Hb as [Hlo Hhi].
  destruct (normalize_angle_one_round _ Hlo Hhi) as (r & Hn & _).
  eexists _, _. intros fuel.
  apply control_loop_eq. apply (normalize_angle_fuel_mono 1 fuel _ r Hn).
Qed.

(** * Part VI: binary64 arithmetic, continued

    Signs, NaN, and rounding to nearest: a sum or difference of two finite
    numbers is within half a unit in the last place of its exact value, and
    rounding never crosses a binary64 number. *)

Module Binary64Rounding.

Local Open Scope Z_scope.

(** ** Signs *)

Lemma SFmul_self_signed x : SFnan x = false -> SFsigned false (SFmul prec emax x x).
Proof.
  destruct x as [s|s| |s m e]; try discriminate; intros _; cbn [SFmul SFsigned].
  - apply xorb_nilpotent.
  - apply xorb_nilpotent.
  - rewrite xorb_nilpotent. apply binary_round_aux_signed. lia.
Qed.

Lemma SFadd_signed x y :
  SFsigned false x -> SFsigned false y -> SFsigned false (SFadd prec emax x y).
Proof.
  destruct x as [sx|sx| |sx mx ex], y as [sy|sy| |sy my ey]; cbn [SFsigned];
    try contradiction; intros -> ->; cbn [SFadd SFsigned]; try reflexivity.
  cbn [cond_Zopp].
  exact (binary_normalize_cases
           (Zpos (fst (shl_align mx ex (Z.min ex ey)))
            + Zpos (fst (shl_align my ey (Z.min ex ey)))) (Z.min ex ey)).
Qed.

Lemma sqrtrem_nonneg m : 0 <= m -> 0 <= fst (Z.sqrtrem m).
Proof.
  intros H. pose proof (Z.sqrtrem_spec m H) as S.
  destruct (Z.sqrtrem m) as [s r]. cbn [fst]. lia.
Qed.

Lemma SFsqrt_signed x : SFsigned false x -> SFsigned false (SFsqrt prec emax x).
Proof.
  destruct x as [s|s| |s m e]; cbn [SFsigned]; try contradiction; intros ->;
    cbn [SFsqrt SFsigned]; try reflexivity.
  unfold SFsqrt_core_binary.
  set (e' := Z.min _ _). set (m' := match e - 2 * e' with Z0 => _ | Zpos _ => _ | Zneg _ => _ end).
  assert (Hm' : 0 <= m').
  { unfold m'. destruct (e - 2 * e'); try lia. apply Z.shiftl_nonneg. lia. }
  pose proof (sqrtrem_nonneg m' Hm') as Hq.
  destruct (Z.sqrtrem m') as [q r]. cbn [fst] in Hq.
  apply binary_round_aux_signed. exact Hq.
Qed.

Lemma SFsigned_false_val r : SFsigned false r -> 0 <= SFval r.
Proof.
  destruct r as [s|s| |s m e]; cbn [SFsigned SFval]; try contradiction; intros ->;
    cbn [cond_Zopp]; lia.
Qed.

(** ** Shifting a significand to the right *)

Lemma shifted_start M : 0 <= M -> shifted M 0 (Build_shr_record M false false).
Proof.
  intros H. split; [exact H|]. exists 0. cbn [shr_m shr_r shr_s]. lia.
Qed.

Lemma shifted_shr_1 M n mrs :
  0 <= n -> shifted M n mrs -> shifted M (n + 1) (shr_1 mrs).
Proof.
  intros Hn (Hm & rem & HM & Hrem & Hloc).
  assert (Hp : 0 < 2 ^ n) by (apply Z.pow_pos_nonneg; lia).
  assert (Hs : 2 ^ (n + 1) = 2 * 2 ^ n) by (rewrite Z.pow_add_r by lia; lia).
  destruct mrs as [m r s]. cbn [shr_m shr_r shr_s] in *.
  assert (Hz : orb r s = false -> rem = 0)
    by (destruct r, s; cbn; intros; try discriminate; assumption).
  assert (Hnz : orb r s = true -> 0 < rem)
    by (destruct r, s; cbn; intros; try discriminate; lia).
  unfold shifted. rewrite Hs.
  destruct m as [|[p|p|]|p]; try lia; cbn [shr_1 shr_m shr_r shr_s].
  - (* 0 *)
    split; [lia|]. exists rem. split; [lia|]. split; [lia|].
    destruct (orb r s) eqn:E; [specialize (Hnz eq_refl)|specialize (Hz eq_refl)]; lia.
  - (* 2p+1 *)
    split; [lia|]. exists (2 ^ n + rem). split; [lia|]. split; [lia|].
    destruct (orb r s) eqn:E; [specialize (Hnz eq_refl)|specialize (Hz eq_refl)]; lia.
  - (* 2p *)
    split; [lia|]. exists rem. split; [lia|]. split; [lia|].
    destruct (orb r s) eqn:E; [specialize (Hnz eq_refl)|specialize (Hz eq_refl)]; lia.
  - (* 1 *)
    split; [lia|]. exists (2 ^ n + rem). split; [lia|]. split; [lia|].
    destruct (orb r s) eqn:E; [specialize (Hnz eq_refl)|specialize (Hz eq_refl)]; lia.
Qed.

Lemma shifted_iter M n :
  0 <= M -> shifted M (Zpos n) (iter_pos shr_1 n (Build_shr_record M false false)).
Proof.
  intros HM. rewrite iter_pos_eq.
  induction n as [|n IH] using Pos.peano_ind.
  - cbn [Pos.iter]. apply (shifted_shr_1 M 0); [lia|]. apply shifted_start, HM.
  - rewrite Pos.iter_succ, Pos2Z.inj_succ. apply shifted_shr_1; [lia|exact IH].
Qed.

(** Rounding the shifted record to nearest. *)
Lemma shifted_round M n mrs :
  0 < n -> shifted M n mrs ->
  let q := round_nearest_even (shr_m mrs) (loc_of_shr_record mrs) in
  (q = shr_m mrs \/ q = shr_m mrs + 1)
  /\ 2 * Z.abs (q * 2 ^ n - M) <= 2 ^ n.
Proof.
  intros Hn (Hm & rem & HM & Hrem & Hloc).
  destruct mrs as [m r s]. cbn [shr_m shr_r shr_s] in *.
  destruct r, s; cbn [loc_of_shr_record round_nearest_even].
  - split; [auto|]. lia.
  - destruct (Z.even m); (split; [auto|]); lia.
  - split; [auto|]. lia.
  - split; [auto|]. lia.
Qed.

(** ** Rounding to nearest *)

(** A significand of more than 53 digits is rounded to nearest: the result
    is within half a unit in the last place of the value, on the grid of
    that unit; or the value lies within half a unit of [2^1024] or beyond
    and the result is an infinity. *)
Lemma binary_round_aux_nearest sx m e :
  -1074 <= e ->
  53 < Zpos (digits2_pos m) ->
  (exists m' t,
      binary_round_aux prec emax sx (Zpos m) e loc_Exact = S754_finite sx m' t
      /\ bounded prec emax m' t = true
      /\ 2 * Z.abs (Zpos m' * 2 ^ (t + 1074) - Zpos m * 2 ^ (e + 1074))
         <= 2 ^ (Zpos (digits2_pos m) - 53 + e + 1074)
      /\ Zpos (digits2_pos m) - 53 + e <= t)
  \/ (binary_round_aux prec emax sx (Zpos m) e loc_Exact = S754_infinity sx
      /\ 2 ^ 2098 - 2 ^ 2044 <= Zpos m * 2 ^ (e + 1074)).
Proof.
  intros He Hd.
  pose proof (digits_bounds m) as Hm.
  set (d := Zpos (digits2_pos m)) in *.
  set (n := d - 53). assert (Hn : 0 < n) by (unfold n; lia).
  assert (Hfexp : fexp prec emax (d + e) = e + n)
    by (unfold fexp, SpecFloat.emin, prec, emax, n; lia).
  remember (binary_round_aux prec emax sx (Zpos m) e loc_Exact) as R eqn:HR.
  unfold binary_round_aux in HR.
  unfold shr_fexp at 1 in HR. cbn [Zdigits2] in HR. fold d in HR. rewrite Hfexp in HR.
  replace (e + n - e) with n in HR by lia.
  destruct n as [|np|np] eqn:En; try lia. rewrite <- En in *.
  unfold shr at 1 in HR. cbn [shr_record_of_loc] in HR. rewrite En in HR.
  pose proof (shifted_iter (Zpos m) np (Pos2Z.is_nonneg m)) as Hsh.
  set (mrs := iter_pos shr_1 np _) in *.
  rewrite <- En in Hsh.
  destruct (shifted_round _ _ _ Hn Hsh) as [Hq' Herr].
  destruct Hsh as (Hq0 & rem & HM & Hrem & _).
  set (q := shr_m mrs) in *.
  set (q' := round_nearest_even q (loc_of_shr_record mrs)) in *.
  assert (Hpn : 0 < 2 ^ n) by (apply Z.pow_pos_nonneg; lia).
  assert (Hsplit : 2 ^ (d - 1) = 2 ^ 52 * 2 ^ n /\ 2 ^ d = 2 ^ 53 * 2 ^ n).
  { split; rewrite <- Z.pow_add_r by lia; f_equal; lia. }
  destruct Hsplit as [Hs1 Hs2]. rewrite Hs1, Hs2 in Hm.
  assert (Hqb : 2 ^ 52 <= q < 2 ^ 53) by nia.
  assert (HE : 0 < 2 ^ (e + 1074)) by (apply Z.pow_pos_nonneg; lia).
  assert (Hpow : 2 ^ (e + Z.pos np + 1074) = 2 ^ n * 2 ^ (e + 1074)).
  { rewrite <- En, <- Z.pow_add_r by lia. f_equal. lia. }
  assert (Hu : 2 ^ (n + e + 1074) = 2 ^ n * 2 ^ (e + 1074)).
  { rewrite <- Z.pow_add_r by lia. f_equal. lia. }
  assert (Hscale : forall k, 2 * Z.abs (k * 2 ^ n - Zpos m) <= 2 ^ n ->
            2 * Z.abs (k * (2 ^ n * 2 ^ (e + 1074)) - Zpos m * 2 ^ (e + 1074))
            <= 2 ^ n * 2 ^ (e + 1074)).
  { intros k Hk.
    replace (k * (2 ^ n * 2 ^ (e + 1074)) - Zpos m * 2 ^ (e + 1074))
      with ((k * 2 ^ n - Zpos m) * 2 ^ (e + 1074)) by ring.
    rewrite Z.abs_mul, (Z.abs_eq (2 ^ (e + 1074))) by lia.
    rewrite Z.mul_assoc. apply Z.mul_le_mono_nonneg_r; lia. }
  rewrite Hu. unfold shr_fexp, shr in HR. cbn [shr_record_of_loc] in HR.
  destruct (Z_lt_ge_dec q' (2 ^ 53)) as [Hlt|Hge].
  - (* no carry *)
    assert (Hq'pos : 0 < q') by lia.
    destruct q' as [|p'|p'] eqn:Ep'; try lia.
    assert (Hdp : Zpos (digits2_pos p') = 53) by (apply digits_unique; lia).
    replace (fexp prec emax (Zdigits2 (Zpos p') + (e + Zpos np)) - (e + Zpos np)) with 0
      in HR
      by (cbn [Zdigits2]; rewrite Hdp; unfold fexp, SpecFloat.emin, prec, emax; lia).
    cbn [shr_m] in HR. subst R.
    destruct (e + Zpos np <=? emax - prec) eqn:Hb.
    + left. apply Z.leb_le in Hb. unfold emax, prec in Hb.
      exists p', (e + Zpos np). split; [reflexivity|]. split; [|split].
      * unfold bounded, canonical_mantissa. rewrite Hdp.
        unfold fexp, SpecFloat.emin, prec, emax.
        apply andb_true_intro. split; [apply Z.eqb_eq|apply Z.leb_le]; lia.
      * rewrite Hpow. apply Hscale. exact Herr.
      * lia.
    + right. split; [reflexivity|]. apply Z.leb_gt in Hb. unfold emax, prec in Hb.
      assert (H1 : 2 ^ 2098 <= 2 ^ (52 + (n + (e + 1074)))) by (apply Z.pow_le_mono_r; lia).
      rewrite (Z.pow_add_r 2 52), (Z.pow_add_r 2 n) in H1 by lia.
      assert (H2 : 2 ^ 52 * 2 ^ n * 2 ^ (e + 1074) <= Zpos m * 2 ^ (e + 1074))
        by (apply Z.mul_le_mono_nonneg_r; lia).
      rewrite <- Z.mul_assoc in H2.
      assert (0 < 2 ^ 2044) by reflexivity. lia.
  - (* the carry reaches a new binade *)
    assert (Hq2 : q' = 2 ^ 53) by lia.
    rewrite Hq2 in *.
    change (2 ^ 53) with (Zpos 9007199254740992) in HR.
    replace (fexp prec emax (Zdigits2 (Zpos 9007199254740992) + (e + Zpos np)) - (e + Zpos np))
      with 1 in HR
      by (change (Zdigits2 (Zpos 9007199254740992)) with 54;
          unfold fexp, SpecFloat.emin, prec, emax; lia).
    cbn [iter_pos shr_1 shr_m] in HR. subst R.
    destruct (e + Zpos np + 1 <=? emax - prec) eqn:Hb.
    + left. apply Z.leb_le in Hb. unfold emax, prec in Hb.
      exists 4503599627370496%positive, (e + Zpos np + 1). split; [reflexivity|].
      split; [|split].
      * unfold bounded, canonical_mantissa.
        change (Zpos (digits2_pos 4503599627370496)) with 53.
        unfold fexp, SpecFloat.emin, prec, emax.
        apply andb_true_intro. split; [apply Z.eqb_eq|apply Z.leb_le]; lia.
      * replace (e + Z.pos np + 1 + 1074) with (Z.succ (e + Z.pos np + 1074)) by lia.
        rewrite Z.pow_succ_r, Hpow by lia.
        replace (Z.pos 4503599627370496 * (2 * (2 ^ n * 2 ^ (e + 1074))))
          with (2 ^ 53 * (2 ^ n * 2 ^ (e + 1074)))
          by (change (2 ^ 53) with (Zpos 4503599627370496 * 2); ring).
        apply Hscale. exact Herr.
      * lia.
    + right. split; [reflexivity|]. apply Z.leb_gt in Hb. unfold emax, prec in Hb.
      assert (Hk : 2 ^ 2044 <= 2 ^ (n - 1 + (e + 1074))) by (apply Z.pow_le_mono_r; lia).
      assert (Hn1 : 2 ^ n = 2 * 2 ^ (n - 1)).
      { rewrite <- Z.pow_succ_r by lia. f_equal. lia. }
      rewrite Z.pow_add_r in Hk by lia.
      assert (0 < 2 ^ (n - 1)) by (apply Z.pow_pos_nonneg; lia).
      change (2 ^ 2098) with (2 ^ 54 * 2 ^ 2044).
      assert (H1 : (2 ^ 54 - 1) * 2 ^ (n - 1) <= Zpos m) by lia.
      assert (H2 : (2 ^ 54 - 1) * (2 ^ (n - 1) * 2 ^ (e + 1074)) <= Zpos m * 2 ^ (e + 1074)).
      { rewrite Z.mul_assoc. apply Z.mul_le_mono_nonneg_r; lia. }
      lia.
Qed.

Lemma pow2_lt_inv a c : 0 <= c -> 2 ^ a < 2 ^ c -> a < c.
Proof. intros Hc H. apply (Z.pow_lt_mono_r_iff 2); [lia|exact Hc|exact H]. Qed.

(** The same for [binary_round], whatever the number of digits. *)
Lemma binary_round_nearest sx m e :
  -1074 <= e <= 971 ->
  (exists m' t,
      binary_round prec emax sx m e = S754_finite sx m' t
      /\ bounded prec emax m' t = true
      /\ (forall b, 53 <= b -> Zpos m * 2 ^ (e + 1074) < 2 ^ b ->
          2 * Z.abs (Zpos m' * 2 ^ (t + 1074) - Zpos m * 2 ^ (e + 1074)) <= 2 ^ (b - 53))
      /\ (forall b, 53 <= b -> 2 ^ (b - 1) <= Zpos m * 2 ^ (e + 1074) ->
          exists k, Zpos m' * 2 ^ (t + 1074) = k * 2 ^ (b - 53)))
  \/ (binary_round prec emax sx m e = S754_infinity sx
      /\ 2 ^ 2098 - 2 ^ 2044 <= Zpos m * 2 ^ (e + 1074)).
Proof.
  intros He.
  assert (HE : 0 < 2 ^ (e + 1074)) by (apply Z.pow_pos_nonneg; lia).
  pose proof (digits_bounds m) as Hm.
  set (d := Zpos (digits2_pos m)) in *.
  assert (Hd0 : 0 < d) by (unfold d; lia).
  assert (Hlo : 2 ^ (d - 1 + (e + 1074)) <= Zpos m * 2 ^ (e + 1074)).
  { rewrite Z.pow_add_r by lia. apply Z.mul_le_mono_nonneg_r; lia. }
  assert (Hhi : Zpos m * 2 ^ (e + 1074) < 2 ^ (d + (e + 1074))).
  { rewrite (Z.pow_add_r 2 d (e + 1074)) by lia. apply Z.mul_lt_mono_pos_r; lia. }
  destruct (Z_le_gt_dec d 53) as [Hd|Hd].
  - left.
    destruct (binary_round_exact sx m e) as (m' & t & H1 & H2 & H3); [lia| |].
    { exists (Zpos m), (e + 1074). rewrite Z.abs_eq by lia.
      repeat split; try lia.
      - eapply Z.lt_le_trans; [apply Hm|]. apply Z.pow_le_mono_r; lia.
      - assert (2 ^ (d + (e + 1074)) <= 2 ^ 2098) by (apply Z.pow_le_mono_r; lia). lia. }
    exists m', t. split; [exact H1|]. split; [exact H2|]. rewrite H3. split.
    + intros b Hb _. rewrite Z.sub_diag. cbn [Z.abs].
      assert (0 < 2 ^ (b - 53)) by (apply Z.pow_pos_nonneg; lia). lia.
    + intros b Hb HV.
      assert (Hbd : b - 1 < d + (e + 1074)) by (apply pow2_lt_inv; lia).
      exists (Zpos m * 2 ^ (e + 1074 - (b - 53))).
      rewrite <- Z.mul_assoc, <- Z.pow_add_r by lia. do 2 f_equal. lia.
  - unfold binary_round. fold d.
    rewrite shl_align_gt by (unfold fexp, SpecFloat.emin, prec, emax; lia).
    destruct (binary_round_aux_nearest sx m e) as [(m' & t & H1 & H2 & H3 & H4)|[H1 H2]];
      [lia|unfold d in Hd; lia| |].
    + left. fold d in H3, H4. exists m', t. split; [exact H1|]. split; [exact H2|]. split.
      * intros b Hb HV.
        assert (Hbd : d - 1 + (e + 1074) < b) by (apply pow2_lt_inv; lia).
        etransitivity; [exact H3|]. apply Z.pow_le_mono_r; lia.
      * intros b Hb HV.
        assert (Hbd : b - 1 < d + (e + 1074)) by (apply pow2_lt_inv; lia).
        exists (Zpos m' * 2 ^ (t + 1074 - (b - 53))).
        rewrite <- Z.mul_assoc, <- Z.pow_add_r by lia. do 2 f_equal. lia.
    + right. split; assumption.
Qed.

Lemma binary_normalize_rounded z e :
  -1074 <= e <= 971 ->
  rounded (z * 2 ^ (e + 1074)) (binary_normalize prec emax z e false)
  /\ valid_binary (binary_normalize prec emax z e false) = true.
Proof.
  intros He.
  assert (HE : 0 < 2 ^ (e + 1074)) by (apply Z.pow_pos_nonneg; lia).
  destruct z as [|m|m]; cbn [binary_normalize].
  - split; [|reflexivity]. left. cbn [SFfinite SFval Z.mul Z.abs]. split; [reflexivity|]. split.
    + intros b Hb _. cbn.
      assert (0 < 2 ^ (b - 53)) by (apply Z.pow_pos_nonneg; lia). lia.
    + intros b Hb H. assert (0 < 2 ^ (b - 1)) by (apply Z.pow_pos_nonneg; lia). lia.
  - assert (Hp : 0 < Zpos m * 2 ^ (e + 1074)) by (apply Z.mul_pos_pos; lia).
    destruct (binary_round_nearest false m e He) as [(m' & t & -> & H2 & H3 & H4)|[-> H2]].
    + split; [|exact H2]. left. cbn [SFfinite SFval cond_Zopp]. split; [reflexivity|].
      rewrite (Z.abs_eq (Zpos m * _)) by lia. split; assumption.
    + split; [|reflexivity]. right.
      replace (Zpos m * 2 ^ (e + 1074) <? 0) with false by (symmetry; apply Z.ltb_ge; lia).
      rewrite Z.abs_eq by lia. split; [reflexivity|assumption].
  - assert (Hp : 0 < Zpos m * 2 ^ (e + 1074)) by (apply Z.mul_pos_pos; lia).
    assert (Hneg : Z.neg m * 2 ^ (e + 1074) = - (Zpos m * 2 ^ (e + 1074)))
      by (change (Z.neg m) with (- Zpos m); ring).
    rewrite Hneg.
    destruct (binary_round_nearest true m e He) as [(m' & t & -> & H2 & H3 & H4)|[-> H2]].
    + split; [|exact H2]. left. cbn [SFfinite SFval cond_Zopp]. split; [reflexivity|].
      rewrite Z.abs_opp, (Z.abs_eq (Zpos m * _)) by lia. split.
      * intros b Hb HV. specialize (H3 b Hb HV).
        replace (- (Z.pos m' * 2 ^ (t + 1074)) - - (Z.pos m * 2 ^ (e + 1074)))
          with (- (Z.pos m' * 2 ^ (t + 1074) - Z.pos m * 2 ^ (e + 1074))) by ring.
        rewrite Z.abs_opp. exact H3.
      * intros b Hb HV. destruct (H4 b Hb HV) as [k Hk]. exists (- k). rewrite Hk. ring.
    + split; [|reflexivity]. right.
      replace (- (Zpos m * 2 ^ (e + 1074)) <? 0) with true by (symmetry; apply Z.ltb_lt; lia).
      rewrite Z.abs_opp, Z.abs_eq by lia. split; [reflexivity|assumption].
Qed.

(** A binary64 number of magnitude [2^(b-1)] or more is on the grid of
    [2^(b-53)]. *)
Lemma SFgrid x b :
  valid_binary x = true -> SFfinite x = true -> 53 <= b ->
  2 ^ (b - 1) <= Z.abs (SFval x) -> exists k, SFval x = k * 2 ^ (b - 53).
Proof.
  destruct x as [s| | |s m e]; try discriminate; cbn [SFval valid_binary]; intros V _ Hb H.
  - exists 0. reflexivity.
  - apply bounded_inv in V. destruct V as (He & Hm & _).
    assert (HE : 0 < 2 ^ (e + 1074)) by (apply Z.pow_pos_nonneg; lia).
    assert (Habs : Z.abs (cond_Zopp s (Z.pos m * 2 ^ (e + 1074))) = Z.pos m * 2 ^ (e + 1074))
      by (destruct s; cbn [cond_Zopp]; lia).
    rewrite Habs in H.
    assert (Hje : b - 53 <= e + 1074).
    { destruct (Z_le_gt_dec (b - 53) (e + 1074)) as [|Hgt]; [assumption|exfalso].
      assert (2 ^ (e + 1074) <= 2 ^ (b - 54)) by (apply Z.pow_le_mono_r; lia).
      assert (2 ^ (b - 1) = 2 ^ 53 * 2 ^ (b - 54))
        by (rewrite <- Z.pow_add_r by lia; f_equal; lia).
      nia. }
    exists (cond_Zopp s (Z.pos m * 2 ^ (e + 1074 - (b - 53)))).
    rewrite cond_Zopp_mul, <- Z.mul_assoc, <- Z.pow_add_r by lia.
    do 3 f_equal. lia.
Qed.

(** A binary64 number is its own rounding. *)
Lemma rounded_exact x : valid_binary x = true -> SFfinite x = true -> rounded (SFval x) x.
Proof.
  intros V F. left. split; [exact F|]. split.
  - intros b Hb _. rewrite Z.sub_diag. cbn [Z.abs].
    assert (0 < 2 ^ (b - 53)) by (apply Z.pow_pos_nonneg; lia). lia.
  - intros b Hb H. apply SFgrid; assumption.
Qed.

Lemma SFval_opp x : SFval (SFopp x) = - SFval x.
Proof. destruct x as [[]|[]| |[] m e]; cbn; lia. Qed.

Lemma SFadd_rounded x y :
  valid_binary x = true -> valid_binary y = true ->
  SFfinite x = true -> SFfinite y = true ->
  rounded (SFval x + SFval y) (SFadd prec emax x y).
Proof.
  destruct x as [sx| | |sx mx ex], y as [sy| | |sy my ey]; try discriminate;
    intros Vx Vy _ _.
  - replace (SFadd prec emax (S754_zero sx) (S754_zero sy)) with (S754_zero (andb sx sy))
      by (destruct sx, sy; reflexivity).
    apply (rounded_exact (S754_zero (andb sx sy))); reflexivity.
  - cbn [SFadd]. replace (SFval (S754_zero sx)) with 0 by reflexivity. rewrite Z.add_0_l.
    apply rounded_exact; [exact Vy|reflexivity].
  - cbn [SFadd]. replace (SFval (S754_zero sy)) with 0 by reflexivity. rewrite Z.add_0_r.
    apply rounded_exact; [exact Vx|reflexivity].
  - cbn [valid_binary] in Vx, Vy.
    destruct (SFadd_finite sx mx ex sy my ey Vx Vy) as (z & -> & Hz).
    rewrite <- Hz. apply binary_normalize_rounded.
    apply bounded_inv in Vx, Vy. lia.
Qed.

Lemma SFsub_rounded x y :
  valid_binary x = true -> valid_binary y = true ->
  SFfinite x = true -> SFfinite y = true ->
  rounded (SFval x - SFval y) (SFsub prec emax x y).
Proof.
  destruct x as [sx| | |sx mx ex], y as [sy| | |sy my ey]; try discriminate;
    intros Vx Vy _ _.
  - replace (SFsub prec emax (S754_zero sx) (S754_zero sy))
      with (S754_zero (andb sx (negb sy))) by (destruct sx, sy; reflexivity).
    apply (rounded_exact (S754_zero (andb sx (negb sy)))); reflexivity.
  - cbn [SFsub]. replace (SFval (S754_zero sx)) with 0 by reflexivity. rewrite Z.sub_0_l.
    change (S754_finite (negb sy) my ey) with (SFopp (S754_finite sy my ey)).
    rewrite <- SFval_opp. apply rounded_exact; [exact Vy|reflexivity].
  - cbn [SFsub]. replace (SFval (S754_zero sy)) with 0 by reflexivity. rewrite Z.sub_0_r.
    apply rounded_exact; [exact Vx|reflexivity].
  - cbn [valid_binary] in Vx, Vy.
    destruct (SFsub_finite sx mx ex sy my ey Vx Vy) as (z & -> & Hz).
    rewrite <- Hz. apply binary_normalize_rounded.
    apply bounded_inv in Vx, Vy. lia.
Qed.

(** Short of the overflow threshold the rounded number is finite. *)
Lemma rounded_finite V r b :
  rounded V r -> 53 <= b <= 2097 -> Z.abs V < 2 ^ b ->
  SFfinite r = true /\ 2 * Z.abs (SFval r - V) <= 2 ^ (b - 53).
Proof.
  intros [(F & E & _)|[_ H]] Hb HV.
  - split; [exact F|]. apply E; lia.
  - exfalso. assert (2 ^ b <= 2 ^ 2097) by (apply Z.pow_le_mono_r; lia). lia.
Qed.

(** The number of binary digits of [V], and 53 at least. *)
Lemma bits V :
  exists b, 53 <= b /\ Z.abs V < 2 ^ b /\ (b = 53 \/ 2 ^ (b - 1) <= Z.abs V).
Proof.
  destruct (Z_lt_le_dec (Z.abs V) (2 ^ 53)) as [H|H].
  - exists 53. auto with zarith.
  - pose proof (Z.log2_spec (Z.abs V)) as L.
    assert (53 < Z.succ (Z.log2 (Z.abs V))).
    { apply pow2_lt_inv; [pose proof (Z.log2_nonneg (Z.abs V)); lia|]. lia. }
    exists (Z.succ (Z.log2 (Z.abs V))). split; [lia|]. split; [lia|]. right.
    replace (Z.succ (Z.log2 (Z.abs V)) - 1) with (Z.log2 (Z.abs V)) by lia. lia.
Qed.

(** Rounding does not cross a binary64 number: a number at or above the
    value stays at or above it after rounding, and likewise below. *)
Lemma rounded_le_l V r f :
  rounded V r -> valid_binary f = true -> SFfinite f = true ->
  SFval f <= V -> SFval f <= SFval r.
Proof.
  intros HR Vf Ff Hle.
  assert (Hfb : Z.abs (SFval f) < 2 ^ 2098).
  { destruct f as [s| | |s m e]; try discriminate; cbn [SFval].
    - cbn. lia.
    - pose proof (finite_val_bound _ _ Vf). destruct s; cbn [cond_Zopp]; lia. }
  destruct HR as [(F & E & G)|[-> H]].
  - clear Hfb. destruct (bits V) as (b & Hb & Hlt & Hbits).
    specialize (E b Hb Hlt).
    assert (HU : 0 < 2 ^ (b - 53)) by (apply Z.pow_pos_nonneg; lia).
    destruct Hbits as [->|Hge].
    + change (2 ^ (53 - 53)) with 1 in E. lia.
    + assert (Hhalf : 2 ^ (b - 1) = 2 ^ 52 * 2 ^ (b - 53))
        by (rewrite <- Z.pow_add_r by lia; f_equal; lia).
      destruct (G b Hb Hge) as [k Hk].
      destruct (Z_le_gt_dec (2 ^ (b - 1)) (Z.abs (SFval f))) as [Hf|Hf].
      * destruct (SFgrid f b Vf Ff Hb Hf) as [kf Hkf].
        rewrite Hk, Hkf in *. clear Hlt Hge Hf Hhalf.
        set (U := 2 ^ (b - 53)) in *. clearbody U.
        apply Z.mul_le_mono_nonneg_r; [lia|].
        destruct (Z_le_gt_dec kf k) as [|Hgt]; [assumption|exfalso].
        assert ((k + 1) * U <= kf * U) by (apply Z.mul_le_mono_nonneg_r; lia). lia.
      * rewrite Hk in *. rewrite Hhalf in Hge, Hf. clear Hlt Hhalf.
        set (U := 2 ^ (b - 53)) in *. clearbody U.
        destruct (Z_le_gt_dec 0 V) as [HV0|HV0]; [|lia].
        destruct (Z_le_gt_dec (2 ^ 52) k) as [Hk52|Hk52].
        -- assert (2 ^ 52 * U <= k * U) by (apply Z.mul_le_mono_nonneg_r; lia). lia.
        -- exfalso.
           assert (k * U <= (2 ^ 52 - 1) * U) by (apply Z.mul_le_mono_nonneg_r; lia). lia.
  - destruct (Z.ltb_spec V 0) as [Hneg|Hpos]; cbn [SFval cond_Zopp].
    + exfalso.
      assert (Hf : 2 ^ (2098 - 1) <= Z.abs (SFval f)) by lia.
      destruct (SFgrid f 2098 Vf Ff ltac:(lia) Hf) as [kf Hkf].
      clear Hf. rewrite Hkf in Hfb, Hle. clear Hkf.
      change (2 ^ (2098 - 53)) with (2 * 2 ^ 2044) in Hfb, Hle.
      change (2 ^ 2098) with (2 ^ 54 * 2 ^ 2044) in Hfb, H.
      assert (HP : 0 < 2 ^ 2044) by reflexivity.
      revert HP Hfb Hle H. generalize (2 ^ 2044). intros P HP Hfb Hle H.
      destruct (Z_le_gt_dec kf (- 2 ^ 53)) as [Hk|Hk].
      * assert (kf * P <= - 2 ^ 53 * P) by (apply Z.mul_le_mono_nonneg_r; lia). lia.
      * assert ((- 2 ^ 53 + 1) * P <= kf * P) by (apply Z.mul_le_mono_nonneg_r; lia). lia.
    + lia.
Qed.

Lemma rounded_opp V r : rounded V r -> rounded (- V) (SFopp r).
Proof.
  intros [(F & E & G)|[-> H]].
  - left. split; [destruct r; auto|]. rewrite SFval_opp. split.
    + intros b Hb HV. rewrite Z.abs_opp in HV.
      replace (- SFval r - - V) with (- (SFval r - V)) by ring. rewrite Z.abs_opp. auto.
    + intros b Hb HV. rewrite Z.abs_opp in HV. destruct (G b Hb HV) as [k Hk].
      exists (- k). rewrite Hk. ring.
  - right. rewrite Z.abs_opp. split; [|exact H]. cbn [SFopp]. f_equal.
    destruct (Z.ltb_spec V 0), (Z.ltb_spec (- V) 0); try reflexivity; lia.
Qed.

Lemma rounded_le_r V r f :
  rounded V r -> valid_binary f = true -> SFfinite f = true ->
  V <= SFval f -> SFval r <= SFval f.
Proof.
  intros HR Vf Ff Hle.
  pose proof (rounded_le_l (- V) (SFopp r) (SFopp f) (rounded_opp _ _ HR)) as H.
  rewrite !SFval_opp in H.
  cut (- SFval f <= - SFval r); [lia|]. apply H.
  - destruct f; assumption.
  - destruct f; assumption.
  - lia.
Qed.

Lemma SFval_finite_bound x :
  valid_binary x = true -> SFfinite x = true -> (Z.abs (SFval x) < 2 ^ 2098)%Z.
Proof.
  destruct x as [s| | |s m e]; try discriminate; cbn [SFval valid_binary]; intros V _.
  - cbn. lia.
  - pose proof (finite_val_bound _ _ V). destruct s; cbn [cond_Zopp]; lia.
Qed.

(** Adding a number that is not negative does not give less. *)
Lemma SFadd_ge x d :
  valid_binary x = true -> valid_binary d = true ->
  SFnan (SFadd prec emax x d) = false -> (0 <= SFval d)%Z ->
  (SFval x <= SFval (SFadd prec emax x d))%Z.
Proof.
  intros Vx Vd Hn Hd.
  destruct (SFfinite x) eqn:Fx, (SFfinite d) eqn:Fd.
  - apply (rounded_le_l _ _ x (SFadd_rounded x d Vx Vd Fx Fd) Vx Fx). lia.
  - pose proof (SFval_finite_bound x Vx Fx) as Bx.
    destruct d as [sd|[]| |sd md ed]; try discriminate.
    + cbn in Hd. lia.
    + replace (SFadd prec emax x (S754_infinity false)) with (S754_infinity false)
        by (destruct x; try discriminate; reflexivity).
      change (SFval (S754_infinity false)) with (2 ^ 2100)%Z. lia.
    + destruct x; discriminate.
  - destruct x as [sx|sx| |sx mx ex]; try discriminate.
    destruct d as [sd| | |sd md ed]; try discriminate; cbn [SFadd]; lia.
  - destruct x as [sx|sx| |sx mx ex]; try discriminate.
    destruct d as [sd|sd| |sd md ed]; try discriminate.
    destruct sx, sd; cbn in Hn, Hd |- *; try discriminate; lia.
Qed.

(** Multiplying by 4 is exact, short of overflow, also below the normal
    range. *)
Lemma mul_4_fval (v : float) :
  is_finite v = true -> Z.abs (fval v) < 2 ^ 2096 ->
  is_finite (4 * v)%float = true /\ fval (4 * v)%float = 4 * fval v.
Proof.
  intros Hf Hv.
  destruct (Z_le_gt_dec (2 ^ 52) (Z.abs (fval v))) as [Hn|Hs].
  { apply mul_4_exact; [exact Hf|lia]. }
  revert Hf Hs. clear Hv.
  rewrite !is_finite_spec. unfold fval. rewrite mul_spec.
  change (Prim2SF 4) with (S754_finite false 4503599627370496 (-50)).
  pose proof (Prim2SF_valid v) as V.
  destruct (Prim2SF v) as [s| | |s m e]; try discriminate; intros _.
  - intros _. cbn. split; reflexivity.
  - cbn [valid_binary] in V. pose proof (digits_bounds m) as Hd.
    assert (V' := V). unfold bounded, canonical_mantissa in V'.
    apply andb_prop in V'. destruct V' as [Hc _]. apply Z.eqb_eq in Hc.
    apply bounded_inv in V. destruct V as (He & Hm & Hn).
    cbn [SFval]. intros Hv.
    assert (HE : 0 < 2 ^ (e + 1074)) by (apply Z.pow_pos_nonneg; lia).
    assert (Habs : Z.abs (cond_Zopp s (Z.pos m * 2 ^ (e + 1074))) = Z.pos m * 2 ^ (e + 1074))
      by (destruct s; cbn [cond_Zopp]; lia).
    rewrite Habs in Hv.
    assert (He' : e = -1074) by (destruct Hn as [->|Hn]; [reflexivity|nia]).
    subst e. change (2 ^ (-1074 + 1074)) with 1 in *. rewrite Z.mul_1_r in *.
    set (d := Zpos (digits2_pos m)) in *.
    assert (Hd52 : 0 < d <= 52).
    { split; [unfold d; lia|]. destruct (Z_le_gt_dec d 52); [assumption|exfalso].
      assert (2 ^ 52 <= 2 ^ (d - 1)) by (apply Z.pow_le_mono_r; lia). lia. }
    unfold SF64mul, SFmul. cbn [xorb].
    replace (Z.pos (4503599627370496 * m)) with (Zpos m * 2 ^ 52)
      by (rewrite Pos2Z.inj_mul; change (2 ^ 52) with 4503599627370496; lia).
    assert (Hlog : Z.log2 (Zpos m) = d - 1) by (unfold d; rewrite digits2_pos_log2; lia).
    destruct (Z.eq_dec d 52) as [Hd'|Hd'].
    + (* the product reaches the normal range *)
      replace (Zpos m * 2 ^ 52) with (Zpos (m * 2) * 2 ^ 51)
        by (rewrite Pos2Z.inj_mul; change (2 ^ 52) with (2 * 2 ^ 51); lia).
      rewrite binary_round_aux_shift.
      2: lia.
      2:{ rewrite Zdigits2_log2 by lia. rewrite Z.log2_mul_pow2 by lia.
          rewrite Pos2Z.inj_mul. replace (Zpos m * Zpos 2) with (2 * Zpos m) by lia.
          rewrite Z.log2_double by lia. rewrite Hlog.
          unfold fexp, SpecFloat.emin, prec, emax. lia. }
      cbn [Z.leb]. replace (-50 + -1074 + 51 <=? emax - prec) with true by reflexivity.
      cbn [SFfinite SFval]. split; [reflexivity|].
      replace (-50 + -1074 + 51 + 1074) with 1 by lia.
      rewrite Pos2Z.inj_mul. destruct s; cbn [cond_Zopp]; lia.
    + replace (Zpos m * 2 ^ 52) with (Zpos (m * 4) * 2 ^ 50)
        by (rewrite Pos2Z.inj_mul; change (2 ^ 52) with (4 * 2 ^ 50); lia).
      rewrite binary_round_aux_shift.
      2: lia.
      2:{ rewrite Zdigits2_log2 by lia. rewrite Z.log2_mul_pow2 by lia.
          rewrite Pos2Z.inj_mul. replace (Zpos m * Zpos 4) with (Zpos m * 2 ^ 2) by lia.
          rewrite Z.log2_mul_pow2 by lia. rewrite Hlog.
          unfold fexp, SpecFloat.emin, prec, emax. lia. }
      replace (-50 + -1074 + 50 <=? emax - prec) with true by reflexivity.
      cbn [SFfinite SFval]. split; [reflexivity|].
      replace (-50 + -1074 + 50 + 1074) with 0 by lia.
      rewrite Pos2Z.inj_mul. destruct s; cbn [cond_Zopp]; lia.
Qed.

(** ** The primitive operations *)

Local Open Scope float_scope.

Lemma nonnegative_not_nan x : nonnegative x -> is_nan x = false.
Proof. rewrite is_nan_spec. apply SFsigned_not_nan. Qed.

Lemma nonnegative_leb x : nonnegative x -> (0 <=? x) = true.
Proof.
  intros H. pose proof (nonnegative_not_nan x H) as Hn.
  rewrite leb_fval by (reflexivity || assumption).
  apply Z.leb_le. apply (SFsigned_false_val _ H).
Qed.

Lemma mul_self_nonnegative x : is_nan x = false -> nonnegative (x * x).
Proof.
  rewrite is_nan_spec. unfold nonnegative. rewrite mul_spec. apply SFmul_self_signed.
Qed.

Lemma add_nonnegative x y : nonnegative x -> nonnegative y -> nonnegative (x + y).
Proof. unfold nonnegative. rewrite add_spec. apply SFadd_signed. Qed.

Lemma sqrt_nonnegative x : nonnegative x -> nonnegative (std.sqrt x).
Proof. unfold nonnegative, std.sqrt. rewrite sqrt_spec. apply SFsqrt_signed. Qed.

(** NaN propagates through every operation. *)
Lemma sub_nan_l x y : is_nan x = true -> is_nan (x - y) = true.
Proof.
  rewrite !is_nan_spec, sub_spec. destruct (Prim2SF x); try discriminate. reflexivity.
Qed.

Lemma sub_nan_r x y : is_nan y = true -> is_nan (x - y) = true.
Proof.
  rewrite !is_nan_spec, sub_spec.
  destruct (Prim2SF y); try discriminate. destruct (Prim2SF x); reflexivity.
Qed.

Lemma add_nan_l x y : is_nan x = true -> is_nan (x + y) = true.
Proof.
  rewrite !is_nan_spec, add_spec. destruct (Prim2SF x); try discriminate. reflexivity.
Qed.

Lemma add_nan_r x y : is_nan y = true -> is_nan (x + y) = true.
Proof.
  rewrite !is_nan_spec, add_spec.
  destruct (Prim2SF y); try discriminate. destruct (Prim2SF x); reflexivity.
Qed.

Lemma mul_nan_l x y : is_nan x = true -> is_nan (x * y) = true.
Proof.
  rewrite !is_nan_spec, mul_spec. destruct (Prim2SF x); try discriminate. reflexivity.
Qed.

Lemma sqrt_nan x : is_nan x = true -> is_nan (std.sqrt x) = true.
Proof.
  unfold std.sqrt. rewrite !is_nan_spec, sqrt_spec.
  destruct (Prim2SF x); try discriminate. reflexivity.
Qed.

(** A number that is not NaN is not negative exactly when it does not
    compare below zero, the zero with the sign bit set aside. *)
Lemma not_ltb_zero x :
  (x <? 0) = false <->
  is_nan x = true \/ nonnegative x \/ Prim2SF x = S754_zero true.
Proof.
  unfold nonnegative. rewrite is_nan_spec, ltb_spec.
  change (Prim2SF 0) with (S754_zero false).
  destruct (Prim2SF x) as [[]|[]| |[] m e]; cbn; split; auto; try discriminate;
    intros [H|[H|H]]; discriminate.
Qed.

(** Multiplying by one changes nothing. *)
Lemma mul_one_l x : 1 * x = x.
Proof.
  apply Prim2SF_inj. rewrite mul_spec.
  change (Prim2SF 1) with (S754_finite false 4503599627370496 (-52)).
  pose proof (Prim2SF_valid x) as V.
  destruct (Prim2SF x) as [s|s| |s m e]; try reflexivity.
  cbn [valid_binary] in V. unfold SF64mul, SFmul. cbn [xorb].
  replace (Z.pos (4503599627370496 * m)) with (Zpos m * 2 ^ 52)%Z
    by (rewrite Pos2Z.inj_mul; change (2 ^ 52)%Z with 4503599627370496%Z; lia).
  assert (V' := V). unfold bounded in V'. apply andb_prop in V'. destruct V' as [Hc Hb].
  unfold canonical_mantissa in Hc. apply Z.eqb_eq in Hc.
  rewrite binary_round_aux_shift.
  - replace (-52 + e + 52)%Z with e by lia. rewrite Hb. reflexivity.
  - lia.
  - rewrite Zdigits2_log2 by lia. rewrite Z.log2_mul_pow2 by lia.
    rewrite digits2_pos_log2 in Hc.
    replace (52 + Z.log2 (Z.pos m) + 1 + (-52 + e))%Z with (Z.log2 (Z.pos m) + 1 + e)%Z by lia.
    rewrite Hc. lia.
Qed.

(** Zero times a finite number is a zero. *)
Lemma mul_0_finite x :
  is_finite x = true -> exists s, Prim2SF (0 * x) = S754_zero s.
Proof.
  rewrite is_finite_spec, mul_spec. change (Prim2SF 0) with (S754_zero false).
  destruct (Prim2SF x) as [s|s| |s m e]; try discriminate; intros _;
    cbn [SF64mul SFmul]; eexists; reflexivity.
Qed.

(** Adding a zero to a number that is not [-0] changes nothing. *)
Lemma add_zero_r x z s :
  Prim2SF z = S754_zero s ->
  is_nan x = true \/ nonnegative x ->
  x + z = x.
Proof.
  unfold nonnegative. rewrite is_nan_spec. intros Hz Hx.
  apply Prim2SF_inj. rewrite add_spec, Hz.
  destruct (Prim2SF x) as [sx|sx| |sx m e]; cbn [SFsigned SFnan] in Hx.
  - destruct Hx as [Hx|Hx]; [discriminate|]. subst sx. destruct s; reflexivity.
  - reflexivity.
  - reflexivity.
  - reflexivity.
Qed.

(** Zero times an infinity or NaN is NaN. *)
Lemma mul_0_not_finite x : is_finite x = false -> is_nan (0 * x) = true.
Proof.
  rewrite is_finite_spec, is_nan_spec, mul_spec. change (Prim2SF 0) with (S754_zero false).
  destruct (Prim2SF x) as [s|s| |s m e]; try discriminate; reflexivity.
Qed.

Lemma add_finite_inv x y :
  is_finite (x + y) = true -> is_finite x = true /\ is_finite y = true.
Proof.
  rewrite !is_finite_spec, add_spec.
  destruct (Prim2SF x) as [sx|sx| |sx mx ex], (Prim2SF y) as [sy|sy| |sy my ey];
    cbn [SF64add SFadd SFfinite]; auto; try discriminate;
    destruct sx, sy; cbn; auto; discriminate.
Qed.

Lemma add_rounded x y :
  is_finite x = true -> is_finite y = true ->
  rounded (fval x + fval y) (Prim2SF (x + y)).
Proof.
  rewrite !is_finite_spec, add_spec. intros Hx Hy.
  apply SFadd_rounded; auto using Prim2SF_valid.
Qed.

Lemma sub_rounded x y :
  is_finite x = true -> is_finite y = true ->
  rounded (fval x - fval y) (Prim2SF (x - y)).
Proof.
  rewrite !is_finite_spec, sub_spec. intros Hx Hy.
  apply SFsub_rounded; auto using Prim2SF_valid.
Qed.

Lemma add_ge (x d : float) :
  is_nan (x + d) = false -> (d <? 0) = false -> (x <=? x + d) = true.
Proof.
  intros Hn Hd.
  assert (Hnx : is_nan x = false).
  { destruct (is_nan x) eqn:E; [|reflexivity]. rewrite add_nan_l in Hn by exact E. discriminate. }
  assert (Hnd : is_nan d = false).
  { destruct (is_nan d) eqn:E; [|reflexivity]. rewrite add_nan_r in Hn by exact E. discriminate. }
  rewrite leb_fval by assumption. apply Z.leb_le.
  rewrite ltb_fval in Hd by (reflexivity || assumption). apply Z.ltb_ge in Hd.
  change (fval 0) with 0%Z in Hd.
  unfold fval. rewrite add_spec. rewrite is_nan_spec, add_spec in Hn.
  apply SFadd_ge; auto using Prim2SF_valid.
Qed.

(** A number that is not NaN and not finite is an infinity. *)
Lemma not_finite_cases (a : float) :
  is_nan a = false -> is_finite a = false -> a = infinity \/ a = neg_infinity.
Proof.
  rewrite is_nan_spec, is_finite_spec. intros Hn Hf.
  destruct (Prim2SF a) as [s|[]| |s m e] eqn:E; try discriminate.
  - right. apply Prim2SF_inj. rewrite E. reflexivity.
  - left. apply Prim2SF_inj. rewrite E. reflexivity.
Qed.

End Binary64Rounding.

Import Binary64Rounding.

(** * Part VII: the callbacks and the executor *)

Section Runs.

Variable atan2 : double -> double -> double.
Variable fuel : nat.

(** A run, by its first event. *)
Lemma spin_cons ev events self self'' out'' :
  spin atan2 fuel (ev :: events) self = Some (self'', out'') ->
  exists self' out out',
    dispatch atan2 fuel self ev = Some (self', out)
    /\ spin atan2 fuel events self' = Some (self'', out')
    /\ out'' = out ++ out'.
Proof.
  cbn [spin]. destruct (dispatch atan2 fuel self ev) as [[self' out]|]; [|discriminate].
  destruct (spin atan2 fuel events self') as [[s o]|] eqn:E; [|discriminate].
  intros [= <- <-]. exists self', out, o. repeat split. exact E.
Qed.

(** What one callback does to the node and what it publishes. *)
Lemma dispatch_inv self ev self' out :
  dispatch atan2 fuel self ev = Some (self', out) ->
  match ev with
  | Coordinates msg => self' = goal_callback self msg /\ out = []
  | TurtlePose msg => self' = pose_callback self msg /\ out = []
  | Timer => exists msg, control_loop atan2 fuel self = Some (self', msg) /\ out = [msg]
  end.
Proof.
  destruct ev as [msg|msg|]; cbn [dispatch].
  - intros [= <- <-]. split; reflexivity.
  - intros [= <- <-]. split; reflexivity.
  - destruct (control_loop atan2 fuel self) as [[s m]|]; [|discriminate].
    intros [= <- <-]. exists m. split; reflexivity.
Qed.

(** A run in two parts. *)
Lemma spin_app events1 : forall events2 self,
  spin atan2 fuel (events1 ++ events2) self
  = match spin atan2 fuel events1 self with
    | None => None
    | Some (self', out) =>
        match spin atan2 fuel events2 self' with
        | None => None
        | Some (self'', out') => Some (self'', out ++ out')
        end
    end.
Proof.
  induction events1 as [|ev events1 IH]; intros events2 self.
  - cbn [app spin]. destruct (spin atan2 fuel events2 self) as [[s o]|]; reflexivity.
  - cbn [app spin]. destruct (dispatch atan2 fuel self ev) as [[self' out]|]; [|reflexivity].
    rewrite IH. destruct (spin atan2 fuel events1 self') as [[s1 o1]|]; [|reflexivity].
    destruct (spin atan2 fuel events2 s1) as [[s2 o2]|]; [|reflexivity].
    rewrite app_assoc. reflexivity.
Qed.

(** X1: the goal store and the pose store hold the last message.  After a
    run that comes to an end, [x_goal_] and [y_goal_] are the [x] and [y]
    of the last message on [coordinates] (its [z] is dropped), or what they
    were before the run when there was none; [x_current_], [y_current_]
    and [theta_current_] are the [x], [y] and [theta] of the last message
    on [turtle1/pose] (its velocities are dropped), or what they were.  The
    expiries of the timer in between change nothing of this. *)
Theorem X1_stores_hold_last_message events : forall self self' out,
  spin atan2 fuel events self = Some (self', out) ->
  match last_goal events with
  | Some msg => x_goal_ self' = Point.x msg /\ y_goal_ self' = Point.y msg
  | None => x_goal_ self' = x_goal_ self /\ y_goal_ self' = y_goal_ self
  end
  /\ match last_pose events with
     | Some msg => x_current_ self' = Pose.x msg /\ y_current_ self' = Pose.y msg
                   /\ theta_current_ self' = Pose.theta msg
     | None => x_current_ self' = x_current_ self /\ y_current_ self' = y_current_ self
               /\ theta_current_ self' = theta_current_ self
     end.
Proof.
  induction events as [|ev events IH]; intros self self'' out''.
  - cbn [spin last_goal last_pose]. intros [= <- _]. repeat split.
  - intros H. apply spin_cons in H. destruct H as (self' & out & out' & Hd & Hs & _).
    specialize (IH _ _ _ Hs). cbn [last_goal last_pose].
    apply dispatch_inv in Hd.
    destruct IH as [IHg IHp]. split.
    + destruct (last_goal events) as [m|]; [exact IHg|].
      destruct ev as [msg|msg|].
      * destruct Hd as [-> _]. exact IHg.
      * destruct Hd as [-> _]. exact IHg.
      * destruct Hd as (m & Hc & _). apply control_loop_inv in Hc.
        destruct Hc as (a & _ & -> & _). exact IHg.
    + destruct (last_pose events) as [m|]; [exact IHp|].
      destruct ev as [msg|msg|].
      * destruct Hd as [-> _]. exact IHp.
      * destruct Hd as [-> _]. exact IHp.
      * destruct Hd as (m & Hc & _). apply control_loop_inv in Hc.
        destruct Hc as (a & _ & -> & _). exact IHp.
Qed.

(** X2: one command per expiry of the timer.  A run that comes to an end
    has published as many messages as the timer has expired: the two
    message callbacks publish nothing, and [control_loop] publishes once. *)
Theorem X2_one_command_per_timer events : forall self self' out,
  spin atan2 fuel events self = Some (self', out) ->
  length out = timers events.
Proof.
  induction events as [|ev events IH]; intros self self'' out''.
  - cbn [spin timers]. intros [= _ <-]. reflexivity.
  - intros H. apply spin_cons in H. destruct H as (self' & out & out' & Hd & Hs & ->).
    specialize (IH _ _ _ Hs). apply dispatch_inv in Hd.
    rewrite length_app, IH.
    destruct ev as [msg|msg|]; cbn [timers].
    + destruct Hd as [_ ->]. reflexivity.
    + destruct Hd as [_ ->]. reflexivity.
    + destruct Hd as (m & _ & ->). reflexivity.
Qed.

(** X3: what a run leaves alone.  No callback writes the gains: after any
    run that comes to an end they are what they were.  And the memory of
    the controller, [prev_error_] and [integral_], is written by
    [control_loop] only: a run without an expiry of the timer leaves it as
    it was. *)
Theorem X3_gains_and_memory_frame events : forall self self' out,
  spin atan2 fuel events self = Some (self', out) ->
  (kp_ self' = kp_ self /\ ki_ self' = ki_ self /\ kd_ self' = kd_ self)
  /\ (timers events = O ->
      prev_error_ self' = prev_error_ self /\ integral_ self' = integral_ self).
Proof.
  induction events as [|ev events IH]; intros self self'' out''.
  - cbn [spin]. intros [= <- _]. repeat split.
  - intros H. apply spin_cons in H. destruct H as (self' & out & out' & Hd & Hs & _).
    destruct (IH _ _ _ Hs) as ((-> & -> & ->) & IH2). apply dispatch_inv in Hd.
    destruct ev as [msg|msg|]; cbn [timers].
    + destruct Hd as [-> _]. split; [repeat split|exact IH2].
    + destruct Hd as [-> _]. split; [repeat split|exact IH2].
    + destruct Hd as (m & Hc & _). apply control_loop_inv in Hc.
      destruct Hc as (a & _ & -> & _). split; [repeat split|discriminate].
Qed.

(** X4: every command is planar.  In each message that a run publishes,
    [linear.y], [linear.z], [angular.x] and [angular.y] are [+0]:
    [control_loop] starts from a value-initialised [Twist] and assigns
    [linear.x] and [angular.z] only. *)
Theorem X4_commands_are_planar events : forall self self' out,
  spin atan2 fuel events self = Some (self', out) -> Forall planar out.
Proof.
  induction events as [|ev events IH]; intros self self'' out''.
  - cbn [spin]. intros [= _ <-]. constructor.
  - intros H. apply spin_cons in H. destruct H as (self' & out & out' & Hd & Hs & ->).
    apply Forall_app. split; [|exact (IH _ _ _ Hs)].
    apply dispatch_inv in Hd. destruct ev as [msg|msg|].
    + destruct Hd as [_ ->]. constructor.
    + destruct Hd as [_ ->]. constructor.
    + destruct Hd as (m & Hc & ->). apply control_loop_inv in Hc.
      destruct Hc as (a & _ & _ & ->). repeat constructor.
Qed.

(** Two runs of messages from nodes that differ in the pose members. *)
Lemma spin_messages_same_but_pose events : forall a b,
  timers events = O -> same_but_pose a b ->
  exists a' b',
    spin atan2 fuel events a = Some (a', [])
    /\ spin atan2 fuel events b = Some (b', [])
    /\ same_but_pose a' b'.
Proof.
  induction events as [|ev events IH]; intros a b Ht Hab.
  - exists a, b. repeat split; apply Hab.
  - destruct ev as [msg|msg|]; cbn [timers] in Ht; [| |discriminate].
    + destruct (IH (goal_callback a msg) (goal_callback b msg) Ht) as (a' & b' & Ha & Hb & Hab').
      { destruct Hab as (_ & _ & H). unfold same_but_pose. cbn. auto. }
      exists a', b'. cbn [spin dispatch]. rewrite Ha, Hb. auto.
    + destruct (IH (pose_callback a msg) (pose_callback b msg) Ht) as (a' & b' & Ha & Hb & Hab').
      { unfold same_but_pose in *. cbn. exact Hab. }
      exists a', b'. cbn [spin dispatch]. rewrite Ha, Hb. auto.
Qed.

Lemma pose_callback_same_but_pose a b msg :
  same_but_pose a b -> pose_callback a msg = pose_callback b msg.
Proof.
  intros (H1 & H2 & H3 & H4 & H5 & H6 & H7). unfold pose_callback.
  rewrite H1, H2, H3, H4, H5, H6, H7. reflexivity.
Qed.

(** X5: the pose members that the constructor leaves unset do no harm when
    a pose arrives first.  If a message on [turtle1/pose] comes before the
    first expiry of the timer, what [main] publishes does not depend on
    what the storage of [x_current_], [y_current_] and [theta_current_]
    held when the node was constructed. *)
Theorem X5_pose_before_first_timer before pose after x0 y0 t0 x1 y1 t1 :
  timers before = O ->
  main atan2 fuel x0 y0 t0 (before ++ TurtlePose pose :: after)
  = main atan2 fuel x1 y1 t1 (before ++ TurtlePose pose :: after).
Proof.
  intros Ht. unfold main. rewrite !spin_app.
  destruct (spin_messages_same_but_pose before
              (TurtleNavigator_ctor x0 y0 t0) (TurtleNavigator_ctor x1 y1 t1) Ht)
    as (a' & b' & -> & -> & Hab).
  { unfold same_but_pose. cbn. repeat split. }
  cbn [spin dispatch]. rewrite (pose_callback_same_but_pose a' b' pose Hab). reflexivity.
Qed.

(** X6: the fields that no callback reads.  [goal_callback] reads [x] and
    [y] of its message and [pose_callback] reads [x], [y] and [theta]: a
    run is the same, in what it leaves in the node, in what it publishes
    and in whether it comes to an end, when [z] of every point and the two
    velocities of every pose are replaced by zero. *)
Theorem X6_unread_fields events : forall self,
  spin atan2 fuel (map read_fields events) self = spin atan2 fuel events self.
Proof.
  induction events as [|ev events IH]; intros self; [reflexivity|].
  cbn [map spin]. destruct ev as [msg|msg|]; cbn [read_fields dispatch].
  - rewrite IH. reflexivity.
  - rewrite IH. reflexivity.
  - destruct (control_loop atan2 fuel self) as [[s m]|]; [|reflexivity].
    rewrite IH. reflexivity.
Qed.

End Runs.

Lemma X1_witness :
  exists self' out,
    spin atan2_table 0 sample_run (TurtleNavigator_ctor 0 0 0) = Some (self', out)
    /\ x_goal_ self' = 4 /\ y_goal_ self' = 5
    /\ x_current_ self' = 3 /\ y_current_ self' = 5 /\ theta_current_ self' = 0.
Proof.
  eexists _, _. split; [vm_compute; reflexivity|].
  pose proof (X1_stores_hold_last_message atan2_table 0 sample_run
                (TurtleNavigator_ctor 0 0 0) _ _ eq_refl) as H.
  cbv [sample_run sample_messages app last_goal last_pose] in H.
  destruct H as ((H1 & H2) & H3 & H4 & H5).
  split; [now_from H1|]. split; [now_from H2|]. split; [now_from H3|].
  split; [now_from H4|now_from H5].
Defined.

Lemma X2_witness :
  exists self' out,
    spin atan2_table 0 sample_run (TurtleNavigator_ctor 0 0 0) = Some (self', out)
    /\ length out = 2%nat.
Proof.
  eexists _, _. split; [vm_compute; reflexivity|].
  now_from (X2_one_command_per_timer atan2_table 0 sample_run
              (TurtleNavigator_ctor 0 0 0) _ _ eq_refl).
Defined.

Lemma X3_witness :
  exists self' out,
    spin atan2_table 0 sample_messages node_with_memory = Some (self', out)
    /\ timers sample_messages = O
    /\ kp_ self' = 1 /\ ki_ self' = 0 /\ kd_ self' = 0.05
    /\ prev_error_ self' = 1 /\ integral_ self' = 3.
Proof.
  eexists _, _. split; [vm_compute; reflexivity|]. split; [reflexivity|].
  destruct (X3_gains_and_memory_frame atan2_table 0 sample_messages
              node_with_memory _ _ eq_refl)
    as ((H1 & H2 & H3) & H4).
  destruct (H4 eq_refl) as [H5 H6].
  split; [now_from H1|]. split; [now_from H2|]. split; [now_from H3|].
  split; [now_from H5|now_from H6].
Defined.

Lemma X4_witness :
  exists self' out,
    spin atan2_table 0 sample_run (TurtleNavigator_ctor 0 0 0) = Some (self', out)
    /\ Forall planar out.
Proof.
  eexists _, _. split; [vm_compute; reflexivity|].
  apply (X4_commands_are_planar atan2_table 0 sample_run
           (TurtleNavigator_ctor 0 0 0) _ _ eq_refl).
Defined.

Lemma X5_witness :
  timers [Coordinates (Point.make 9 9 9)] = O
  /\ main atan2_table 0 0 0 0 sample_run = main atan2_table 0 1 2 3 sample_run.
Proof.
  split; [reflexivity|].
  apply (X5_pose_before_first_timer atan2_table 0
           [Coordinates (Point.make 9 9 9)] (Pose.make 0 0 0 0 0)
           [Coordinates (Point.make 4 5 1); Timer; TurtlePose (Pose.make 3 5 0 1 1); Timer]
           0 0 0 1 2 3 eq_refl).
Defined.

(** * Part VIII: the distance error and the memory of the controller *)

(** ** The distance error *)

Lemma distance_error_cases self :
  is_nan (distance_error self) = true \/ nonnegative (distance_error self).
Proof.
  unfold distance_error.
  set (a := x_goal_ self - x_current_ self). set (b := y_goal_ self - y_current_ self).
  destruct (is_nan a) eqn:Ha.
  { left. apply sqrt_nan, add_nan_l, mul_nan_r, Ha. }
  destruct (is_nan b) eqn:Hb.
  { left. apply sqrt_nan, add_nan_r, mul_nan_r, Hb. }
  right. apply sqrt_nonnegative, add_nonnegative; apply mul_self_nonnegative; assumption.
Qed.

Lemma distance_error_finite_position self :
  finite_position self -> nonnegative (distance_error self).
Proof.
  intros (Hgx & Hgy & Hcx & Hcy). unfold distance_error.
  apply sqrt_nonnegative, add_nonnegative; apply mul_self_nonnegative;
    apply sub_not_nan; auto using finite_not_nan.
Qed.

Lemma distance_error_nan self :
  nan_coordinate self = true -> is_nan (distance_error self) = true.
Proof.
  unfold nan_coordinate, distance_error. intros H.
  apply orb_prop in H. destruct H as [H|H]; [apply orb_prop in H; destruct H as [H|H];
    [apply orb_prop in H; destruct H as [H|H]|]|].
  - apply sqrt_nan, add_nan_l, mul_nan_r, sub_nan_l, H.
  - apply sqrt_nan, add_nan_r, mul_nan_r, sub_nan_l, H.
  - apply sqrt_nan, add_nan_l, mul_nan_r, sub_nan_r, H.
  - apply sqrt_nan, add_nan_r, mul_nan_r, sub_nan_r, H.
Qed.

Lemma distance_error_not_negative self : (distance_error self <? 0) = false.
Proof.
  apply not_ltb_zero. destruct (distance_error_cases self); auto.
Qed.

(** X7: the distance error is never negative.  Whatever the goal and the
    pose hold, [distance_error] does not compare below zero (it is NaN, a
    number that is not negative, or [+infinity]); when the goal and the
    position are finite numbers it is not NaN either, also when a
    difference or a square overflows. *)
Theorem X7_distance_error_never_negative self :
  (distance_error self <? 0) = false
  /\ (finite_position self -> (0 <=? distance_error self) = true).
Proof.
  split; [apply distance_error_not_negative|].
  intros H. apply nonnegative_leb, distance_error_finite_position, H.
Qed.

(** ** NaN *)

Lemma control_signal_nan self :
  is_nan (distance_error self) = true \/ is_nan (integral_ self) = true ->
  is_nan (control_signal self) = true.
Proof.
  unfold control_signal. intros [H|H].
  - apply add_nan_l, add_nan_l, mul_nan_r, H.
  - apply add_nan_l, add_nan_r, mul_nan_r, H.
Qed.

Section Poison.

Variable atan2 : double -> double -> double.
Variable fuel : nat.

(** X8: a NaN coordinate poisons the controller.  When one of the
    coordinates of the goal or of the position is NaN, a call of
    [control_loop] that comes to an end publishes NaN as linear speed and
    leaves NaN in [integral_] and in [prev_error_], whatever the gains. *)
Theorem X8_nan_coordinate_poisons self self' msg :
  nan_coordinate self = true ->
  control_loop atan2 fuel self = Some (self', msg) ->
  linear_nan msg
  /\ is_nan (integral_ self') = true /\ is_nan (prev_error_ self') = true.
Proof.
  intros Hn H. apply distance_error_nan in Hn.
  apply control_loop_inv in H. destruct H as (a & _ & -> & ->).
  unfold linear_nan. cbn. split; [|split].
  - rewrite clamp_nan; apply control_signal_nan; auto.
  - apply add_nan_r, Hn.
  - exact Hn.
Qed.

Lemma control_loop_nan_integral self self' msg :
  is_nan (integral_ self) = true ->
  control_loop atan2 fuel self = Some (self', msg) ->
  is_nan (integral_ self') = true /\ linear_nan msg.
Proof.
  intros Hn H. apply control_loop_inv in H. destruct H as (a & _ & -> & ->).
  unfold linear_nan. cbn. split.
  - apply add_nan_l, Hn.
  - rewrite clamp_nan; apply control_signal_nan; auto.
Qed.

(** X9: NaN in the integral is for ever.  Once [integral_] is NaN, it is
    NaN after every run, and every command of the run has NaN as linear
    speed: no goal and no pose received later repairs it, since nothing
    resets [integral_] and [std::clamp] lets NaN through. *)
Theorem X9_nan_integral_is_permanent events : forall self self' out,
  is_nan (integral_ self) = true ->
  spin atan2 fuel events self = Some (self', out) ->
  is_nan (integral_ self') = true /\ Forall linear_nan out.
Proof.
  induction events as [|ev events IH]; intros self self'' out'' Hn.
  - cbn [spin]. intros [= <- <-]. split; [exact Hn|constructor].
  - intros H. apply spin_cons in H. destruct H as (self' & out & out' & Hd & Hs & ->).
    apply dispatch_inv in Hd.
    assert (Hstep : is_nan (integral_ self') = true /\ Forall linear_nan out).
    { destruct ev as [msg|msg|].
      - destruct Hd as [-> ->]. split; [exact Hn|constructor].
      - destruct Hd as [-> ->]. split; [exact Hn|constructor].
      - destruct Hd as (m & Hc & ->).
        destruct (control_loop_nan_integral _ _ _ Hn Hc) as [H1 H2].
        split; [exact H1|]. constructor; [exact H2|constructor]. }
    destruct Hstep as [Hn' Ho]. destruct (IH _ _ _ Hn' Hs) as [H1 H2].
    split; [exact H1|]. apply Forall_app. split; assumption.
Qed.

End Poison.

Lemma X8_witness :
  exists self' msg,
    control_loop atan2_table 0 node_nan_goal = Some (self', msg)
    /\ nan_coordinate node_nan_goal = true
    /\ linear_nan msg
    /\ is_nan (integral_ self') = true /\ is_nan (prev_error_ self') = true.
Proof.
  eexists _, _. split; [vm_compute; reflexivity|]. split; [reflexivity|].
  apply (X8_nan_coordinate_poisons atan2_table 0 node_nan_goal _ _ eq_refl eq_refl).
Defined.

Lemma X9_witness :
  exists self' out,
    spin atan2_table 0 sample_run node_poisoned = Some (self', out)
    /\ is_nan (integral_ node_poisoned) = true
    /\ is_nan (integral_ self') = true /\ Forall linear_nan out.
Proof.
  eexists _, _. split; [vm_compute; reflexivity|]. split; [reflexivity|].
  apply (X9_nan_integral_is_permanent atan2_table 0 sample_run node_poisoned _ _
           eq_refl eq_refl).
Defined.

(** ** The integral term *)

(** With the gains of the constructor and a finite integral, line 59
    computes [d + 0.05 * (d - prev_error_)]: [1.0 * d] is [d], and
    [0.0 * integral_] is a zero, which changes nothing when added to [d]. *)
Lemma control_signal_constructed self :
  gains_as_constructed self -> is_finite (integral_ self) = true ->
  control_signal self
  = distance_error self + 0.05 * (distance_error self - prev_error_ self).
Proof.
  intros (Hp & Hi & Hd) Hf. unfold control_signal. rewrite Hp, Hi, Hd, mul_one_l.
  destruct (mul_0_finite _ Hf) as [s Hz].
  rewrite (add_zero_r _ _ s Hz); [reflexivity|]. apply distance_error_cases.
Qed.

Lemma distance_error_set_state self p i :
  distance_error (set_state self p i) = distance_error self.
Proof. reflexivity. Qed.

Section Inert.

Variable atan2 : double -> double -> double.
Variable fuel : nat.

(** X10: with the gains of the constructor, the integral counts only by
    being finite or not.  [ki_] is [0.0] and nothing writes it: while
    [integral_] is finite the linear speed is the clamp of
    [d + 0.05 * (d - prev_error_)], computed in binary64, whatever
    [integral_] holds; once [integral_] is an infinity or NaN,
    [0.0 * integral_] is NaN and so is the linear speed. *)
Theorem X10_integral_term self self' msg :
  gains_as_constructed self ->
  control_loop atan2 fuel self = Some (self', msg) ->
  (is_finite (integral_ self) = true ->
   Vector3.x (Twist.linear msg)
   = std.clamp (distance_error self + 0.05 * (distance_error self - prev_error_ self))
               (- 2) 2)
  /\ (is_finite (integral_ self) = false -> linear_nan msg).
Proof.
  intros Hg H. apply control_loop_inv in H. destruct H as (a & _ & _ & ->).
  unfold linear_nan. cbn [Twist.linear Vector3.x]. split; intros Hf.
  - rewrite control_signal_constructed by assumption. reflexivity.
  - assert (Hn : is_nan (control_signal self) = true).
    { destruct Hg as (_ & Hi & _). unfold control_signal. rewrite Hi.
      apply add_nan_l, add_nan_r, mul_0_not_finite, Hf. }
    rewrite clamp_nan; exact Hn.
Qed.

(** X11: the command of a turtle that has not moved.  When [control_loop]
    runs twice with the same goal and pose (and the gains of the
    constructor, the integral still finite), the derivative term of the
    second call is zero and its linear speed is the distance error itself,
    or 2 if the distance error is more than 2. *)
Theorem X11_command_when_standing_still self self1 msg1 self2 msg2 :
  gains_as_constructed self ->
  control_loop atan2 fuel self = Some (self1, msg1) ->
  control_loop atan2 fuel self1 = Some (self2, msg2) ->
  is_finite (integral_ self1) = true ->
  Vector3.x (Twist.linear msg2)
  = if 2 <? distance_error self then 2 else distance_error self.
Proof.
  intros Hg H1 H2 Hf.
  apply control_loop_inv in H1. destruct H1 as (a1 & _ & -> & _).
  apply control_loop_inv in H2. destruct H2 as (a2 & _ & _ & ->).
  cbn [integral_ set_state] in Hf.
  destruct (add_finite_inv _ _ Hf) as [_ Hd].
  cbn [Twist.linear Vector3.x].
  rewrite control_signal_constructed; [|exact Hg|exact Hf].
  rewrite distance_error_set_state. cbn [prev_error_ set_state].
  set (d := distance_error self) in *.
  rewrite sub_diag by exact Hd.
  replace (0.05 * 0) with 0 by reflexivity.
  pose proof (distance_error_cases self) as Hc. fold d in Hc.
  rewrite (add_zero_r d 0 false eq_refl Hc).
  unfold std.clamp.
  assert (Hlt : (d <? - 2) = false).
  { destruct Hc as [Hc|Hc]; [now apply ltb_nan_l|].
    pose proof (nonnegative_not_nan _ Hc) as Hn.
    rewrite ltb_fval by (reflexivity || assumption).
    apply Z.ltb_ge. pose proof (SFsigned_false_val _ Hc) as Hv.
    fold (fval d) in Hv. etransitivity; [|exact Hv]. vm_compute. discriminate. }
  rewrite Hlt. reflexivity.
Qed.

End Inert.

Lemma X10_witness :
  exists self' msg,
    control_loop atan2_table 0 node_with_memory = Some (self', msg)
    /\ gains_as_constructed node_with_memory
    /\ is_finite (integral_ node_with_memory) = true
    /\ Vector3.x (Twist.linear msg) = 1.
Proof.
  assert (G : gains_as_constructed node_with_memory) by (repeat split).
  eexists _, _. split; [vm_compute; reflexivity|]. split; [exact G|].
  split; [reflexivity|].
  destruct (X10_integral_term atan2_table 0 node_with_memory _ _ G eq_refl) as [H _].
  now_from (H eq_refl).
Defined.

Lemma X11_witness :
  exists self1 msg1 self2 msg2,
    control_loop atan2_table 0 node_near_goal = Some (self1, msg1)
    /\ control_loop atan2_table 0 self1 = Some (self2, msg2)
    /\ gains_as_constructed node_near_goal
    /\ is_finite (integral_ self1) = true
    /\ distance_error node_near_goal = 1
    /\ Vector3.x (Twist.linear msg2) = 1.
Proof.
  assert (G : gains_as_constructed node_near_goal) by (repeat split).
  eexists _, _, _, _. split; [vm_compute; reflexivity|].
  split; [vm_compute; reflexivity|]. split; [exact G|].
  split; [reflexivity|]. split; [reflexivity|].
  now_from (X11_command_when_standing_still atan2_table 0 node_near_goal _ _ _ _
              G eq_refl eq_refl eq_refl).
Defined.

(** ** Growth of the integral *)

Section Growth.

Variable atan2 : double -> double -> double.
Variable fuel : nat.

(** X12: the integral never decreases.  Over any run that comes to an end
    with [integral_] not NaN, [integral_] at the end is at least what it
    was at the start, in the order of binary64: each call adds a distance
    error that is not negative, the rounded sum is not below the summand,
    and nothing else writes [integral_]. *)
Theorem X12_integral_never_decreases events : forall self self' out,
  spin atan2 fuel events self = Some (self', out) ->
  is_nan (integral_ self') = false ->
  (integral_ self <=? integral_ self') = true.
Proof.
  induction events as [|ev events IH]; intros self self'' out'' H Hn.
  - cbn [spin] in H. injection H as <- _. apply leb_refl, Hn.
  - apply spin_cons in H. destruct H as (self' & out & out' & Hd & Hs & _).
    specialize (IH _ _ _ Hs Hn). destruct (leb_not_nan _ _ IH) as [Hn' _].
    apply dispatch_inv in Hd.
    destruct ev as [msg|msg|].
    + destruct Hd as [-> _]. exact IH.
    + destruct Hd as [-> _]. exact IH.
    + destruct Hd as (m & Hc & _). apply control_loop_inv in Hc.
      destruct Hc as (a & _ & -> & _). cbn [integral_ set_state] in IH, Hn'.
      pose proof (add_ge _ _ Hn' (distance_error_not_negative self)) as Hstep.
      destruct (leb_not_nan _ _ Hstep) as [Hn0 _].
      rewrite leb_fval in * by assumption.
      apply Z.leb_le in IH, Hstep. apply Z.leb_le. lia.
Qed.

End Growth.

Lemma X12_witness :
  exists self' out,
    spin atan2_table 0 sample_run (TurtleNavigator_ctor 0 0 0) = Some (self', out)
    /\ is_nan (integral_ self') = false
    /\ (0 <=? integral_ self') = true.
Proof.
  eexists _, _. split; [vm_compute; reflexivity|]. split; [reflexivity|].
  apply (X12_integral_never_decreases atan2_table 0 sample_run
           (TurtleNavigator_ctor 0 0 0) _ _ eq_refl eq_refl).
Defined.

(** * Part IX: where the normalisation loops come to an end *)

(** X13: normalising twice is normalising once.  What the two loops
    return passes both loop conditions, so the loops leave it as it is,
    with any fuel. *)
Theorem X13_normalize_angle_idempotent fuel fuel' (a r : float) :
  normalize_angle fuel a = Some r -> normalize_angle fuel' r = Some r.
Proof.
  intros H. destruct (is_nan a) eqn:Hn.
  - rewrite normalize_angle_nan in H by exact Hn. injection H as <-.
    apply normalize_angle_nan, Hn.
  - destruct (normalize_angle_closed_range fuel a r Hn H) as [Hlo Hhi].
    destruct (leb_not_nan _ _ Hhi) as [Hr _].
    unfold normalize_angle.
    assert (H1 : (M_PI <? r) = false).
    { rewrite ltb_fval by (reflexivity || assumption).
      rewrite leb_fval in Hhi by (reflexivity || assumption).
      apply Z.leb_le in Hhi. apply Z.ltb_ge. exact Hhi. }
    assert (H2 : (r <? - M_PI) = false).
    { rewrite ltb_fval by (reflexivity || assumption).
      rewrite leb_fval in Hlo by (reflexivity || assumption).
      apply Z.leb_le in Hlo. apply Z.ltb_ge. exact Hlo. }
    rewrite while_done by exact H1. apply while_done. exact H2.
Qed.

Lemma X13_witness :
  normalize_angle 2 (5 * M_PI) = Some M_PI /\ normalize_angle 0 M_PI = Some M_PI.
Proof.
  split; [vm_compute; reflexivity|].
  apply (X13_normalize_angle_idempotent 2 0 (5 * M_PI) M_PI eq_refl).
Defined.

(** ** One round *)

Lemma fval_2p56 : fval 0x1p56 = (2 ^ 1130)%Z.
Proof. reflexivity. Qed.

Lemma fval_neg_2p56 : fval (- 0x1p56) = (- 2 ^ 1130)%Z.
Proof. reflexivity. Qed.

Lemma within_2p56 (a : float) :
  within (- 0x1p56) 0x1p56 a = true ->
  is_finite a = true /\ (- 2 ^ 1130 <= fval a <= 2 ^ 1130)%Z.
Proof.
  unfold within. intros H. apply andb_prop in H. destruct H as [H1 H2].
  assert (Hf : is_finite a = true) by (eapply between_finite; [| |eassumption..]; reflexivity).
  split; [exact Hf|]. pose proof (finite_not_nan _ Hf) as Hn.
  rewrite leb_fval in H1, H2 by (reflexivity || assumption).
  rewrite fval_neg_2p56 in H1. rewrite fval_2p56 in H2.
  apply Z.leb_le in H1, H2. lia.
Qed.

(** One round of the first loop takes off more than 2 and less than 11;
    it does not lead below [-M_PI]. *)
Lemma step_down_bounds (a : float) :
  is_finite a = true -> (fval M_PI < fval a <= 2 ^ 1130)%Z ->
  is_finite (a - 2 * M_PI) = true
  /\ (fval a - 11 * 2 ^ 1074 <= fval (a - 2 * M_PI) <= fval a - 2 * 2 ^ 1074)%Z
  /\ (fval (- M_PI) <= fval (a - 2 * M_PI))%Z.
Proof.
  intros Hf Ha. rewrite fval_M_PI in Ha. unfold Mpi in Ha.
  pose proof (sub_rounded a (2 * M_PI) Hf finite_2M_PI) as HR.
  assert (Hlo : (SFval (Prim2SF (- M_PI)) <= SFval (Prim2SF (a - 2 * M_PI)))%Z).
  { apply (rounded_le_l _ _ _ HR); [apply Prim2SF_valid|reflexivity|].
    fold (fval (- M_PI)). rewrite fval_neg_M_PI, fval_2M_PI. unfold Mpi. lia. }
  rewrite fval_2M_PI in HR. unfold Mpi in HR.
  destruct (rounded_finite _ _ 1130 HR) as [F E]; [lia|lia|].
  rewrite is_finite_spec. split; [exact F|].
  fold (fval (a - 2 * M_PI)) in E. change (2 ^ (1130 - 53))%Z with (2 ^ 1077)%Z in E.
  split; [lia|exact Hlo].
Qed.

Lemma step_up_bounds (a : float) :
  is_finite a = true -> (- 2 ^ 1130 <= fval a < fval (- M_PI))%Z ->
  is_finite (a + 2 * M_PI) = true
  /\ (fval a + 2 * 2 ^ 1074 <= fval (a + 2 * M_PI) <= fval a + 11 * 2 ^ 1074)%Z.
Proof.
  intros Hf Ha. rewrite fval_neg_M_PI in Ha. unfold Mpi in Ha.
  pose proof (add_rounded a (2 * M_PI) Hf finite_2M_PI) as HR.
  rewrite fval_2M_PI in HR. unfold Mpi in HR.
  destruct (rounded_finite _ _ 1130 HR) as [F E]; [lia|lia|].
  rewrite is_finite_spec. split; [exact F|].
  fold (fval (a + 2 * M_PI)) in E. change (2 ^ (1130 - 53))%Z with (2 ^ 1077)%Z in E. lia.
Qed.

(** Beyond [2^56] a round changes nothing. *)
Lemma step_down_stuck (a : float) :
  is_finite a = true -> (2 ^ 1130 < fval a)%Z -> a - 2 * M_PI = a.
Proof.
  intros Hf Ha.
  pose proof (sub_rounded a (2 * M_PI) Hf finite_2M_PI) as HR.
  rewrite fval_2M_PI in HR. unfold Mpi in HR.
  set (r := a - 2 * M_PI) in *. set (V := (fval a - _)%Z) in HR.
  assert (Hfa : is_finite a = true) by exact Hf.
  rewrite is_finite_spec in Hfa.
  destruct (grid a 1078) as [ka Hka]; [lia|exact Hf|change (52 + 1078)%Z with 1130%Z; lia|].
  assert (Hk1 : (2 ^ 52 < ka)%Z).
  { rewrite Hka in Ha. change (2 ^ 1130)%Z with (2 ^ 52 * 2 ^ 1078)%Z in Ha. nia. }
  assert (HV : (2 ^ 1130 < V < fval a)%Z).
  { unfold V. rewrite Hka. change (2 ^ 1130)%Z with (2 ^ 52 * 2 ^ 1078)%Z. lia. }
  pose proof (rounded_le_r V _ _ HR (Prim2SF_valid a) Hfa ltac:(unfold fval in HV; lia)) as Hle.
  fold (fval r) in Hle. fold (fval a) in Hle.
  pose proof (Prim2SF_valid a) as Va.
  assert (Hab : (fval a < 2 ^ 2098)%Z).
  { unfold fval. destruct (Prim2SF a) as [s| | |s m e]; try discriminate; cbn [SFval].
    - cbn. lia.
    - pose proof (finite_val_bound _ _ Va). destruct s; cbn [cond_Zopp]; lia. }
  destruct HR as [(F & E & G)|[HR _]].
  2:{ exfalso. unfold fval in Hle. rewrite HR in Hle.
      replace (V <? 0)%Z with false in Hle by (symmetry; apply Z.ltb_ge; lia).
      cbn [SFval cond_Zopp] in Hle. fold (fval a) in Hle. lia. }
  fold (fval r) in E, G.
  destruct (bits V) as (b & Hb & Hlt & Hbits).
  rewrite Z.abs_eq in Hlt, Hbits by lia.
  assert (Hb' : (1130 < b)%Z) by (apply pow2_lt_inv; lia).
  destruct Hbits as [->|Hge]; [lia|].
  specialize (E b Hb). rewrite Z.abs_eq in E by lia. specialize (E Hlt).
  destruct (G b Hb) as [k Hk]; [rewrite Z.abs_eq by lia; exact Hge|].
  destruct (grid a (b - 53)) as [ka' Hka']; [lia|exact Hf| |].
  { replace (52 + (b - 53))%Z with (b - 1)%Z by lia. lia. }
  assert (HU : (2 ^ 1078 <= 2 ^ (b - 53))%Z) by (apply Z.pow_le_mono_r; lia).
  assert (Hkk : k = ka').
  { rewrite Hk in E. unfold V in E. rewrite Hka' in E.
    set (U := (2 ^ (b - 53))%Z) in *.
    assert (Hc : (0 < 2 * 7074237752028440 * 2 ^ 1023
                  /\ 2 * (2 * 7074237752028440 * 2 ^ 1023) < 2 ^ 1078)%Z)
      by (split; reflexivity).
    clearbody U. revert E Hc HU.
    generalize (2 * 7074237752028440 * 2 ^ 1023)%Z (2 ^ 1078)%Z.
    intros c U0 E [Hc0 Hc1] HU.
    destruct (Z.lt_trichotomy k ka') as [Hlt'|[Heq|Hgt']]; [exfalso|exact Heq|exfalso].
    - assert ((k + 1) * U <= ka' * U)%Z by (apply Z.mul_le_mono_nonneg_r; lia). lia.
    - assert ((ka' + 1) * U <= k * U)%Z by (apply Z.mul_le_mono_nonneg_r; lia). lia. }
  apply fval_inj.
  - rewrite is_finite_spec. exact F.
  - exact Hf.
  - rewrite Hk, Hka', Hkk. reflexivity.
  - rewrite Hk. rewrite Hkk. rewrite <- Hka'. lia.
Qed.

(** And likewise below [-2^56]. *)
Lemma step_up_stuck (a : float) :
  is_finite a = true -> (fval a < - 2 ^ 1130)%Z -> a + 2 * M_PI = a.
Proof.
  intros Hf Ha.
  pose proof (add_rounded a (2 * M_PI) Hf finite_2M_PI) as HR.
  rewrite fval_2M_PI in HR. unfold Mpi in HR.
  set (r := a + 2 * M_PI) in *. set (V := (fval a + _)%Z) in HR.
  assert (Hfa : is_finite a = true) by exact Hf.
  rewrite is_finite_spec in Hfa.
  destruct (grid a 1078) as [ka Hka]; [lia|exact Hf|change (52 + 1078)%Z with 1130%Z; lia|].
  assert (Hk1 : (ka < - 2 ^ 52)%Z).
  { rewrite Hka in Ha. change (2 ^ 1130)%Z with (2 ^ 52 * 2 ^ 1078)%Z in Ha. nia. }
  assert (HV : (fval a < V < - 2 ^ 1130)%Z).
  { unfold V. rewrite Hka. change (2 ^ 1130)%Z with (2 ^ 52 * 2 ^ 1078)%Z. lia. }
  pose proof (rounded_le_l V _ _ HR (Prim2SF_valid a) Hfa ltac:(unfold fval in HV; lia)) as Hle.
  fold (fval r) in Hle. fold (fval a) in Hle.
  pose proof (Prim2SF_valid a) as Va.
  assert (Hab : (- 2 ^ 2098 < fval a)%Z).
  { unfold fval. destruct (Prim2SF a) as [s| | |s m e]; try discriminate; cbn [SFval].
    - cbn. lia.
    - pose proof (finite_val_bound _ _ Va). destruct s; cbn [cond_Zopp]; lia. }
  destruct HR as [(F & E & G)|[HR _]].
  2:{ exfalso. unfold fval in Hle. rewrite HR in Hle.
      replace (V <? 0)%Z with true in Hle by (symmetry; apply Z.ltb_lt; lia).
      cbn [SFval cond_Zopp] in Hle. fold (fval a) in Hle. lia. }
  fold (fval r) in E, G.
  destruct (bits V) as (b & Hb & Hlt & Hbits).
  rewrite Z.abs_neq in Hlt, Hbits by lia.
  assert (Hb' : (1130 < b)%Z) by (apply pow2_lt_inv; lia).
  destruct Hbits as [->|Hge]; [lia|].
  specialize (E b Hb). rewrite (Z.abs_neq V) in E by lia. specialize (E Hlt).
  destruct (G b Hb) as [k Hk]; [rewrite Z.abs_neq by lia; exact Hge|].
  destruct (grid a (b - 53)) as [ka' Hka']; [lia|exact Hf| |].
  { replace (52 + (b - 53))%Z with (b - 1)%Z by lia. lia. }
  assert (HU : (2 ^ 1078 <= 2 ^ (b - 53))%Z) by (apply Z.pow_le_mono_r; lia).
  assert (Hkk : k = ka').
  { rewrite Hk in E. unfold V in E. rewrite Hka' in E.
    set (U := (2 ^ (b - 53))%Z) in *.
    assert (Hc : (0 < 2 * 7074237752028440 * 2 ^ 1023
                  /\ 2 * (2 * 7074237752028440 * 2 ^ 1023) < 2 ^ 1078)%Z)
      by (split; reflexivity).
    clearbody U. revert E Hc HU.
    generalize (2 * 7074237752028440 * 2 ^ 1023)%Z (2 ^ 1078)%Z.
    intros c U0 E [Hc0 Hc1] HU.
    destruct (Z.lt_trichotomy k ka') as [Hlt'|[Heq|Hgt']]; [exfalso|exact Heq|exfalso].
    - assert ((k + 1) * U <= ka' * U)%Z by (apply Z.mul_le_mono_nonneg_r; lia). lia.
    - assert ((ka' + 1) * U <= k * U)%Z by (apply Z.mul_le_mono_nonneg_r; lia). lia. }
  apply fval_inj.
  - rewrite is_finite_spec. exact F.
  - exact Hf.
  - rewrite Hk, Hka', Hkk. reflexivity.
  - rewrite Hk. rewrite Hkk. rewrite <- Hka'. lia.
Qed.

(** ** Many rounds *)

(** Rounds enough for the first loop; if it runs at all, it ends within
    [-M_PI, M_PI]. *)
Lemma first_loop_within fuel : forall a : float,
  is_finite a = true -> (fval a <= 2 ^ 1130)%Z ->
  (fval a <= fval M_PI + Z.of_nat fuel * (2 * 2 ^ 1074))%Z ->
  exists r,
    while (fun a => M_PI <? a) (fun a => a - 2 * M_PI) fuel a = Some r
    /\ (r = a \/ (is_finite r = true /\ (fval (- M_PI) <= fval r <= fval M_PI)%Z)).
Proof.
  induction fuel as [|fuel IH]; intros a Hf Ha Hn.
  - exists a. split; [|auto]. apply while_done.
    rewrite ltb_fval by (reflexivity || now apply finite_not_nan).
    apply Z.ltb_ge. lia.
  - destruct (M_PI <? a) eqn:Hc.
    + assert (Hc' := Hc).
      rewrite ltb_fval in Hc by (reflexivity || now apply finite_not_nan).
      apply Z.ltb_lt in Hc.
      destruct (step_down_bounds a Hf) as (Hf' & Ha' & Hlo); [lia|].
      destruct (IH (a - 2 * M_PI) Hf') as (r & Hw & Hr); [lia|lia|].
      exists r. split.
      * rewrite (while_step (fun a => M_PI <? a) (fun a => a - 2 * M_PI)); assumption.
      * right. destruct Hr as [->|Hr]; [|exact Hr]. split; [exact Hf'|].
        split; [exact Hlo|].
        (* the loop has come to an end at [a - 2 * M_PI] *)
        destruct (while_inv (fun a => M_PI <? a) (fun a => a - 2 * M_PI) (fun _ => True)
                    (fun _ _ _ => I) _ _ _ I Hw) as [_ He].
        rewrite ltb_fval in He by (reflexivity || now apply finite_not_nan).
        apply Z.ltb_ge in He. exact He.
    + exists a. split; [|auto]. apply while_done. exact Hc.
Qed.

Lemma second_loop_within fuel : forall a : float,
  is_finite a = true -> (- 2 ^ 1130 <= fval a)%Z ->
  (- fval a <= fval M_PI + Z.of_nat fuel * (2 * 2 ^ 1074))%Z ->
  exists r, while (fun a => a <? - M_PI) (fun a => a + 2 * M_PI) fuel a = Some r.
Proof.
  induction fuel as [|fuel IH]; intros a Hf Ha Hn.
  - exists a. apply while_done.
    rewrite ltb_fval by (reflexivity || now apply finite_not_nan).
    apply Z.ltb_ge. rewrite fval_neg_M_PI. rewrite fval_M_PI in Hn. lia.
  - destruct (a <? - M_PI) eqn:Hc.
    + assert (Hc' := Hc).
      rewrite ltb_fval in Hc by (reflexivity || now apply finite_not_nan).
      apply Z.ltb_lt in Hc.
      destruct (step_up_bounds a Hf) as (Hf' & Ha'); [lia|].
      destruct (IH (a + 2 * M_PI) Hf') as (r & Hw); [lia|lia|].
      exists r. rewrite (while_step (fun a => a <? - M_PI) (fun a => a + 2 * M_PI)); assumption.
    + exists a. apply while_done. exact Hc.
Qed.

(** Rounds needed by the first loop and by the second. *)
Lemma first_loop_cost fuel : forall a r : float,
  while (fun a => M_PI <? a) (fun a => a - 2 * M_PI) fuel a = Some r ->
  is_finite a = true ->
  (fval a <= fval M_PI + Z.of_nat fuel * (11 * 2 ^ 1074))%Z.
Proof.
  induction fuel as [|fuel IH]; intros a r Hw Hf.
  - cbn [while] in Hw. destruct (M_PI <? a) eqn:Hc; [discriminate|].
    rewrite ltb_fval in Hc by (reflexivity || now apply finite_not_nan).
    apply Z.ltb_ge in Hc. lia.
  - destruct (M_PI <? a) eqn:Hc.
    + rewrite (while_step (fun a => M_PI <? a) (fun a => a - 2 * M_PI)) in Hw by exact Hc.
      rewrite ltb_fval in Hc by (reflexivity || now apply finite_not_nan).
      apply Z.ltb_lt in Hc.
      destruct (Z_le_gt_dec (fval a) (2 ^ 1130)) as [Hle|Hgt].
      * destruct (step_down_bounds a Hf) as (Hf' & Ha' & _); [lia|].
        specialize (IH _ _ Hw Hf'). lia.
      * rewrite step_down_stuck in Hw by (assumption || lia).
        specialize (IH _ _ Hw Hf). lia.
    + rewrite ltb_fval in Hc by (reflexivity || now apply finite_not_nan).
      apply Z.ltb_ge in Hc. lia.
Qed.

Lemma second_loop_cost fuel : forall a r : float,
  while (fun a => a <? - M_PI) (fun a => a + 2 * M_PI) fuel a = Some r ->
  is_finite a = true ->
  (- fval a <= fval M_PI + Z.of_nat fuel * (11 * 2 ^ 1074))%Z.
Proof.
  induction fuel as [|fuel IH]; intros a r Hw Hf.
  - cbn [while] in Hw. destruct (a <? - M_PI) eqn:Hc; [discriminate|].
    rewrite ltb_fval in Hc by (reflexivity || now apply finite_not_nan).
    apply Z.ltb_ge in Hc. rewrite fval_neg_M_PI in Hc. rewrite fval_M_PI. lia.
  - destruct (a <? - M_PI) eqn:Hc.
    + rewrite (while_step (fun a => a <? - M_PI) (fun a => a + 2 * M_PI)) in Hw by exact Hc.
      rewrite ltb_fval in Hc by (reflexivity || now apply finite_not_nan).
      apply Z.ltb_lt in Hc.
      destruct (Z_le_gt_dec (- 2 ^ 1130) (fval a)) as [Hle|Hgt].
      * destruct (step_up_bounds a Hf) as (Hf' & Ha'); [lia|].
        specialize (IH _ _ Hw Hf'). lia.
      * rewrite step_up_stuck in Hw by (assumption || lia).
        specialize (IH _ _ Hw Hf). lia.
    + rewrite ltb_fval in Hc by (reflexivity || now apply finite_not_nan).
      apply Z.ltb_ge in Hc. rewrite fval_neg_M_PI in Hc. rewrite fval_M_PI. lia.
Qed.

(** Within [2^56], about half the magnitude is fuel enough. *)
Lemma normalize_angle_enough (fuel : nat) (a : float) :
  within (- 0x1p56) 0x1p56 a = true ->
  (Z.abs (fval a) <= fval M_PI + Z.of_nat fuel * (2 * 2 ^ 1074))%Z ->
  exists r, normalize_angle fuel a = Some r.
Proof.
  intros Hw Hn. apply within_2p56 in Hw. destruct Hw as [Hf Ha].
  destruct (first_loop_within fuel a Hf) as (r1 & H1 & Hr1); [lia|lia|].
  unfold normalize_angle. rewrite H1.
  destruct Hr1 as [->|[Hf1 Hb1]].
  - apply second_loop_within; [exact Hf|lia|lia].
  - exists r1. apply while_done.
    rewrite ltb_fval by (reflexivity || now apply finite_not_nan).
    apply Z.ltb_ge. lia.
Qed.

(** And the loops need a number of rounds in proportion to the magnitude. *)
Lemma normalize_angle_cost (fuel : nat) (a r : float) :
  is_finite a = true -> normalize_angle fuel a = Some r ->
  (Z.abs (fval a) <= fval M_PI + Z.of_nat fuel * (11 * 2 ^ 1074))%Z.
Proof.
  intros Hf H. unfold normalize_angle in H.
  destruct (while (fun a => M_PI <? a) _ fuel a) as [r1|] eqn:H1; [|discriminate].
  pose proof (first_loop_cost fuel a r1 H1 Hf) as C1.
  destruct (M_PI <? a) eqn:Hc.
  - rewrite ltb_fval in Hc by (reflexivity || now apply finite_not_nan).
    apply Z.ltb_lt in Hc. rewrite fval_M_PI in *. unfold Mpi in *. lia.
  - rewrite (while_done (fun a => M_PI <? a) (fun a => a - 2 * M_PI)) in H1 by exact Hc.
    injection H1 as <-.
    pose proof (second_loop_cost fuel a r H Hf) as C2. lia.
Qed.

Lemma normalize_angle_ends (a : float) :
  within (- 0x1p56) 0x1p56 a = true ->
  exists fuel r, normalize_angle fuel a = Some r.
Proof.
  intros Hw. exists (Z.to_nat (Z.abs (fval a))).
  apply normalize_angle_enough; [exact Hw|].
  rewrite fval_M_PI. unfold Mpi. lia.
Qed.

Lemma normalize_angle_runs_forever (a : float) :
  is_nan a = false -> within (- 0x1p56) 0x1p56 a = false ->
  forall fuel, normalize_angle fuel a = None.
Proof.
  intros Hn Hw fuel.
  destruct (is_finite a) eqn:Hf.
  - unfold within in Hw. rewrite !leb_fval in Hw by (reflexivity || assumption).
    rewrite fval_neg_2p56, fval_2p56 in Hw.
    apply andb_false_iff in Hw. destruct Hw as [Hw|Hw]; apply Z.leb_gt in Hw.
    + apply normalize_angle_stuck.
      * rewrite ltb_fval by (reflexivity || assumption).
        apply Z.ltb_ge. rewrite fval_M_PI. unfold Mpi. lia.
      * rewrite ltb_fval by (reflexivity || assumption).
        apply Z.ltb_lt. rewrite fval_neg_M_PI. unfold Mpi. lia.
      * apply step_up_stuck; [exact Hf|lia].
    + unfold normalize_angle.
      rewrite (while_stuck (fun a => M_PI <? a) (fun a => a - 2 * M_PI)); [reflexivity| |].
      * rewrite ltb_fval by (reflexivity || assumption).
        apply Z.ltb_lt. rewrite fval_M_PI. unfold Mpi. lia.
      * apply step_down_stuck; [exact Hf|lia].
  - destruct (not_finite_cases a Hn Hf) as [-> | ->].
    + unfold normalize_angle.
      rewrite (while_stuck (fun a => M_PI <? a) (fun a => a - 2 * M_PI)); reflexivity.
    + apply normalize_angle_stuck; reflexivity.
Qed.

(** X14: the inputs on which the normalisation comes to an end.  The two
    loops of lines 55-56 come to an end exactly on NaN (which passes both
    conditions) and on the numbers from [-2^56] to [2^56]: there a round
    moves the number by more than 2 towards zero; beyond, [2 * M_PI] is
    less than half the distance to the next binary64 number, the
    subtraction or addition returns its first operand, and the loop runs
    for ever; so it does on an infinity. *)
Theorem X14_normalize_angle_ends_iff (a : float) :
  (exists fuel r, normalize_angle fuel a = Some r)
  <-> is_nan a = true \/ within (- 0x1p56) 0x1p56 a = true.
Proof.
  split.
  - intros (fuel & r & H).
    destruct (is_nan a) eqn:Hn; [auto|]. right.
    destruct (within (- 0x1p56) 0x1p56 a) eqn:Hw; [reflexivity|].
    rewrite (normalize_angle_runs_forever a Hn Hw) in H. discriminate.
  - intros [Hn|Hw].
    + exists O, a. apply normalize_angle_nan, Hn.
    + apply normalize_angle_ends, Hw.
Qed.

(** X15: the number of rounds grows with the magnitude of the heading
    error.  For a finite heading error [a], loops that come to an end
    within [fuel] rounds each have [|a| <= M_PI + 11 * fuel]; and within
    [2^56], [fuel] rounds are enough as soon as [|a| <= M_PI + 2 * fuel].
    (Values are in units of [2^-1074], in which 1 is [2^1074].) *)
Theorem X15_normalize_angle_rounds (fuel : nat) (a : float) :
  is_finite a = true ->
  ((exists r, normalize_angle fuel a = Some r) ->
   Z.abs (fval a) <= fval M_PI + Z.of_nat fuel * (11 * 2 ^ 1074))%Z
  /\ (within (- 0x1p56) 0x1p56 a = true ->
      (Z.abs (fval a) <= fval M_PI + Z.of_nat fuel * (2 * 2 ^ 1074))%Z ->
      exists r, normalize_angle fuel a = Some r).
Proof.
  intros Hf. split.
  - intros (r & H). exact (normalize_angle_cost fuel a r Hf H).
  - apply normalize_angle_enough.
Qed.

Lemma X15_witness :
  is_finite (5 * M_PI) = true
  /\ normalize_angle 2 (5 * M_PI) = Some M_PI
  /\ (Z.abs (fval (5 * M_PI)) <= fval M_PI + Z.of_nat 2 * (11 * 2 ^ 1074))%Z
  /\ (exists r, normalize_angle 7 (5 * M_PI) = Some r).
Proof.
  split; [reflexivity|]. split; [vm_compute; reflexivity|].
  destruct (X15_normalize_angle_rounds 2 (5 * M_PI) eq_refl) as [H1 _].
  destruct (X15_normalize_angle_rounds 7 (5 * M_PI) eq_refl) as [_ H2].
  split.
  - apply H1. exists M_PI. vm_compute. reflexivity.
  - apply H2; [reflexivity|]. vm_compute. discriminate.
Defined.

(** ** The headings on which the control loop comes to an end *)

Lemma within_fval lo hi (r : float) :
  is_nan lo = false -> is_nan hi = false -> is_nan r = false ->
  within lo hi r = ((fval lo <=? fval r) && (fval r <=? fval hi))%Z.
Proof. intros Hl Hh Hr. unfold within. rewrite !leb_fval by assumption. reflexivity. Qed.

Lemma within_M_PI (v : float) :
  within (- M_PI) M_PI v = true ->
  is_finite v = true /\ (- (Mpi * 2 ^ 1023) <= fval v <= Mpi * 2 ^ 1023)%Z.
Proof.
  unfold within. intros H. apply andb_prop in H. destruct H as [H1 H2].
  assert (Hf : is_finite v = true) by (eapply between_finite; [| |eassumption..]; reflexivity).
  split; [exact Hf|]. pose proof (finite_not_nan _ Hf) as Hn.
  rewrite leb_fval in H1, H2 by (reflexivity || assumption).
  rewrite fval_neg_M_PI in H1. rewrite fval_M_PI in H2.
  apply Z.leb_le in H1, H2. lia.
Qed.

(** A heading within [2^56] gives a heading error within [2^56]. *)
Lemma sub_within_2p56 (v t : float) :
  within (- M_PI) M_PI v = true -> within (- 0x1p56) 0x1p56 t = true ->
  within (- 0x1p56) 0x1p56 (v - t) = true.
Proof.
  intros Hv Ht. apply within_M_PI in Hv. apply within_2p56 in Ht.
  destruct Hv as [Fv Bv], Ht as [Ft Bt]. unfold Mpi in Bv.
  pose proof (sub_rounded v t Fv Ft) as HR.
  destruct (rounded_finite _ _ 1131 HR) as [F E]; [lia|lia|].
  fold (fval (v - t)) in E. change (2 ^ (1131 - 53))%Z with (2 ^ 1078)%Z in E.
  rewrite <- is_finite_spec in F. pose proof (finite_not_nan _ F) as Hn.
  rewrite within_fval by (reflexivity || assumption).
  rewrite fval_neg_2p56, fval_2p56.
  assert (Hr : (Z.abs (fval (v - t)) <= 2 ^ 1130)%Z).
  { destruct (Z_le_gt_dec (Z.abs (fval (v - t))) (2 ^ 1130)) as [|Hgt]; [assumption|exfalso].
    destruct (grid (v - t) 1078) as [k Hk]; [lia|exact F| |].
    { change (52 + 1078)%Z with 1130%Z. lia. }
    rewrite Hk in *. change (2 ^ 1130)%Z with (2 ^ 52 * 2 ^ 1078)%Z in *.
    assert (2 ^ 1078 = 8 * 2 ^ 1075)%Z by reflexivity.
    assert (7074237752028440 * 2 ^ 1023 < 4 * 2 ^ 1075)%Z by (vm_compute; reflexivity).
    assert (0 < 2 ^ 1075)%Z by (vm_compute; reflexivity).
    lia. }
  apply andb_true_intro. split; apply Z.leb_le; lia.
Qed.

(** A heading beyond [2^56] gives a heading error beyond [2^56]. *)
Lemma sub_beyond_2p56 (v t : float) :
  within (- M_PI) M_PI v = true ->
  is_nan t = false -> within (- 0x1p56) 0x1p56 t = false ->
  is_nan (v - t) = false /\ within (- 0x1p56) 0x1p56 (v - t) = false.
Proof.
  intros Hv Hn Ht. apply within_M_PI in Hv. destruct Hv as [Fv Bv]. unfold Mpi in Bv.
  destruct (is_finite t) eqn:Ft.
  - assert (Hnr : is_nan (v - t) = false) by (apply sub_not_nan; auto using finite_not_nan).
    split; [exact Hnr|].
    rewrite within_fval in Ht |- * by (reflexivity || assumption).
    rewrite fval_neg_2p56, fval_2p56 in *.
    assert (Hbt : (2 ^ 1130 < Z.abs (fval t))%Z).
    { apply andb_false_iff in Ht. destruct Ht as [Ht|Ht]; apply Z.leb_gt in Ht; lia. }
    clear Ht.
    destruct (grid t 1078) as [kt Hkt]; [lia|exact Ft|change (52 + 1078)%Z with 1130%Z; lia|].
    assert (H8 : (2 ^ 1078 = 8 * 2 ^ 1075)%Z) by reflexivity.
    assert (Hpi : (7074237752028440 * 2 ^ 1023 < 4 * 2 ^ 1075)%Z) by (vm_compute; reflexivity).
    assert (H0 : (0 < 2 ^ 1075)%Z) by (vm_compute; reflexivity).
    assert (Ht2 : (2 ^ 1130 + 2 ^ 1078 <= Z.abs (fval t))%Z).
    { rewrite Hkt in *. change (2 ^ 1130)%Z with (2 ^ 52 * 2 ^ 1078)%Z in *. lia. }
    pose proof (sub_rounded v t Fv Ft) as HR. set (V := (fval v - fval t)%Z) in *.
    assert (HV : (2 ^ 1130 + 4 * 2 ^ 1075 < Z.abs V)%Z) by (unfold V; lia).
    assert (Hgoal : (2 ^ 1130 < Z.abs (fval (v - t)))%Z).
    { destruct HR as [(F & E & G)|[HR _]].
      - fold (fval (v - t)) in E.
        destruct (bits V) as (b & Hb & Hlt & Hbits). specialize (E b Hb Hlt).
        assert (Hb' : (1130 < b)%Z) by (apply pow2_lt_inv; lia).
        destruct Hbits as [->|Hge]; [lia|].
        destruct (Z.eq_dec b 1131) as [->|Hne].
        + change (2 ^ (1131 - 53))%Z with (2 ^ 1078)%Z in E. lia.
        + assert (HU : (2 ^ 1079 <= 2 ^ (b - 53))%Z) by (apply Z.pow_le_mono_r; lia).
          assert (Hh : (2 ^ (b - 1) = 2 ^ 52 * 2 ^ (b - 53))%Z)
            by (rewrite <- Z.pow_add_r by lia; f_equal; lia).
          rewrite Hh in Hge. set (U := (2 ^ (b - 53))%Z) in *.
          change (2 ^ 1130)%Z with (2 ^ 51 * 2 ^ 1079)%Z. lia.
      - unfold fval. rewrite HR. destruct (V <? 0)%Z; cbn; lia. }
    apply andb_false_iff. destruct (Z_le_gt_dec 0 (fval (v - t))).
    + right. apply Z.leb_gt. lia.
    + left. apply Z.leb_gt. lia.
  - assert (Hv0 : SFfinite (Prim2SF v) = true) by (rewrite <- is_finite_spec; exact Fv).
    destruct (not_finite_cases t Hn Ft) as [-> | ->].
    + assert (E : v - infinity = neg_infinity).
      { apply Prim2SF_inj. rewrite sub_spec.
        change (Prim2SF infinity) with (S754_infinity false).
        destruct (Prim2SF v) as [s| | |s m e]; try discriminate; reflexivity. }
      rewrite E. split; reflexivity.
    + assert (E : v - neg_infinity = infinity).
      { apply Prim2SF_inj. rewrite sub_spec.
        change (Prim2SF neg_infinity) with (S754_infinity true).
        destruct (Prim2SF v) as [s| | |s m e]; try discriminate; reflexivity. }
      rewrite E. split; reflexivity.
Qed.

Lemma raw_angle_error_eq atan2 self :
  raw_angle_error atan2 self = angle_to_goal atan2 self - theta_current_ self.
Proof. reflexivity. Qed.

(** X16: the headings on which [control_loop] returns.  When [std::atan2]
    has returned a number within [-M_PI, M_PI] for the direction of the
    goal, [control_loop] comes to an end (and publishes) exactly when the
    heading [theta_current_] is NaN or lies within [-2^56, 2^56]; for every
    other heading, an infinity included, it never returns and nothing is
    published. *)
Theorem X16_control_loop_returns_iff atan2 self :
  within (- M_PI) M_PI (angle_to_goal atan2 self) = true ->
  (exists fuel self' msg, control_loop atan2 fuel self = Some (self', msg))
  <-> is_nan (theta_current_ self) = true
      \/ within (- 0x1p56) 0x1p56 (theta_current_ self) = true.
Proof.
  intros Hv. split.
  - intros (fuel & self' & msg & H).
    destruct (is_nan (theta_current_ self)) eqn:Hn; [auto|]. right.
    destruct (within (- 0x1p56) 0x1p56 (theta_current_ self)) eqn:Hw; [reflexivity|].
    destruct (sub_beyond_2p56 _ _ Hv Hn Hw) as [H1 H2].
    apply control_loop_inv in H. destruct H as (a & Ha & _).
    rewrite raw_angle_error_eq in Ha.
    rewrite (normalize_angle_runs_forever _ H1 H2) in Ha. discriminate.
  - intros H.
    assert (Hr : exists fuel r, normalize_angle fuel (raw_angle_error atan2 self) = Some r).
    { rewrite raw_angle_error_eq. destruct H as [Hn|Hw].
      - exists O, (angle_to_goal atan2 self - theta_current_ self).
        apply normalize_angle_nan, sub_nan_r, Hn.
      - apply normalize_angle_ends, sub_within_2p56; assumption. }
    destruct Hr as (fuel & r & Hr). exists fuel. eexists _, _.
    apply control_loop_eq. exact Hr.
Qed.

Lemma X16_witness :
  within (- M_PI) M_PI (angle_to_goal atan2_table node_near_goal) = true
  /\ within (- 0x1p56) 0x1p56 (theta_current_ node_near_goal) = true
  /\ exists fuel self' msg, control_loop atan2_table fuel node_near_goal = Some (self', msg).
Proof.
  split; [reflexivity|]. split; [reflexivity|].
  apply (X16_control_loop_returns_iff atan2_table node_near_goal eq_refl).
  right. reflexivity.
Defined.

(** Headings and directions within a half turn: the heading error stays
    within three half turns. *)
Lemma sub_within_3M_PI (v t : float) :
  within (- M_PI) M_PI v = true -> within (- M_PI) M_PI t = true ->
  within (-3 * M_PI) (3 * M_PI) (v - t) = true.
Proof.
  intros Hv Ht. apply within_M_PI in Hv, Ht.
  destruct Hv as [Fv Bv], Ht as [Ft Bt]. unfold Mpi in *.
  destruct (sub_error v t Fv Ft) as [Hf He]; [lia|].
  pose proof (finite_not_nan _ Hf) as Hn.
  rewrite within_fval by (reflexivity || assumption).
  rewrite fval_neg_3M_PI, fval_3M_PI. unfold Mpi.
  apply andb_true_intro. split; apply Z.leb_le; lia.
Qed.

(** X17: one round is enough for the headings of a half turn.  When the
    direction of the goal and the heading both lie within [-M_PI, M_PI],
    as [std::atan2] and turtlesim give them, each of the two loops runs at
    most once and [control_loop] returns. *)
Theorem X17_control_loop_one_round atan2 self :
  within (- M_PI) M_PI (angle_to_goal atan2 self) = true ->
  within (- M_PI) M_PI (theta_current_ self) = true ->
  exists self' msg, forall fuel, control_loop atan2 (S fuel) self = Some (self', msg).
Proof.
  intros Hv Ht. pose proof (sub_within_3M_PI _ _ Hv Ht) as Hb.
  rewrite <- raw_angle_error_eq in Hb.
  unfold within in Hb. apply andb_prop in Hb. destruct Hb as [Hlo Hhi].
  destruct (normalize_angle_one_round _ Hlo Hhi) as (r & Hn & _).
  eexists _, _. intros fuel.
  apply control_loop_eq. apply (normalize_angle_fuel_mono 1 fuel _ r Hn).
Qed.

Lemma X17_witness :
  within (- M_PI) M_PI (angle_to_goal atan2_table node_small_heading) = true
  /\ within (- M_PI) M_PI (theta_current_ node_small_heading) = true
  /\ exists self' msg,
       control_loop atan2_table 1 node_small_heading = Some (self', msg).
Proof.
  split; [reflexivity|]. split; [reflexivity|].
  destruct (X17_control_loop_one_round atan2_table node_small_heading eq_refl eq_refl)
    as (self' & msg & H).
  exists self', msg. apply H.
Defined.

(** * Part X: the angular command *)

Lemma fval_half : fval 0.5 = (2 ^ 1073)%Z.
Proof. reflexivity. Qed.

Lemma fval_neg_half : fval (- 0.5) = (- 2 ^ 1073)%Z.
Proof. reflexivity. Qed.

Lemma fval_two : fval 2 = (2 ^ 1075)%Z.
Proof. reflexivity. Qed.

Lemma fval_neg_two : fval (- 2) = (- 2 ^ 1075)%Z.
Proof. reflexivity. Qed.

(** X18: the angular command is proportional within half a radian and
    saturated beyond.  With [angle_error] the normalised heading error of a
    call that comes to an end: if it lies within [-0.5, 0.5], [angular.z]
    is [4.0 * angle_error], a product that binary64 computes without
    rounding; above [0.5] it is [2], below [-0.5] it is [-2]. *)
Theorem X18_angular_command atan2 fuel self self' msg angle_error :
  control_loop atan2 fuel self = Some (self', msg) ->
  normalize_angle fuel (raw_angle_error atan2 self) = Some angle_error ->
  (within (- 0.5) 0.5 angle_error = true ->
   Vector3.z (Twist.angular msg) = 4 * angle_error
   /\ fval (4 * angle_error) = (4 * fval angle_error)%Z)
  /\ ((0.5 <? angle_error) = true -> Vector3.z (Twist.angular msg) = 2)
  /\ ((angle_error <? - 0.5) = true -> Vector3.z (Twist.angular msg) = - 2).
Proof.
  intros H Ha'. apply control_loop_inv in H. destruct H as (a & Ha & _ & ->).
  rewrite Ha' in Ha. injection Ha as <-. rename Ha' into Ha. rename angle_error into a.
  cbn [Twist.angular Vector3.z].
  assert (Hrange : is_nan a = false ->
            is_finite a = true /\ (Z.abs (fval a) <= Mpi * 2 ^ 1023)%Z).
  { intros Hn.
    assert (Hraw : is_nan (raw_angle_error atan2 self) = false).
    { destruct (is_nan (raw_angle_error atan2 self)) eqn:E; [|reflexivity].
      rewrite normalize_angle_nan in Ha by exact E. injection Ha as <-. congruence. }
    destruct (normalize_angle_closed_range fuel _ a Hraw Ha) as [H1 H2].
    assert (W : within (- M_PI) M_PI a = true)
      by (unfold within; rewrite H1, H2; reflexivity).
    apply within_M_PI in W. destruct W as [F B]. split; [exact F|lia]. }
  split; [|split].
  - intros W. unfold within in W. apply andb_prop in W. destruct W as [W1 W2].
    destruct (leb_not_nan _ _ W2) as [Hn _]. destruct (Hrange Hn) as [F B].
    rewrite leb_fval in W1, W2 by (reflexivity || assumption).
    rewrite fval_neg_half in W1. rewrite fval_half in W2. apply Z.leb_le in W1, W2.
    destruct (mul_4_fval a F) as [F4 E4]; [lia|]. split; [|exact E4].
    pose proof (finite_not_nan _ F4) as Hn4.
    unfold std.clamp.
    rewrite (ltb_fval (4 * a) (- 2)), (ltb_fval 2 (4 * a)) by (reflexivity || assumption).
    rewrite fval_neg_two, fval_two, E4.
    replace (4 * fval a <? - 2 ^ 1075)%Z with false by (symmetry; apply Z.ltb_ge; lia).
    replace (2 ^ 1075 <? 4 * fval a)%Z with false by (symmetry; apply Z.ltb_ge; lia).
    reflexivity.
  - intros W. destruct (ltb_not_nan _ _ W) as [_ Hn]. destruct (Hrange Hn) as [F B].
    rewrite ltb_fval in W by (reflexivity || assumption). rewrite fval_half in W.
    apply Z.ltb_lt in W. unfold Mpi in B.
    destruct (mul_4_fval a F) as [F4 E4]; [lia|].
    apply clamp_above; [reflexivity|].
    rewrite ltb_fval by (reflexivity || now apply finite_not_nan).
    rewrite fval_two, E4. apply Z.ltb_lt. lia.
  - intros W. destruct (ltb_not_nan _ _ W) as [Hn _]. destruct (Hrange Hn) as [F B].
    rewrite ltb_fval in W by (reflexivity || assumption). rewrite fval_neg_half in W.
    apply Z.ltb_lt in W. unfold Mpi in B.
    destruct (mul_4_fval a F) as [F4 E4]; [lia|].
    apply clamp_below. rewrite ltb_fval by (reflexivity || now apply finite_not_nan).
    rewrite fval_neg_two, E4. apply Z.ltb_lt. lia.
Qed.

Lemma X18_witness :
  exists self' msg,
    control_loop atan2_table 0 node_small_heading = Some (self', msg)
    /\ normalize_angle 0 (raw_angle_error atan2_table node_small_heading) = Some (- 0.25)
    /\ within (- 0.5) 0.5 (- 0.25) = true
    /\ Vector3.z (Twist.angular msg) = - 1.
Proof.
  eexists _, _. split; [vm_compute; reflexivity|].
  split; [vm_compute; reflexivity|]. split; [reflexivity|].
  destruct (X18_angular_command atan2_table 0 node_small_heading _ _ (- 0.25)
              eq_refl eq_refl) as [H _].
  destruct (H eq_refl) as [H1 _]. now_from H1.
Defined.

(** * Part XI: calls that return, and runs with messages in between *)

(** ** The calls that return *)

Lemma normalize_angle_fuel_le n fuel (a r : float) :
  normalize_angle n a = Some r -> (n <= fuel)%nat -> normalize_angle fuel a = Some r.
Proof.
  intros H Hle. replace fuel with (n + (fuel - n))%nat by lia.
  now apply normalize_angle_fuel_mono.
Qed.

(** The two loops come to an end on NaN and on the numbers within
    [-2^56, 2^56], and on nothing else. *)
Lemma normalizes_iff (a : float) :
  (exists r, normalizes a r)
  <-> is_nan a = true \/ within (- 0x1p56) 0x1p56 a = true.
Proof.
  split.
  - intros (r & n & H).
    destruct (is_nan a) eqn:Hn; [auto|]. right.
    destruct (within (- 0x1p56) 0x1p56 a) eqn:Hw; [reflexivity|].
    specialize (H n (le_n n)).
    rewrite (normalize_angle_runs_forever a Hn Hw) in H. discriminate.
  - intros [Hn|Hw].
    + exists a, O. intros fuel _. now apply normalize_angle_nan.
    + destruct (normalize_angle_ends a Hw) as (n & r & H).
      exists r, n. intros fuel Hle. now apply (normalize_angle_fuel_le n).
Qed.

(** When the loops come to an end the call returns, with the node and the
    message that lines 58-74 make. *)
Lemma returns_normalizes atan2 self angle_error :
  normalizes (raw_angle_error atan2 self) angle_error ->
  returns atan2 self
    (set_state self (distance_error self) (integral_ self + distance_error self),
     Twist.make (Vector3.make (std.clamp (control_signal self) (- 2) 2) 0 0)
                (Vector3.make 0 0 (std.clamp (4 * angle_error) (- 2) 2))).
Proof.
  intros (n & H). exists n. intros fuel Hle. apply control_loop_eq, H, Hle.
Qed.

(** C3: the control signal and the update of the state, and the calls
    that never get there.  A call that returns has published, as linear
    speed, the clamp of [kp * d + ki * integral + kd * (d - prev_error)],
    where [integral] and [prev_error] are the members as they were before
    the call and [d] is the distance error; and, whatever the clamp did, it
    has left [integral + d] in [integral_] and [d] in [prev_error_].  The
    call does return, with these, when the heading error before
    normalisation is NaN or within [-2^56, 2^56].  On every other heading
    error it never returns: line 56 (or 55) runs for ever, lines 58-61 are
    not reached, no signal is computed and no member is written.  The pose
    (3, 5, 2^60), with the goal (4, 5), is such an input: its heading error
    is [-2^60]. *)
Theorem C3_pid_signal_and_state_update atan2 :
  (forall fuel self self' msg,
      control_loop atan2 fuel self = Some (self', msg) ->
      Vector3.x (Twist.linear msg)
      = std.clamp (kp_ self * distance_error self + ki_ self * integral_ self
                   + kd_ self * (distance_error self - prev_error_ self)) (- 2) 2
      /\ integral_ self' = integral_ self + distance_error self
      /\ prev_error_ self' = distance_error self)
  /\ (forall self,
      is_nan (raw_angle_error atan2 self) = true
      \/ within (- 0x1p56) 0x1p56 (raw_angle_error atan2 self) = true ->
      exists self' msg,
        returns atan2 self (self', msg)
        /\ Vector3.x (Twist.linear msg)
           = std.clamp (kp_ self * distance_error self + ki_ self * integral_ self
                        + kd_ self * (distance_error self - prev_error_ self)) (- 2) 2
        /\ integral_ self' = integral_ self + distance_error self
        /\ prev_error_ self' = distance_error self)
  /\ (forall self,
         is_nan (raw_angle_error atan2 self) = false ->
         within (- 0x1p56) 0x1p56 (raw_angle_error atan2 self) = false ->
         forall fuel, control_loop atan2 fuel self = None)
  /\ (atan2_positive_x_axis atan2 ->
      raw_angle_error atan2 node_far_heading = - 0x1p60
      /\ forall fuel, control_loop atan2 fuel node_far_heading = None).
Proof.
  split; [|split; [|split]].
  - intros fuel self self' msg H. apply control_loop_inv in H.
    destruct H as (a & _ & -> & ->). repeat split.
  - intros self H. apply normalizes_iff in H. destruct H as (a & H).
    eexists _, _. split; [exact (returns_normalizes atan2 self a H)|].
    repeat split.
  - intros self Hn Hw fuel. unfold control_loop. fold (raw_angle_error atan2 self).
    rewrite (normalize_angle_runs_forever _ Hn Hw). reflexivity.
  - intros Hax.
    assert (E : raw_angle_error atan2 node_far_heading = - 0x1p60).
    { unfold raw_angle_error.
      change (y_goal_ node_far_heading - y_current_ node_far_heading) with 0.
      change (x_goal_ node_far_heading - x_current_ node_far_heading) with 1.
      rewrite (Hax 1 eq_refl). reflexivity. }
    split; [exact E|]. intros fuel. unfold control_loop.
    fold (raw_angle_error atan2 node_far_heading). rewrite E.
    rewrite normalize_angle_stuck; reflexivity.
Qed.

(** The first tick of the end-to-end scenario, where the clamp is active;
    and the finite heading [2^60], where the call never returns. *)
Lemma C3_witness :
  (exists self' msg,
      returns atan2_table node_at_origin (self', msg)
      /\ Vector3.x (Twist.linear msg) = 2
      /\ control_signal node_at_origin = 0x1.ae4a3a14e655ap+2
      /\ integral_ self' = std.sqrt 41
      /\ prev_error_ self' = std.sqrt 41)
  /\ is_finite (theta_current_ node_far_heading) = true
  /\ forall fuel, control_loop atan2_table fuel node_far_heading = None.
Proof.
  destruct (C3_pid_signal_and_state_update atan2_table) as (_ & H1 & _ & H3).
  split; [|split; [reflexivity|]].
  - destruct (H1 node_at_origin (or_intror eq_refl)) as (self' & msg & Hr & Hl & Hi & Hp).
    exists self', msg. split; [exact Hr|].
    split; [now_from Hl|]. split; [vm_compute; reflexivity|].
    split; [now_from Hi|now_from Hp].
  - apply (H3 atan2_table_positive_x_axis).
Defined.

(** ** The zero-error fixed point *)

(** Numbers that compare equal are the same number, or zeros. *)
Lemma eqb_cases (a b : float) :
  is_finite a = true -> (b =? a) = true ->
  b = a \/ ((a = 0 \/ a = - 0) /\ (b = 0 \/ b = - 0)).
Proof.
  rewrite is_finite_spec, eqb_spec. intros Hf H.
  rewrite <- (SF2Prim_Prim2SF a), <- (SF2Prim_Prim2SF b).
  destruct (Prim2SF a) as [sa|sa| |sa ma ea], (Prim2SF b) as [sb|sb| |sb mb eb];
    try discriminate; try (destruct sa; discriminate); try (destruct sb; discriminate).
  - right. destruct sa, sb; cbn [SF2Prim]; auto.
  - left. unfold SFeqb, SFcompare in H.
    destruct sa, sb; try discriminate;
      destruct (Z.compare_spec eb ea); try discriminate;
      rewrite Pos.compare_cont_spec in H; cbn [Pos.switch_Eq] in H;
      destruct (Pos.compare_spec mb ma); try discriminate; subst; reflexivity.
Qed.

(** The difference of two numbers that compare equal is [+0], unless the
    first is [-0] and the second [+0]: then it is [-0]. *)
Lemma sub_eqb (a b : float) :
  is_finite a = true -> (b =? a) = true ->
  a - b = 0 \/ (a = - 0 /\ b = 0 /\ a - b = - 0).
Proof.
  intros Hf H. destruct (eqb_cases a b Hf H) as [->|[[-> | ->] [-> | ->]]].
  - left. now apply sub_diag.
  - left. reflexivity.
  - left. reflexivity.
  - right. repeat split.
  - left. reflexivity.
Qed.

(** C7, as the code has it.  Let the goal be finite, the position compare
    equal to it ([==], under which the two zeros are equal), both state
    members compare equal to zero, and the gains be the constructor's.
    Then each coordinate error is a zero: [-0] when the goal coordinate is
    [-0] and the coordinate of the pose [+0], and [+0] otherwise; where the
    position is the goal bit for bit, the heading error before
    normalisation is [atan2(0, 0) - theta_current_], a function of the
    heading alone.  A call that returns has published the linear speed 0,
    and as angular speed the clamp of four times the normalised
    [atan2(error_y, error_x) - theta_current_].  And the call does return
    when the heading is NaN, or when it is within [-2^56, 2^56] and
    [std::atan2] gives a number within [-M_PI, M_PI] at the two zeros. *)
Theorem C7_zero_error_fixed_point atan2 self :
  gains_as_constructed self ->
  is_finite (x_goal_ self) = true -> is_finite (y_goal_ self) = true ->
  (x_current_ self =? x_goal_ self) = true -> (y_current_ self =? y_goal_ self) = true ->
  (prev_error_ self =? 0) = true -> (integral_ self =? 0) = true ->
  (x_goal_ self - x_current_ self = 0
   \/ (x_goal_ self = - 0 /\ x_current_ self = 0
       /\ x_goal_ self - x_current_ self = - 0))
  /\ (y_goal_ self - y_current_ self = 0
      \/ (y_goal_ self = - 0 /\ y_current_ self = 0
          /\ y_goal_ self - y_current_ self = - 0))
  /\ (x_current_ self = x_goal_ self -> y_current_ self = y_goal_ self ->
      raw_angle_error atan2 self = atan2 0 0 - theta_current_ self)
  /\ (forall fuel self' msg,
         control_loop atan2 fuel self = Some (self', msg) ->
         Vector3.x (Twist.linear msg) = 0
         /\ Some (Vector3.z (Twist.angular msg))
            = option_map (fun a => std.clamp (4 * a) (- 2) 2)
                (normalize_angle fuel
                   (atan2 (y_goal_ self - y_current_ self) (x_goal_ self - x_current_ self)
                    - theta_current_ self)))
  /\ (is_nan (theta_current_ self) = true
      \/ (within (- 0x1p56) 0x1p56 (theta_current_ self) = true
          /\ within (- M_PI) M_PI
               (atan2 (y_goal_ self - y_current_ self) (x_goal_ self - x_current_ self))
             = true) ->
      exists self' msg angle_error,
        returns atan2 self (self', msg)
        /\ normalizes
             (atan2 (y_goal_ self - y_current_ self) (x_goal_ self - x_current_ self)
              - theta_current_ self) angle_error
        /\ Vector3.x (Twist.linear msg) = 0
        /\ Vector3.z (Twist.angular msg) = std.clamp (4 * angle_error) (- 2) 2).
Proof.
  intros (Hkp & Hki & Hkd) Hfx Hfy Hx Hy Hp Hi.
  pose proof (sub_eqb _ _ Hfx Hx) as Ex. pose proof (sub_eqb _ _ Hfy Hy) as Ey.
  assert (Hd : distance_error self = 0).
  { unfold distance_error.
    destruct Ex as [-> | (_ & _ & ->)], Ey as [-> | (_ & _ & ->)]; reflexivity. }
  assert (Hs : std.clamp (control_signal self) (- 2) 2 = 0).
  { unfold control_signal. rewrite Hd, Hkp, Hki, Hkd.
    destruct (eqb_zero_cases _ Hp) as [-> | ->], (eqb_zero_cases _ Hi) as [-> | ->];
      reflexivity. }
  split; [exact Ex|]. split; [exact Ey|]. split; [|split].
  - intros Hx' Hy'. unfold raw_angle_error. rewrite Hx', Hy', !sub_diag by assumption.
    reflexivity.
  - intros fuel self' msg H. apply control_loop_inv in H. destruct H as (a & Ha & _ & ->).
    cbn [Twist.linear Twist.angular Vector3.x Vector3.z]. split; [exact Hs|].
    unfold raw_angle_error in Ha. rewrite Ha. reflexivity.
  - intros Ht.
    assert (Hn : exists a, normalizes (raw_angle_error atan2 self) a).
    { apply normalizes_iff. rewrite raw_angle_error_eq. destruct Ht as [Hn|[Hw Hv]].
      - left. apply sub_nan_r, Hn.
      - right. apply sub_within_2p56; assumption. }
    destruct Hn as (a & Ha). eexists _, _, a.
    split; [exact (returns_normalizes atan2 self a Ha)|]. split; [exact Ha|].
    split; [exact Hs|reflexivity].
Qed.

(** On the goal with heading 1: the call returns, with no linear speed and
    the angular speed at its lower limit. *)
Lemma C7_witness :
  exists self' msg,
    returns atan2_table node_on_goal (self', msg)
    /\ Vector3.x (Twist.linear msg) = 0
    /\ Vector3.z (Twist.angular msg) = - 2.
Proof.
  destruct (C7_zero_error_fixed_point atan2_table node_on_goal
              (conj eq_refl (conj eq_refl eq_refl))
              eq_refl eq_refl eq_refl eq_refl eq_refl eq_refl)
    as (_ & _ & _ & _ & H).
  destruct (H (or_intror (conj eq_refl eq_refl)))
    as (self' & msg & a & Hr & (n & Ha) & Hl & Hz).
  exists self', msg. split; [exact Hr|]. split; [exact Hl|].
  specialize (Ha n (le_n n)).
  assert (E : normalize_angle n
                (atan2_table (y_goal_ node_on_goal - y_current_ node_on_goal)
                             (x_goal_ node_on_goal - x_current_ node_on_goal)
                 - theta_current_ node_on_goal) = Some (- 1))
    by (destruct n; reflexivity).
  rewrite E in Ha. injection Ha as <-. now_from Hz.
Defined.

(** Three inputs with the position equal to the goal, both state members
    zero and the gains of the constructor.  With the goal at (-0, 5) and
    the turtle at (+0, 5) the angular command is 2; with the goal at
    (+0, 5) it is 0, the heading being 0 in both: the angular command is
    not a function of the heading alone.  With the goal and the turtle at
    (+infinity, 5) the linear command is NaN, not 0.  With the turtle on the
    goal (4, 5) and the finite heading [2^60], the call does not return
    and publishes nothing. *)
Lemma C7_counterexample :
  ((x_current_ node_on_negative_zero_goal =? x_goal_ node_on_negative_zero_goal) = true
   /\ (y_current_ node_on_negative_zero_goal =? y_goal_ node_on_negative_zero_goal) = true
   /\ theta_current_ node_on_negative_zero_goal = theta_current_ node_on_zero_goal
   /\ option_map (fun r => Vector3.z (Twist.angular (snd r)))
                 (control_loop atan2_signed_zero 0 node_on_negative_zero_goal) = Some 2
   /\ option_map (fun r => Vector3.z (Twist.angular (snd r)))
                 (control_loop atan2_signed_zero 0 node_on_zero_goal) = Some 0)
  /\ ((x_current_ node_on_infinite_goal =? x_goal_ node_on_infinite_goal) = true
      /\ (y_current_ node_on_infinite_goal =? y_goal_ node_on_infinite_goal) = true
      /\ option_map (fun r => is_nan (Vector3.x (Twist.linear (snd r))))
                    (control_loop atan2_signed_zero 0 node_on_infinite_goal) = Some true)
  /\ (x_current_ node_on_goal_far_heading = x_goal_ node_on_goal_far_heading
      /\ y_current_ node_on_goal_far_heading = y_goal_ node_on_goal_far_heading
      /\ is_finite (theta_current_ node_on_goal_far_heading) = true
      /\ forall fuel, control_loop atan2_signed_zero fuel node_on_goal_far_heading = None).
Proof.
  split; [repeat split|split; [repeat split|]].
  split; [reflexivity|]. split; [reflexivity|]. split; [reflexivity|].
  intros fuel. unfold control_loop.
  fold (raw_angle_error atan2_signed_zero node_on_goal_far_heading).
  change (raw_angle_error atan2_signed_zero node_on_goal_far_heading) with (- 0x1p60).
  rewrite normalize_angle_stuck; reflexivity.
Qed.

(** ** Accumulation of the integral over a run *)

Section Accumulation.

Variable atan2 : double -> double -> double.
Variable fuel : nat.

(** What a run leaves in [integral_], and what it has observed: a message
    leaves [integral_] as it is, and a call of [control_loop] adds its
    distance error, which is never negative. *)
Lemma observed_errors_spec events : forall self self' out,
  spin atan2 fuel events self = Some (self', out) ->
  integral_ self'
  = fold_left (fun i e => i + e) (observed_errors atan2 fuel events self) (integral_ self)
  /\ length (observed_errors atan2 fuel events self) = timers events
  /\ Forall (fun e => (e <? 0) = false) (observed_errors atan2 fuel events self).
Proof.
  induction events as [|ev events IH]; intros self self' out H.
  - injection H as <- _. repeat split. constructor.
  - apply spin_cons in H. destruct H as (s1 & o1 & o2 & Hd & Hs & _).
    cbn [observed_errors]. rewrite Hd.
    destruct (IH _ _ _ Hs) as (Hi & Hl & Hp).
    apply dispatch_inv in Hd. destruct ev as [msg|msg|].
    + destruct Hd as [-> _]. cbn [app timers]. repeat split; assumption.
    + destruct Hd as [-> _]. cbn [app timers]. repeat split; assumption.
    + destruct Hd as (m & Hc & _). apply control_loop_inv in Hc.
      destruct Hc as (a & _ & -> & _).
      cbn [app timers length fold_left]. cbn [set_state integral_] in Hi.
      split; [exact Hi|]. split; [now rewrite Hl|].
      constructor; [apply distance_error_not_negative|exact Hp].
Qed.

Lemma cycle_none n : N.iter n (cycle atan2 fuel) None = None.
Proof. apply N.iter_invariant; [intros x ->|]; reflexivity. Qed.

(** [cycles] is the run of that many expiries of the timer and nothing
    else. *)
Lemma cycles_spin k : forall self,
  cycles atan2 fuel (N.of_nat k) self
  = option_map fst (spin atan2 fuel (repeat Timer k) self).
Proof.
  induction k as [|k IH]; intros self; [reflexivity|].
  rewrite Nat2N.inj_succ. unfold cycles. rewrite N.iter_succ_r.
  cbn [repeat spin dispatch cycle].
  destruct (control_loop atan2 fuel self) as [[s m]|]; [|apply cycle_none].
  fold (cycles atan2 fuel (N.of_nat k) s). rewrite IH.
  destruct (spin atan2 fuel (repeat Timer k) s) as [[s' o]|]; reflexivity.
Qed.

End Accumulation.

(** Adding the same number along a list is [repeated_sum]. *)
Lemma fold_left_repeated_sum (d : double) l : forall start,
  Forall (fun e => e = d) l ->
  fold_left (fun i e => i + e) l start = repeated_sum d (N.of_nat (length l)) start.
Proof.
  induction l as [|e l IH]; intros start H.
  - reflexivity.
  - inversion H as [|e' l' He Hl]; subst. cbn [fold_left length].
    rewrite IH by assumption. rewrite Nat2N.inj_succ. unfold repeated_sum.
    rewrite N.iter_succ_r. reflexivity.
Qed.

(** A finite number that does not compare equal to zero, added to a zero
    of either sign, is itself. *)
Lemma zero_add (z d : double) :
  (z =? 0) = true -> is_finite d = true -> (d =? 0) = false -> z + d = d.
Proof.
  intros Hz Hf Hd. rewrite is_finite_spec in Hf. rewrite eqb_spec in Hd.
  apply Prim2SF_inj. rewrite add_spec.
  destruct (eqb_zero_cases z Hz) as [-> | ->];
    destruct (Prim2SF d) as [s| | |s m e]; try discriminate;
    try (destruct s; discriminate); reflexivity.
Qed.

(** A finite number that is neither below zero nor equal to it has a
    positive value. *)
Lemma positive_fval (d : double) :
  is_finite d = true -> (d <? 0) = false -> (d =? 0) = false -> (0 < fval d)%Z.
Proof.
  intros Hf Hl He. pose proof (finite_not_nan _ Hf) as Hn.
  rewrite ltb_fval in Hl by (assumption || reflexivity).
  rewrite eqb_spec in He. unfold SFeqb in He.
  rewrite (compare_fval d 0) in He by (assumption || reflexivity).
  change (fval 0) with 0%Z in *. apply Z.ltb_ge in Hl.
  destruct (Z.compare_spec (fval d) 0); try discriminate; lia.
Qed.

(** From either zero, the first addition gives the same sum. *)
Lemma repeated_sum_from_zero (d z : double) n :
  (z =? 0) = true -> is_finite d = true -> (d =? 0) = false -> (0 < n)%N ->
  repeated_sum d n z = repeated_sum d n 0.
Proof.
  intros Hz Hf Hd Hn. rewrite <- (N.succ_pred_pos n Hn). unfold repeated_sum.
  rewrite !N.iter_succ_r, (zero_add z d Hz Hf Hd), (zero_add 0 d eq_refl Hf Hd).
  reflexivity.
Qed.

(** C6, as the code has it.  After any run that comes to an end,
    [integral_] is what it was before the run with the distance errors of
    the run's control cycles added to it, in binary64 and in the order of
    the cycles, one per expiry of the timer: a message on either topic
    leaves it as it is, nothing but the distance error enters it (the
    heading error does not), and nothing resets it.  When [integral_] is
    zero before the run and every cycle of the run observes the same finite
    distance error [d], not zero, with [n] cycles, [1 <= n <= 2^52], and
    [2 n d] below the overflow threshold, then [integral_] is the binary64
    sum of [n] copies of [d], it is finite, and it differs from [n * d] by
    at most [n^2 * 2^-52 * d], whatever messages arrive between the cycles.
    Values are in units of [2^-1074]. *)
Theorem C6_integral_accumulates atan2 fuel events self self' out (d : double) :
  spin atan2 fuel events self = Some (self', out) ->
  (integral_ self'
   = fold_left (fun i e => i + e) (observed_errors atan2 fuel events self) (integral_ self)
   /\ length (observed_errors atan2 fuel events self) = timers events)
  /\ ((integral_ self =? 0) = true ->
      Forall (fun e => (e =? d) = true) (observed_errors atan2 fuel events self) ->
      is_finite d = true -> (d =? 0) = false ->
      (1 <= Z.of_nat (timers events) <= 2 ^ 52)%Z ->
      (2 * Z.of_nat (timers events) * fval d < 2 ^ 2097)%Z ->
      integral_ self' = repeated_sum d (N.of_nat (timers events)) 0
      /\ is_finite (integral_ self') = true
      /\ (2 ^ 52 * Z.abs (fval (integral_ self') - Z.of_nat (timers events) * fval d)
          <= Z.of_nat (timers events) * Z.of_nat (timers events) * fval d)%Z).
Proof.
  intros H.
  destruct (observed_errors_spec atan2 fuel events self self' out H) as (Hi & Hl & Hp).
  split; [split; assumption|]. intros H0 Hall Hf Hnz Hn Hov.
  set (l := observed_errors atan2 fuel events self) in *.
  assert (Hall' : Forall (fun e => e = d) l).
  { eapply Forall_impl; [|exact Hall]. cbn beta. intros e He.
    destruct (eqb_cases d e Hf He) as [E|[[-> | ->] _]]; [exact E|discriminate..]. }
  assert (Hpos : (0 < fval d)%Z).
  { destruct l as [|e l']; [cbn in Hl; lia|].
    inversion Hall' as [|? ? He _]; inversion Hp as [|? ? Hlt _]; subst.
    now apply positive_fval. }
  assert (E : integral_ self' = repeated_sum d (N.of_nat (timers events)) 0).
  { rewrite Hi, (fold_left_repeated_sum d l _ Hall'), Hl.
    apply repeated_sum_from_zero; try assumption. lia. }
  split; [exact E|]. rewrite E.
  rewrite <- (nat_N_Z (timers events)) in Hn, Hov |- *.
  apply repeated_sum_bound; try assumption. lia.
Qed.

(** Three cycles at distance 1, with a pose and a goal arriving in
    between. *)
Lemma C6_witness :
  exists self' out,
    spin atan2_table 0 sample_cycles node_near_goal = Some (self', out)
    /\ observed_errors atan2_table 0 sample_cycles node_near_goal = [1; 1; 1]
    /\ integral_ self' = 3.
Proof.
  eexists _, _. split; [vm_compute; reflexivity|]. split; [reflexivity|].
  assert (Hall : Forall (fun e => (e =? 1) = true)
                   (observed_errors atan2_table 0 sample_cycles node_near_goal))
    by (repeat constructor).
  assert (Hn : (1 <= Z.of_nat (timers sample_cycles) <= 2 ^ 52)%Z)
    by (split; vm_compute; discriminate).
  assert (Hov : (2 * Z.of_nat (timers sample_cycles) * fval 1 < 2 ^ 2097)%Z)
    by (vm_compute; reflexivity).
  destruct (C6_integral_accumulates atan2_table 0 sample_cycles node_near_goal _ _ 1 eq_refl)
    as (_ & H2).
  destruct (H2 eq_refl Hall eq_refl eq_refl Hn Hov) as (H3 & _).
  now_from H3.
Defined.
